(** * A shallow embedding of the baseline compiler

    The repository is a single-pass compiler from a small C-like language
    to 32-bit ARM assembly, written in Go.  It has three parts:

    - a parser-combinator kernel ([Source], [Parser], [Regexp], [Constant],
      [Or], [Many], [Bind], [And], [Map], [Maybe], [ParseStringToCompletion]);
    - the grammar built on it ([token], [infix], [getComparisonParser],
      [getStatementParser], [parser]);
    - the syntax tree with its two methods [Emit] and [Equals].

    Two things the code relies on lie outside the repository and are
    modelled alongside it: Go's regular expressions, as an interface
    ([RegexpLib]) with an instance for the patterns of the grammar ([RE2]),
    and the meaning of the emitted instructions ([ARM]).

    Go code can return, panic, or run forever; the three are kept apart by
    the type [outcome].  Loops whose bound is not structural ([Many], and
    the recursion of the grammar through the package variables
    [expression] and [statement]) carry a step bound; exhausting it is the
    outcome [Diverge]. *)

From Stdlib Require Import ZArith String Ascii List Lia.
From Stdlib Require Import DecimalString DecimalZ DecimalPos.
From stdpp Require Import base gmap strings list.

Set Warnings "-register-all".

Open Scope string_scope.
Open Scope Z_scope.

(** ** Outcomes of a Go call *)

Inductive outcome (A : Type) : Type :=
| Done (a : A)            (* the call returns [a] *)
| Panic (msg : string)    (* the call panics *)
| Diverge.                (* the step bound was exhausted *)
Arguments Done {A} a.
Arguments Panic {A} msg.
Arguments Diverge {A}.

Definition obind {A B} (m : outcome A) (k : A -> outcome B) : outcome B :=
  match m with
  | Done a => k a
  | Panic msg => Panic msg
  | Diverge => Diverge
  end.

(** Messages of the Go runtime for the two run-time errors the code can
    hit. *)
Definition nil_dereference : string :=
  "runtime error: invalid memory address or nil pointer dereference".
Definition index_out_of_range : string :=
  "runtime error: index out of range".
Definition slice_out_of_range : string :=
  "runtime error: slice bounds out of range".

(** ** Byte strings

    A Go string is a sequence of bytes and [len] counts bytes; so does
    [String.length]. *)

Fixpoint string_drop (n : nat) (s : string) : string :=
  match n, s with
  | O, _ => s
  | S n', String _ s' => string_drop n' s'
  | S _, EmptyString => EmptyString
  end.

(** [strings.TrimPrefix s prefix]. *)
Definition TrimPrefix (s prefix : string) : string :=
  if String.prefix prefix s then string_drop (String.length prefix) s else s.

(** [fmt.Sprintf("%d", z)]. *)
Definition fmt_d (z : Z) : string := NilZero.string_of_int (Z.to_int z).

(** Go's [int] is taken to be 64 bits wide; arithmetic on it wraps. *)
Definition int_min : Z := - 2 ^ 63.
Definition int_max : Z := 2 ^ 63 - 1.
Definition wrap (z : Z) : Z := (z + 2 ^ 63) mod 2 ^ 64 - 2 ^ 63.

(** ** The regular-expression library

    [regexp.Compile] and [Regexp.FindStringIndex] belong to the Go
    standard library, not to the repository.  The kernel is written
    against this interface; [bounded_find] is the part of the library's
    contract the kernel relies on (a match is a span of the text). *)

Class RegexpLib : Type := {
  regex : Type;
  Compile : string -> option regex;            (* [None]: the pattern is rejected *)
  FindStringIndex : regex -> string -> option (nat * nat)
}.

Definition bounded_find `{RegexpLib} : Prop :=
  forall (re : regex) (s : string) (lo hi : nat),
    FindStringIndex re s = Some (lo, hi) -> (lo <= hi <= String.length s)%nat.

(** ** Cursor and parse results *)

Record Source : Type := NewSource { str : string; index : Z }.

Record ParseResult (T : Type) : Type :=
  mkResult { value : T; source : Source }.
Arguments mkResult {T} value source.
Arguments value {T} _.
Arguments source {T} _.

(** A [*ParseResult[T]] is [nil] or points to a result. *)
Definition parsed (T : Type) : Type := outcome (option (ParseResult T)).

(** [Parser[T]] is a struct whose only field, the function [Parse], may be
    [nil]. *)
Record Parser (T : Type) : Type :=
  mkParser { Parse : option (Source -> parsed T) }.
Arguments mkParser {T} Parse.
Arguments Parse {T} _.

Definition parserOf {T} (f : Source -> parsed T) : Parser T :=
  mkParser (Some f).

(** Calling [p.Parse(source)] without a nil check. *)
Definition invoke {T} (p : Parser T) (src : Source) : parsed T :=
  match Parse p with
  | Some f => f src
  | None => Panic nil_dereference
  end.

Section Kernel.
Context `{RegexpLib}.

Definition Match (s : Source) (pattern : string) : parsed string :=
  if bool_decide (Z.of_nat (String.length (str s)) <= index s) then Done None
  else
    let cleanPattern := TrimPrefix pattern "^" in
    match Compile ("^" +:+ cleanPattern) with
    | None => Panic "regexp: error parsing regexp"
    | Some regex =>
        if bool_decide (index s < 0) then Panic slice_out_of_range
        else
          let remaining := string_drop (Z.to_nat (index s)) (str s) in
          match FindStringIndex regex remaining with
          | None => Done None
          | Some (lo, hi) =>
              let match_ := substring lo (hi - lo) remaining in
              Done (Some (mkResult match_
                      (NewSource (str s)
                         (index s + Z.of_nat (String.length match_)))))
          end
    end.

Definition Regexp (pattern : string) : Parser string :=
  parserOf (fun src => Match src pattern).

Definition Constant {T} (value : T) : Parser T :=
  parserOf (fun src => Done (Some (mkResult value src))).

Definition Error {T} (message : string) : Parser T :=
  parserOf (fun _ => Panic message).

(** The loop of [Or] over its parsers. *)
Fixpoint Or_loop {T} (parsers : list (Parser T)) (src : Source) : parsed T :=
  match parsers with
  | [] => Done None
  | parser :: rest =>
      match Parse parser with
      | None => Or_loop rest src
      | Some f =>
          match f src with
          | Done None => Or_loop rest src
          | r => r
          end
      end
  end.

Definition Or {T} (parsers : list (Parser T)) : Parser T :=
  parserOf (Or_loop parsers).

(** The [for] loop of [Many], entered with a non-nil [parse]; [fuel]
    bounds the number of iterations. *)
Fixpoint Many_loop {T} (fuel : nat) (parse : Source -> parsed T)
    (results : list T) (currentSource : Source) : parsed (list T) :=
  match fuel with
  | O => Diverge
  | S fuel' =>
      match parse currentSource with
      | Done None => Done (Some (mkResult results currentSource))
      | Done (Some result) =>
          Many_loop fuel' parse (results ++ [value result]) (source result)
      | Panic msg => Panic msg
      | Diverge => Diverge
      end
  end.

Definition Many {T} (fuel : nat) (parser : Parser T) : Parser (list T) :=
  parserOf (fun src =>
    match Parse parser with
    | None => Done (Some (mkResult [] src))
    | Some parse => Many_loop fuel parse [] src
    end).

Definition Bind {T U} (parser : Parser T) (callback : T -> Parser U) : Parser U :=
  parserOf (fun src =>
    match invoke parser src with
    | Done None => Done None
    | Done (Some result) =>
        let nextParser := callback (value result) in
        match Parse nextParser with
        | None => Done None
        | Some parse => parse (source result)
        end
    | Panic msg => Panic msg
    | Diverge => Diverge
    end).

Definition And {T U} (parser1 : Parser T) (parser2 : Parser U) : Parser U :=
  Bind parser1 (fun _ => parser2).

Definition Map {T U} (parser : Parser T) (callback : T -> U) : Parser U :=
  Bind parser (fun value => Constant (callback value)).

(** [Maybe] yields a [*T]: [nil] or a pointer to the value. *)
Definition Maybe {T} (parser : Parser T) : Parser (option T) :=
  parserOf (fun src =>
    match Parse parser with
    | None => Done (Some (mkResult None src))
    | Some parse =>
        match parse src with
        | Done None => Done (Some (mkResult None src))
        | Done (Some result) =>
            Done (Some (mkResult (Some (value result)) (source result)))
        | Panic msg => Panic msg
        | Diverge => Diverge
        end
    end).

(** The message of the last panic of [ParseStringToCompletion]. *)
Definition parse_error_at (index : Z) (tail : string) : string :=
  "Parse error at index " +:+ fmt_d index +:+ ", remaining: " +:+ tail.

Definition ParseStringToCompletion {T} (p : Parser T) (str_ : string) : outcome T :=
  let src := NewSource str_ 0 in
  match Parse p with
  | None => Panic "Parse error: parser has nil Parse function"
  | Some parse =>
      match parse src with
      | Done None => Panic "Parse error: could not parse anything at all"
      | Done (Some result) =>
          let rs := source result in
          if bool_decide (index rs <> Z.of_nat (String.length (str rs))) then
            if bool_decide (0 <= index rs <= Z.of_nat (String.length (str rs))) then
              Panic (parse_error_at (index rs)
                       (string_drop (Z.to_nat (index rs)) (str rs)))
            else Panic slice_out_of_range
          else Done (value result)
      | Panic msg => Panic msg
      | Diverge => Diverge
      end
  end.
End Kernel.

(** ** The fragment of Go's regular expressions the grammar uses

    The patterns of the grammar are built from literal bytes, escaped
    punctuation, [\b], [.], bracket classes of bytes and ranges, the
    postfix operators [+], [*] and [*?], the anchor [^] and the flag group
    [(?s)].  [RE2.Compile] reads exactly this fragment of the RE2 syntax
    and returns [None] on everything else; [RE2.FindStringIndex] is the
    leftmost match with Go's preference order (greedy operators take the
    longest repetition first, [*?] the shortest).  Every byte the
    patterns name is ASCII, so matching bytes and matching runes agree. *)

Module RE2.

Inductive atom : Type :=
| AChar (c : ascii)
| AClass (ranges : list (ascii * ascii))
| ADot (dotall : bool).

Inductive item : Type :=
| One (a : atom)
| Plus (a : atom)
| Star (a : atom)
| LazyStar (a : atom)
| WordBoundary
| BeginText.

Definition newline : ascii := "010"%char.

Definition in_range (c : ascii) (r : ascii * ascii) : bool :=
  Ascii.leb (fst r) c && Ascii.leb c (snd r).

Definition atom_matches (a : atom) (c : ascii) : bool :=
  match a with
  | AChar c' => Ascii.eqb c' c
  | AClass ranges => existsb (in_range c) ranges
  | ADot dotall => dotall || negb (Ascii.eqb c newline)
  end.

Definition is_word_char (c : ascii) : bool :=
  existsb (in_range c)
    [("0"%char, "9"%char); ("A"%char, "Z"%char); ("a"%char, "z"%char);
     ("_"%char, "_"%char)].

Definition is_word (c : option ascii) : bool :=
  match c with Some c => is_word_char c | None => false end.

Definition head (s : string) : option ascii :=
  match s with String c _ => Some c | EmptyString => None end.

(** *** Reading a pattern *)

Inductive tok : Type :=
| TAtom (a : ascii)
| TDot
| TClass (ranges : list (ascii * ascii))
| TPlus | TStar | TQuestion
| TWordB | TBegin | TFlagS.

Inductive lex_state : Type :=
| LTop
| LEscape
| LGroup (seen : nat)
| LClass (first : bool) (ranges : list (ascii * ascii))
         (pending : option ascii) (dash : bool)
| LClassEscape (ranges : list (ascii * ascii))
         (pending : option ascii) (dash : bool).

Definition is_punct (c : ascii) : bool :=
  existsb (Ascii.eqb c)
    ["\"%char; "."%char; "+"%char; "*"%char; "?"%char; "("%char; ")"%char;
     "|"%char; "["%char; "]"%char; "{"%char; "}"%char; "^"%char; "$"%char;
     "-"%char; "/"%char; "!"%char; "="%char; ","%char; ";"%char].

Definition escaped_byte (c : ascii) : option ascii :=
  if Ascii.eqb c "n"%char then Some newline
  else if Ascii.eqb c "r"%char then Some "013"%char
  else if Ascii.eqb c "t"%char then Some "009"%char
  else if is_punct c then Some c
  else None.

(** A byte [c] read inside a bracket class. *)
Definition class_add (ranges : list (ascii * ascii))
    (pending : option ascii) (dash : bool) (c : ascii) : option lex_state :=
  match pending, dash with
  | Some lo, true =>
      if Ascii.leb lo c then Some (LClass false (ranges ++ [(lo, c)]) None false)
      else None
  | Some lo, false => Some (LClass false (ranges ++ [(lo, lo)]) (Some c) false)
  | None, _ => Some (LClass false ranges (Some c) false)
  end.

Definition class_close (ranges : list (ascii * ascii))
    (pending : option ascii) (dash : bool) : list (ascii * ascii) :=
  match pending, dash with
  | Some lo, true => ranges ++ [(lo, lo); ("-"%char, "-"%char)]
  | Some lo, false => ranges ++ [(lo, lo)]
  | None, _ => ranges
  end.

Fixpoint lex (st : lex_state) (s : string) : option (list tok) :=
  match s with
  | EmptyString => match st with LTop => Some [] | _ => None end
  | String c s' =>
      match st with
      | LTop =>
          if Ascii.eqb c "\"%char then lex LEscape s'
          else if Ascii.eqb c "["%char then lex (LClass true [] None false) s'
          else if Ascii.eqb c "("%char then lex (LGroup 0) s'
          else if Ascii.eqb c "."%char then cons TDot <$> lex LTop s'
          else if Ascii.eqb c "+"%char then cons TPlus <$> lex LTop s'
          else if Ascii.eqb c "*"%char then cons TStar <$> lex LTop s'
          else if Ascii.eqb c "?"%char then cons TQuestion <$> lex LTop s'
          else if Ascii.eqb c "^"%char then cons TBegin <$> lex LTop s'
          else if existsb (Ascii.eqb c)
                    [")"%char; "|"%char; "]"%char; "{"%char; "}"%char; "$"%char]
               then None
          else cons (TAtom c) <$> lex LTop s'
      | LEscape =>
          if Ascii.eqb c "b"%char then cons TWordB <$> lex LTop s'
          else match escaped_byte c with
               | Some b => cons (TAtom b) <$> lex LTop s'
               | None => None
               end
      | LGroup seen =>
          match seen with
          | O => if Ascii.eqb c "?"%char then lex (LGroup 1) s' else None
          | S O => if Ascii.eqb c "s"%char then lex (LGroup 2) s' else None
          | _ => if Ascii.eqb c ")"%char then cons TFlagS <$> lex LTop s' else None
          end
      | LClass first ranges pending dash =>
          if Ascii.eqb c "]"%char then
            if first then None
            else cons (TClass (class_close ranges pending dash)) <$> lex LTop s'
          else if Ascii.eqb c "\"%char then lex (LClassEscape ranges pending dash) s'
          else if first && Ascii.eqb c "^"%char then None
          else if Ascii.eqb c "["%char then None
          else if Ascii.eqb c "-"%char && negb dash
                  && match pending with Some _ => true | None => false end
               then lex (LClass false ranges pending true) s'
          else match class_add ranges pending dash c with
               | Some st' => lex st' s'
               | None => None
               end
      | LClassEscape ranges pending dash =>
          match escaped_byte c with
          | Some b =>
              match class_add ranges pending dash b with
              | Some st' => lex st' s'
              | None => None
              end
          | None => None
          end
      end
  end.

Definition tok_atom (dotall : bool) (t : tok) : option atom :=
  match t with
  | TAtom c => Some (AChar c)
  | TDot => Some (ADot dotall)
  | TClass ranges => Some (AClass ranges)
  | _ => None
  end.

Definition is_quantifier (ts : list tok) : bool :=
  match ts with
  | TPlus :: _ | TStar :: _ | TQuestion :: _ => true
  | _ => false
  end.

Fixpoint build (dotall : bool) (ts : list tok) : option (list item) :=
  match ts with
  | [] => Some []
  | TFlagS :: r => if is_quantifier r then None else build true r
  | TBegin :: r => if is_quantifier r then None else cons BeginText <$> build dotall r
  | TWordB :: r => if is_quantifier r then None else cons WordBoundary <$> build dotall r
  | t :: r =>
      match tok_atom dotall t with
      | None => None
      | Some a =>
          match r with
          | TPlus :: r' =>
              if is_quantifier r' then None else cons (Plus a) <$> build dotall r'
          | TStar :: TQuestion :: r' =>
              if is_quantifier r' then None else cons (LazyStar a) <$> build dotall r'
          | TStar :: r' =>
              if is_quantifier r' then None else cons (Star a) <$> build dotall r'
          | TQuestion :: _ => None
          | _ => cons (One a) <$> build dotall r
          end
      end
  end.

Definition Compile (pattern : string) : option (list item) :=
  match lex LTop pattern with
  | Some ts => build false ts
  | None => None
  end.

(** *** Matching

    [match_items re prev s] is the length of the preferred match of [re]
    at the start of [s], where [prev] is the byte before it. *)

Definition continuation : Type := option ascii -> string -> option nat.

Fixpoint star_greedy (a : atom) (k : continuation)
    (prev : option ascii) (s : string) : option nat :=
  match s with
  | String c s' =>
      if atom_matches a c then
        match star_greedy a k (Some c) s' with
        | Some n => Some (S n)
        | None => k prev s
        end
      else k prev s
  | EmptyString => k prev s
  end.

Fixpoint star_lazy (a : atom) (k : continuation)
    (prev : option ascii) (s : string) : option nat :=
  match k prev s with
  | Some n => Some n
  | None =>
      match s with
      | String c s' =>
          if atom_matches a c then S <$> star_lazy a k (Some c) s' else None
      | EmptyString => None
      end
  end.

Definition one (a : atom) (k : continuation) : continuation :=
  fun prev s =>
    match s with
    | String c s' => if atom_matches a c then S <$> k (Some c) s' else None
    | EmptyString => None
    end.

Fixpoint match_items (re : list item) : continuation :=
  match re with
  | [] => fun _ _ => Some O
  | One a :: r => one a (match_items r)
  | Plus a :: r => one a (star_greedy a (match_items r))
  | Star a :: r => star_greedy a (match_items r)
  | LazyStar a :: r => star_lazy a (match_items r)
  | WordBoundary :: r => fun prev s =>
      if xorb (is_word prev) (is_word (head s)) then match_items r prev s
      else None
  | BeginText :: r => fun prev s =>
      match prev with None => match_items r prev s | Some _ => None end
  end.

Fixpoint find_from (re : list item) (prev : option ascii) (s : string)
    (pos : nat) : option (nat * nat) :=
  match match_items re prev s with
  | Some n => Some (pos, (pos + n)%nat)
  | None =>
      match s with
      | String c s' => find_from re (Some c) s' (S pos)
      | EmptyString => None
      end
  end.

Definition FindStringIndex (re : list item) (s : string) : option (nat * nat) :=
  find_from re None s O.

End RE2.

#[export] Instance re2 : RegexpLib := {|
  regex := list RE2.item;
  Compile := RE2.Compile;
  FindStringIndex := RE2.FindStringIndex
|}.

(** ** The syntax tree

    [AST] is a Go interface.  A value of that type is [nil], one of the
    node structs, or a pointer to one of them: every method has a value
    receiver, so [*Number] implements [AST] as well as [Number] does.
    [Ptr n] is a pointer to the node [n]; nodes are never mutated, so what
    a pointer aliases cannot be observed. *)

Inductive AST : Type :=
| ASTnil
| Number (value : Z)
| Id (value : string)
| Not (term : AST)
| Equal (left right : AST)
| NotEqual (left right : AST)
| Add (left right : AST)
| Subtract (left right : AST)
| Multiply (left right : AST)
| Divide (left right : AST)
| Call (callee : string) (args : list AST)
| Return (term : AST)
| Block (statements : list AST)
| If (conditional consequence alternative : AST)
| While (conditional body : AST)
| Assign (name : string) (value : AST)
| Var (name : string) (value : AST)
| Function (name : string) (parameters : list string) (body : AST)
| Main (statements : list AST)
| Assert (condition : AST)
| Ptr (node : AST).

(** ** Emission state

    [Emit] writes lines to standard output through [emit], draws labels
    from the package variable [labelCounter], and reads and updates the
    [Environment] it is handed a pointer to. *)

Record Environment : Type :=
  mkEnvironment { locals : gmap string Z; nextLocalOffset : Z }.

Definition NewEnvironment : Environment := mkEnvironment ∅ 0.

Record state : Type :=
  mkState { env : Environment; labelCounter : Z; output : list string }.

Definition emitter : Type := state -> outcome unit * state.

Definition emit (line : string) : emitter :=
  fun st => (Done tt, mkState (env st) (labelCounter st) (output st ++ [line])).

Definition panic (msg : string) : emitter := fun st => (Panic msg, st).

Definition skip : emitter := fun st => (Done tt, st).

Definition seq (a b : emitter) : emitter :=
  fun st =>
    match a st with
    | (Done _, st') => b st'
    | r => r
    end.

Declare Scope emitter_scope.
Delimit Scope emitter_scope with E.
Bind Scope emitter_scope with emitter.
Notation "a ;; b" := (seq a b)
  (at level 100, b at level 200, right associativity) : emitter_scope.

(** [NewLabel] followed by [Label.String] at the place of use. *)
Definition Label_String (value : Z) : string := ".L" +:+ fmt_d value.

Definition NewLabel (k : string -> emitter) : emitter :=
  fun st =>
    k (Label_String (labelCounter st))
      (mkState (env st) (wrap (labelCounter st + 1)) (output st)).

(** Running [body] against a different environment, as [Function.Emit]
    does with [funcEnv]; the caller's environment is untouched. *)
Definition with_environment (e : Environment) (body : emitter) : emitter :=
  fun st =>
    let '(r, st') := body (mkState e (labelCounter st) (output st)) in
    (r, mkState (env st) (labelCounter st') (output st')).

Definition lookup_local (name : string) (k : Z -> emitter) : emitter :=
  fun st =>
    match locals (env st) !! name with
    | Some offset => k offset st
    | None => panic ("Undefined variable: " +:+ name) st
    end.

Definition declare_local (name : string) : emitter :=
  fun st =>
    let e := env st in
    let locals' := <[name := wrap (nextLocalOffset e - 4)]> (locals e) in
    (Done tt,
     mkState (mkEnvironment locals' (wrap (nextLocalOffset e - 8)))
       (labelCounter st) (output st)).

(** The operand-stack pattern shared by the six binary nodes. *)
Definition binary (left right : emitter) : emitter :=
  (left ;; emit "  push {r0, ip}" ;; right ;; emit "  pop {r1, ip}")%E.

Definition emitPrologue : emitter :=
  (emit "  push {fp, lr}" ;; emit "  mov fp, sp" ;;
   emit "  push {r0, r1, r2, r3}")%E.

Definition emitEpilogue : emitter :=
  (emit "  mov sp, fp" ;; emit "  mov r0, #0" ;; emit "  pop {fp, pc}")%E.

(** The two [range] loops of the emitter: over statements, and over the
    arguments of a call with their index. *)
Section Loops.
Variable body : AST -> emitter.

Fixpoint for_each (l : list AST) : emitter :=
  match l with
  | [] => skip
  | statement :: rest => (body statement ;; for_each rest)%E
  end.

Fixpoint for_each_argument (i : nat) (l : list AST) : emitter :=
  match l with
  | [] => skip
  | arg :: rest =>
      (body arg ;;
       emit ("  str r0, [sp, #" +:+ fmt_d (4 * Z.of_nat i) +:+ "]") ;;
       for_each_argument (S i) rest)%E
  end.
End Loops.

(** The loop of [setUpEnvironment], from index [i] on. *)
Fixpoint bind_parameters (i : nat) (parameters : list string)
    (m : gmap string Z) : gmap string Z :=
  match parameters with
  | [] => m
  | param :: rest => bind_parameters (S i) rest (<[param := 4 * Z.of_nat i - 16]> m)
  end.

Definition setUpEnvironment (parameters : list string) : Environment :=
  mkEnvironment (bind_parameters 0 parameters (locals NewEnvironment)) (-20).

Fixpoint Emit (a : AST) : emitter :=
  match a with
  | ASTnil => panic nil_dereference
  | Ptr node => Emit node
  | Number value => emit ("  ldr r0, =" +:+ fmt_d value)
  | Id value =>
      lookup_local value (fun offset =>
        emit ("  ldr r0, [fp, #" +:+ fmt_d offset +:+ "]"))
  | Not term =>
      Emit term ;; emit "  cmp r0, #0" ;; emit "  moveq r0, #1" ;;
      emit "  movne r0, #0"
  | Equal l r =>
      binary (Emit l) (Emit r) ;; emit "  cmp r0, r1" ;;
      emit "  moveq r0, #1" ;; emit "  movne r0, #0"
  | NotEqual l r =>
      binary (Emit l) (Emit r) ;; emit "  cmp r0, r1" ;;
      emit "  movne r0, #1" ;; emit "  moveq r0, #0"
  | Add l r =>
      binary (Emit l) (Emit r) ;; emit "  add r0, r1, r0"
  | Subtract l r =>
      binary (Emit l) (Emit r) ;; emit "  sub r0, r1, r0"
  | Multiply l r =>
      binary (Emit l) (Emit r) ;; emit "  mul r0, r1, r0"
  | Divide l r =>
      binary (Emit l) (Emit r) ;; emit "  udiv r0, r1, r0"
  | Call callee args =>
      let count := length args in
      if bool_decide (count = 0%nat) then emit ("  bl " +:+ callee)
      else if bool_decide (count = 1%nat) then
        match args with
        | arg0 :: _ => Emit arg0
        | [] => panic index_out_of_range
        end ;;
        emit ("  bl " +:+ callee)
      else if bool_decide (2 <= count)%nat && bool_decide (count <= 4)%nat then
        emit "  sub sp, sp, #16" ;;
        for_each_argument Emit O args ;;
        emit "  pop {r0, r1, r2, r3}" ;;
        emit ("  bl " +:+ callee)
      else panic "More than 4 arguments are not supported"
  | Return term =>
      Emit term ;; emit "  mov sp, fp" ;; emit "  pop {fp, pc}"
  | Block statements => for_each Emit statements
  | If conditional consequence alternative =>
      NewLabel (fun ifFalseLabel =>
      NewLabel (fun endIfLabel =>
        Emit conditional ;;
        emit "  cmp r0, #0" ;;
        emit ("  beq " +:+ ifFalseLabel) ;;
        Emit consequence ;;
        emit ("  b " +:+ endIfLabel) ;;
        emit (ifFalseLabel +:+ ":") ;;
        Emit alternative ;;
        emit (endIfLabel +:+ ":")))
  | While conditional body =>
      NewLabel (fun loopStart =>
      NewLabel (fun loopEnd =>
        emit (loopStart +:+ ":") ;;
        Emit conditional ;;
        emit "  cmp r0, #0" ;;
        emit ("  beq " +:+ loopEnd) ;;
        Emit body ;;
        emit ("  b " +:+ loopStart) ;;
        emit (loopEnd +:+ ":")))
  | Assign name value =>
      Emit value ;;
      lookup_local name (fun offset =>
        emit ("  str r0, [fp, #" +:+ fmt_d offset +:+ "]"))
  | Var name value =>
      Emit value ;; emit "  push {r0, ip}" ;; declare_local name
  | Function name parameters body =>
      if bool_decide (4 < length parameters)%nat then
        panic "More than 4 params is not supported"
      else
        emit "" ;;
        emit (".global " +:+ name) ;;
        emit (name +:+ ":") ;;
        emitPrologue ;;
        with_environment (setUpEnvironment parameters) (Emit body) ;;
        emitEpilogue
  | Main statements =>
      emit ".global main" ;;
      emit "main:" ;;
      emit "  push {fp, lr}" ;;
      for_each Emit statements ;;
      emit "  mov r0, #0" ;;
      emit "  pop {fp, pc}"
  | Assert condition =>
      Emit condition ;;
      emit "  cmp r0, #1" ;;
      emit "  moveq r0, #'.'" ;;
      emit "  movne r0, #'F'" ;;
      emit "  bl putchar"
  end%E.

(** ** Structural comparison

    Each [Equals] method asserts that [other] holds a _pointer_ to a node
    of its own type (a type assertion to the pointer type); with any
    other dynamic type, the node struct itself included, the assertion
    fails and the method returns [false].  A method called on a [nil]
    interface value panics. *)

Definition and_then (b : outcome bool) (rest : outcome bool) : outcome bool :=
  obind b (fun ok => if ok then rest else Done false).

(** The [range] loop shared by the [Equals] of [Call], [Block] and [Main]:
    it indexes the other slice, whose length was checked to be the same. *)
Section EqualsLoop.
Variable equals : AST -> AST -> outcome bool.

Fixpoint all_equal (l l' : list AST) : outcome bool :=
  match l with
  | [] => Done true
  | item :: rest =>
      match l' with
      | [] => Panic index_out_of_range
      | item' :: rest' => and_then (equals item item') (all_equal rest rest')
      end
  end.
End EqualsLoop.

Fixpoint Equals (a other : AST) {struct a} : outcome bool :=
  match a with
  | ASTnil => Panic nil_dereference
  | Ptr node => Equals node other
  | Number value =>
      match other with
      | Ptr (Number value') => Done (bool_decide (value = value'))
      | _ => Done false
      end
  | Id value =>
      match other with
      | Ptr (Id value') => Done (bool_decide (value = value'))
      | _ => Done false
      end
  | Not term =>
      match other with
      | Ptr (Not term') => Equals term term'
      | _ => Done false
      end
  | Equal l r =>
      match other with
      | Ptr (Equal l' r') => and_then (Equals l l') (Equals r r')
      | _ => Done false
      end
  | NotEqual l r =>
      match other with
      | Ptr (NotEqual l' r') => and_then (Equals l l') (Equals r r')
      | _ => Done false
      end
  | Add l r =>
      match other with
      | Ptr (Add l' r') => and_then (Equals l l') (Equals r r')
      | _ => Done false
      end
  | Subtract l r =>
      match other with
      | Ptr (Subtract l' r') => and_then (Equals l l') (Equals r r')
      | _ => Done false
      end
  | Multiply l r =>
      match other with
      | Ptr (Multiply l' r') => and_then (Equals l l') (Equals r r')
      | _ => Done false
      end
  | Divide l r =>
      match other with
      | Ptr (Divide l' r') => and_then (Equals l l') (Equals r r')
      | _ => Done false
      end
  | Call callee args =>
      match other with
      | Ptr (Call callee' args') =>
          if bool_decide (callee <> callee')
             || bool_decide (length args <> length args')
          then Done false
          else
            all_equal Equals args args'
      | _ => Done false
      end
  | Return term =>
      match other with
      | Ptr (Return term') => Equals term term'
      | _ => Done false
      end
  | Block statements =>
      match other with
      | Ptr (Block statements') =>
          if bool_decide (length statements <> length statements')
          then Done false
          else
            all_equal Equals statements statements'
      | _ => Done false
      end
  | If conditional consequence alternative =>
      match other with
      | Ptr (If conditional' consequence' alternative') =>
          and_then (Equals conditional conditional')
            (and_then (Equals consequence consequence')
               (Equals alternative alternative'))
      | _ => Done false
      end
  | While conditional body =>
      match other with
      | Ptr (While conditional' body') =>
          and_then (Equals conditional conditional') (Equals body body')
      | _ => Done false
      end
  | Assign name value =>
      match other with
      | Ptr (Assign name' value') =>
          if bool_decide (name = name') then Equals value value' else Done false
      | _ => Done false
      end
  | Var name value =>
      match other with
      | Ptr (Var name' value') =>
          if bool_decide (name = name') then Equals value value' else Done false
      | _ => Done false
      end
  | Function name parameters body =>
      match other with
      | Ptr (Function name' parameters' body') =>
          if bool_decide (name <> name')
             || bool_decide (length parameters <> length parameters')
          then Done false
          else if bool_decide (parameters = parameters') then Equals body body'
          else Done false
      | _ => Done false
      end
  | Main statements =>
      match other with
      | Ptr (Main statements') =>
          if bool_decide (length statements <> length statements')
          then Done false
          else
            all_equal Equals statements statements'
      | _ => Done false
      end
  | Assert condition =>
      match other with
      | Ptr (Assert condition') => Equals condition condition'
      | _ => Done false
      end
  end.

(** ** The grammar

    [fuel] bounds the iterations of every [Many] loop of the grammar. *)

(** [strconv.Atoi] on a string of decimal digits; the error is dropped by
    the caller, and a value out of range comes back as the largest
    [int]. *)
Definition digit_value (c : ascii) : Z := Z.of_nat (nat_of_ascii c) - 48.

Fixpoint decimal (acc : Z) (s : string) : Z :=
  match s with
  | EmptyString => acc
  | String c s' => decimal (10 * acc + digit_value c) s'
  end.

Definition Atoi (digits : string) : Z := Z.min (decimal 0 digits) int_max.

Section Grammar.
Variable fuel : nat.

Definition whitespace : Parser string := Regexp "[ \n\r\t]+".
Definition comments : Parser string :=
  Or [Regexp "//.*"; Regexp "(?s)/\*.*?\*/"].
Definition ignored : Parser (list string) :=
  Many fuel (Or [whitespace; comments]).

Definition token (pattern : string) : Parser string :=
  Bind (Regexp pattern) (fun value => And ignored (Constant value)).

Definition FUNCTION := token "function\b".
Definition IF := token "if\b".
Definition WHILE := token "while\b".
Definition ELSE := token "else\b".
Definition RETURN := token "return\b".
Definition VAR := token "var\b".

Definition COMMA := token ",".
Definition SEMICOLON := token ";".
Definition LEFT_PAREN := token "\(".
Definition RIGHT_PAREN := token "\)".
Definition LEFT_BRACE := token "\{".
Definition RIGHT_BRACE := token "\}".

Definition NUMBER : Parser AST :=
  Map (token "[0-9]+") (fun digits => Number (Atoi digits)).

Definition ID := token "[a-zA-Z_][a-zA-Z0-9_]*".

Definition idParser : Parser AST := Map ID (fun x => Id x).

(** Operators.  [NOT] yields the marker [Not{}], whose term is [nil]. *)
Definition NOT : Parser AST := Map (token "!") (fun _ => Not ASTnil).
Definition EQUAL : Parser (AST -> AST -> AST) :=
  Map (token "==") (fun _ => fun l r => Equal l r).
Definition NOT_EQUAL : Parser (AST -> AST -> AST) :=
  Map (token "!=") (fun _ => fun l r => NotEqual l r).
Definition PLUS : Parser (AST -> AST -> AST) :=
  Map (token "\+") (fun _ => fun l r => Add l r).
Definition MINUS : Parser (AST -> AST -> AST) :=
  Map (token "-") (fun _ => fun l r => Subtract l r).
Definition STAR : Parser (AST -> AST -> AST) :=
  Map (token "\*") (fun _ => fun l r => Multiply l r).
Definition SLASH : Parser (AST -> AST -> AST) :=
  Map (token "/") (fun _ => fun l r => Divide l r).
Definition ASSIGN_OP : Parser (string -> AST -> AST) :=
  Map (token "=") (fun _ => fun name value => Assign name value).

(** The [for] loop of [infix] over the collected operators. *)
Definition apply_ops (left : AST) (ops : list (AST -> AST)) : AST :=
  fold_left (fun result op => op result) ops left.

Definition infix (operatOr : Parser (AST -> AST -> AST))
    (termParser : Parser AST) : Parser AST :=
  Bind termParser (fun left =>
    Bind (Many fuel
            (Bind operatOr (fun op =>
               Bind termParser (fun right =>
                 Constant (fun current => op current right)))))
      (fun ops => Constant (apply_ops left ops))).

(** The callback of [call] once callee and arguments are read;
    [args[0]] on an empty slice panics. *)
Definition call_node (callee : string) (args : list AST) : Parser AST :=
  if bool_decide (callee = "__assert") then
    match args with
    | arg0 :: _ => And RIGHT_PAREN (Constant (Assert arg0))
    | [] => Error index_out_of_range
    end
  else And RIGHT_PAREN (Constant (Call callee args)).

(** [expression] is the package variable the function reads. *)
Definition getComparisonParser (expression : Parser AST) : Parser AST :=
  (* args <- (expression (COMMA expression)* )? *)
  let args :=
    Or [Bind expression (fun arg =>
          Bind (Many fuel (And COMMA expression)) (fun args =>
            Constant (arg :: args)));
        Constant []] in
  (* call <- ID LEFT_PAREN args RIGHT_PAREN *)
  let call :=
    Bind ID (fun callee =>
      And LEFT_PAREN (Bind args (fun args => call_node callee args))) in
  (* atom <- call / ID / NUMBER / LEFT_PAREN expression RIGHT_PAREN *)
  let atom :=
    Or [call; idParser; NUMBER;
        Bind (And LEFT_PAREN expression) (fun e =>
          And RIGHT_PAREN (Constant e))] in
  (* unary <- NOT? atom *)
  let unary :=
    Bind (Maybe NOT) (fun not =>
      Map atom (fun term =>
        match not with
        | Some _ => Not term
        | None => term
        end)) in
  (* product <- unary ((STAR / SLASH) unary)* ; *)
  let product := infix (Or [STAR; SLASH]) unary in
  (* sum <- product ((PLUS / MINUS) product)* ; *)
  let sum := infix (Or [PLUS; MINUS]) product in
  (* comparison <- sum ((EQUAL / NOT_EQUAL) sum)* ; *)
  infix (Or [EQUAL; NOT_EQUAL]) sum.

(* parameters <- (ID (COMMA ID)* )? *)
Definition parameters : Parser (list string) :=
  Or [Bind ID (fun param =>
        Bind (Many fuel (And COMMA ID)) (fun params =>
          Constant (param :: params)));
      Constant []].

(** The innermost callback of [functionStatement]: the node built from
    the name, the parameters and the parsed block. *)
Definition function_node (name : string) (parameters : list string)
    (block : AST) : AST :=
  let function := Function name parameters block in
  if bool_decide (name = "__main") then
    match block with
    | Block statements => Main statements
    | _ => function
    end
  else function.

Definition getStatementParser (expression statement : Parser AST) : Parser AST :=
  (* returnStatement <- RETURN expression SEMICOLON *)
  let returnStatement :=
    Bind (And RETURN expression) (fun term =>
      And SEMICOLON (Constant (Return term))) in
  (* expressionStatement <- expression SEMICOLON *)
  let expressionStatement :=
    Bind expression (fun term => And SEMICOLON (Constant term)) in
  (* ifStatement <- IF LEFT_PAREN expression RIGHT_PAREN statement ELSE statement *)
  let ifStatement :=
    Bind (And (And IF LEFT_PAREN) expression) (fun conditional =>
      Bind (And RIGHT_PAREN statement) (fun consequence =>
        Bind (And ELSE statement) (fun alternative =>
          Constant (If conditional consequence alternative)))) in
  (* whileStatement <- WHILE LEFT_PAREN expression RIGHT_PAREN statement *)
  let whileStatement :=
    Bind (And (And WHILE LEFT_PAREN) expression) (fun conditional =>
      Bind (And RIGHT_PAREN statement) (fun body =>
        Constant (While conditional body))) in
  (* varStatement <- VAR ID ASSIGN expression SEMICOLON *)
  let varStatement :=
    Bind (And VAR ID) (fun name =>
      Bind (And ASSIGN_OP expression) (fun value =>
        And SEMICOLON (Constant (Var name value)))) in
  (* assignmentStatement <- ID ASSIGN expression SEMICOLON *)
  let assignmentStatement :=
    Bind ID (fun name =>
      Bind (And ASSIGN_OP expression) (fun value =>
        And SEMICOLON (Constant (Assign name value)))) in
  (* blockStatement <- LEFT_BRACE statement* RIGHT_BRACE *)
  let blockStatement :=
    Bind (And LEFT_BRACE (Many fuel statement)) (fun statements =>
      And RIGHT_BRACE (Constant (Block statements))) in
  (* functionStatement <- FUNCTION ID LEFT_PAREN parameters RIGHT_PAREN blockStatement *)
  let functionStatement :=
    Bind (And FUNCTION ID) (fun name =>
      Bind (And LEFT_PAREN parameters) (fun parameters =>
        Bind (And RIGHT_PAREN blockStatement) (fun block =>
          Constant (function_node name parameters block)))) in
  Or [returnStatement; functionStatement; ifStatement; whileStatement;
      varStatement; assignmentStatement; blockStatement;
      expressionStatement].
End Grammar.

(** The package variables [expression] and [statement] are set by [init]
    to closures that build the grammar afresh on every call; the argument
    bounds both the depth of that recursion and the [Many] loops below
    it. *)
Fixpoint expression (fuel : nat) : Parser AST :=
  parserOf (fun src =>
    match fuel with
    | O => Diverge
    | S fuel' => invoke (getComparisonParser fuel' (expression fuel')) src
    end).

Fixpoint statement (fuel : nat) : Parser AST :=
  parserOf (fun src =>
    match fuel with
    | O => Diverge
    | S fuel' =>
        invoke (getStatementParser fuel' (expression fuel') (statement fuel')) src
    end).

Definition parser (fuel : nat) : Parser AST :=
  Map (And (ignored fuel) (Many fuel (statement fuel)))
    (fun statements => Block statements).

(** ** The driver

    [main] parses its source text to completion and emits the result
    against a fresh environment.  (Its progress messages, which go to the
    same standard output, are left out of [output].) *)

Definition initial_state : state := mkState NewEnvironment 0 [].

Definition compile (fuel : nat) (source_text : string) : outcome unit * state :=
  match ParseStringToCompletion (parser fuel) source_text with
  | Done result => Emit result initial_state
  | Panic msg => (Panic msg, initial_state)
  | Diverge => (Diverge, initial_state)
  end.

(** ** What the emitted lines do

    To say what a sequence of emitted lines computes one needs the
    meaning of the instructions.  [ARM] gives it, after the A32
    instruction set, for the straight-line instructions the expression
    nodes and [Assert] emit: registers hold 32-bit words, [push {r0, ip}]
    stores [r0] below [ip] on a descending stack, [pop {r1, ip}] reloads
    in the same order, [cmp] sets the equality flag that [moveq] and
    [movne] test, and [putchar] is the host routine that writes the byte
    in [r0] and returns it.  What a call does to the other caller-saved
    registers and to the flags is left open by the calling convention; no
    statement below reads them after a call.  Lines outside this set have
    no meaning here ([decode] is [None]). *)

Module ARM.

Definition word (z : Z) : Z := z mod 2 ^ 32.

Record machine : Type := mkMachine {
  r0 : Z; r1 : Z; ip : Z;
  flag_eq : bool;
  stack : list Z;            (* the word at [sp] first *)
  printed : list Z           (* bytes handed to [putchar], oldest first *)
}.

Inductive instr : Type :=
| ldr_r0 (n : Z)
| push_r0_ip
| pop_r1_ip
| add_r0_r1_r0
| sub_r0_r1_r0
| mul_r0_r1_r0
| udiv_r0_r1_r0
| cmp_r0_r1
| cmp_r0_imm (k : Z)
| moveq_r0 (k : Z)
| movne_r0 (k : Z)
| bl_putchar.

Definition fixed_lines : list (string * instr) :=
  [("  push {r0, ip}", push_r0_ip);
   ("  pop {r1, ip}", pop_r1_ip);
   ("  add r0, r1, r0", add_r0_r1_r0);
   ("  sub r0, r1, r0", sub_r0_r1_r0);
   ("  mul r0, r1, r0", mul_r0_r1_r0);
   ("  udiv r0, r1, r0", udiv_r0_r1_r0);
   ("  cmp r0, r1", cmp_r0_r1);
   ("  cmp r0, #0", cmp_r0_imm 0);
   ("  cmp r0, #1", cmp_r0_imm 1);
   ("  moveq r0, #1", moveq_r0 1);
   ("  movne r0, #0", movne_r0 0);
   ("  movne r0, #1", movne_r0 1);
   ("  moveq r0, #0", moveq_r0 0);
   ("  moveq r0, #'.'", moveq_r0 46);
   ("  movne r0, #'F'", movne_r0 70);
   ("  bl putchar", bl_putchar)].

Fixpoint assoc (line : string) (table : list (string * instr)) : option instr :=
  match table with
  | [] => None
  | (l, i) :: rest => if String.eqb l line then Some i else assoc line rest
  end.

Definition ldr_prefix : string := "  ldr r0, =".

Definition decode (line : string) : option instr :=
  match assoc line fixed_lines with
  | Some i => Some i
  | None =>
      if String.prefix ldr_prefix line then
        option_map (fun d => ldr_r0 (Z.of_int d))
          (NilZero.int_of_string (string_drop (String.length ldr_prefix) line))
      else None
  end.

Definition set_r0 (v : Z) (m : machine) : machine :=
  mkMachine v (r1 m) (ip m) (flag_eq m) (stack m) (printed m).

Definition set_flag (b : bool) (m : machine) : machine :=
  mkMachine (r0 m) (r1 m) (ip m) b (stack m) (printed m).

Definition step (i : instr) (m : machine) : option machine :=
  match i with
  | ldr_r0 n => Some (set_r0 (word n) m)
  | push_r0_ip =>
      Some (mkMachine (r0 m) (r1 m) (ip m) (flag_eq m)
              (r0 m :: ip m :: stack m) (printed m))
  | pop_r1_ip =>
      match stack m with
      | a :: b :: rest =>
          Some (mkMachine (r0 m) a b (flag_eq m) rest (printed m))
      | _ => None
      end
  | add_r0_r1_r0 => Some (set_r0 (word (r1 m + r0 m)) m)
  | sub_r0_r1_r0 => Some (set_r0 (word (r1 m - r0 m)) m)
  | mul_r0_r1_r0 => Some (set_r0 (word (r1 m * r0 m)) m)
  | udiv_r0_r1_r0 =>
      Some (set_r0 (if r0 m =? 0 then 0 else r1 m / r0 m) m)
  | cmp_r0_r1 => Some (set_flag (r0 m =? r1 m) m)
  | cmp_r0_imm k => Some (set_flag (r0 m =? k) m)
  | moveq_r0 k => Some (if flag_eq m then set_r0 k m else m)
  | movne_r0 k => Some (if flag_eq m then m else set_r0 k m)
  | bl_putchar =>
      let byte := r0 m mod 256 in
      Some (mkMachine byte (r1 m) (ip m) (flag_eq m) (stack m)
              (printed m ++ [byte]))
  end.

Fixpoint run (lines : list string) (m : machine) : option machine :=
  match lines with
  | [] => Some m
  | line :: rest =>
      match decode line with
      | Some i =>
          match step i m with
          | Some m' => run rest m'
          | None => None
          end
      | None => None
      end
  end.

End ARM.

(** * The vocabulary of the statements *)

(** ** Cursor invariants

    A cursor is within bounds when [0 <= index <= len(str)].  A parse
    function [advances] when every success it reports, started within
    bounds, is a cursor over the same text at an index that did not move
    back and is still within bounds.  A failure is [Done None]: it carries
    neither value nor cursor. *)

Definition in_bounds (s : Source) : Prop :=
  0 <= index s <= Z.of_nat (String.length (str s)).

Definition advances {T} (f : Source -> parsed T) : Prop :=
  forall (src : Source) (r : ParseResult T),
    in_bounds src ->
    f src = Done (Some r) ->
    str (source r) = str src
    /\ index src <= index (source r) <= Z.of_nat (String.length (str src)).

Definition monotone {T} (p : Parser T) : Prop :=
  forall f, Parse p = Some f -> advances f.

(** A continuation of the matcher never reports more bytes than the
    text holds. *)
Definition bounded (k : RE2.continuation) : Prop :=
  forall prev s n, k prev s = Some n -> (n <= String.length s)%nat.

(** ** Raising the step bound

    A run that ends within the bound ends the same way within any larger
    bound: raising the bound can only turn [Diverge] into a result. *)

Definition settles {A} (r1 r2 : outcome A) : Prop := r1 = Diverge \/ r1 = r2.

Definition settles_parse {T} (f g : Source -> parsed T) : Prop :=
  forall src, settles (f src) (g src).

Definition below {T} (p q : Parser T) : Prop :=
  match Parse p, Parse q with
  | Some f, Some g => settles_parse f g
  | None, None => True
  | _, _ => False
  end.

(** ** Iterating a parser

    [repeats parse src vs src'] : applying [parse] again and again from
    [src] succeeds with the values [vs], in order, and then fails at
    [src']. *)

Inductive repeats {T} (parse : Source -> parsed T) :
    Source -> list T -> Source -> Prop :=
| repeats_stop src :
    parse src = Done None -> repeats parse src [] src
| repeats_step src r vs src' :
    parse src = Done (Some r) ->
    repeats parse (source r) vs src' ->
    repeats parse src (value r :: vs) src'.

(** [parse] returns at every cursor over the text of [src] and each
    success moves the cursor strictly forward, within the text. *)
Definition consumes {T} (parse : Source -> parsed T) (text : string) : Prop :=
  forall s, str s = text -> in_bounds s ->
    parse s = Done None
    \/ exists r, parse s = Done (Some r)
         /\ str (source r) = text
         /\ index s < index (source r) <= Z.of_nat (String.length text).

Definition remaining_bytes (s : Source) : nat :=
  Z.to_nat (Z.of_nat (String.length (str s)) - index s).

(** ** Emitters and standard output

    What an emitter does never depends on the lines already written: run
    from an empty output it takes the same decisions, and its lines come
    after those already there. *)

Definition restart (st : state) : state :=
  mkState (env st) (labelCounter st) [].

Definition after (st : state) (res : outcome unit * state) : outcome unit * state :=
  (fst res,
   mkState (env (snd res)) (labelCounter (snd res))
     (output st ++ output (snd res))).

Definition write_only (e : emitter) : Prop :=
  forall st, e st = after st (e (restart st)).

(** The state after [lines] have been written. *)
Definition appended (st : state) (lines : list string) : state :=
  mkState (env st) (labelCounter st) (output st ++ lines).

(** The lines a node emits when emission starts in [st]. *)
Definition code (a : AST) (st : state) : list string :=
  output (snd (Emit a (restart st))).

(** ** Nodes and the environment

    Only [Var] writes to the environment it is given, and [Function]
    emits its body against an environment of its own. *)

Fixpoint var_free (a : AST) : bool :=
  match a with
  | Var _ _ => false
  | Function _ _ _ => true
  | ASTnil | Number _ | Id _ => true
  | Not term | Return term | Assert term | Ptr term => var_free term
  | Assign _ value => var_free value
  | Equal l r | NotEqual l r | Add l r | Subtract l r | Multiply l r
  | Divide l r | While l r => var_free l && var_free r
  | If c t e => var_free c && var_free t && var_free e
  | Call _ l | Block l | Main l => forallb var_free l
  end.

Definition keeps_environment (e : emitter) : Prop :=
  forall st, env (snd (e st)) = env st.

(** The six binary nodes with the instructions that follow the operand
    pattern. *)
Definition binary_nodes : list ((AST -> AST -> AST) * list string) :=
  [(Equal, ["  cmp r0, r1"; "  moveq r0, #1"; "  movne r0, #0"]);
   (NotEqual, ["  cmp r0, r1"; "  movne r0, #1"; "  moveq r0, #0"]);
   (Add, ["  add r0, r1, r0"]);
   (Subtract, ["  sub r0, r1, r0"]);
   (Multiply, ["  mul r0, r1, r0"]);
   (Divide, ["  udiv r0, r1, r0"])].

(** The value of an expression built from literals and operators, as a
    32-bit word; [None] for any other tree. *)
Fixpoint eval (a : AST) : option Z :=
  match a with
  | Number value => Some (ARM.word value)
  | Not term =>
      match eval term with
      | Some v => Some (if v =? 0 then 1 else 0)
      | None => None
      end
  | Equal l r =>
      match eval l, eval r with
      | Some x, Some y => Some (if y =? x then 1 else 0)
      | _, _ => None
      end
  | NotEqual l r =>
      match eval l, eval r with
      | Some x, Some y => Some (if y =? x then 0 else 1)
      | _, _ => None
      end
  | Add l r =>
      match eval l, eval r with
      | Some x, Some y => Some (ARM.word (x + y))
      | _, _ => None
      end
  | Subtract l r =>
      match eval l, eval r with
      | Some x, Some y => Some (ARM.word (x - y))
      | _, _ => None
      end
  | Multiply l r =>
      match eval l, eval r with
      | Some x, Some y => Some (ARM.word (x * y))
      | _, _ => None
      end
  | Divide l r =>
      match eval l, eval r with
      | Some x, Some y => Some (if y =? 0 then 0 else x / y)
      | _, _ => None
      end
  | _ => None
  end.

(** The code of [a] runs from every machine state, leaves [v] in [r0] and
    restores the stack, [ip] and what was printed. *)
Definition computes (a : AST) (v : Z) : Prop :=
  forall st, exists st',
    Emit a st = (Done tt, st')
    /\ forall m, exists m',
         ARM.run (code a st) m = Some m'
         /\ ARM.r0 m' = v
         /\ ARM.stack m' = ARM.stack m
         /\ ARM.ip m' = ARM.ip m
         /\ ARM.printed m' = ARM.printed m.

(** Samples for the instances below. *)
Definition ten_minus_three : AST := Subtract (Number 10) (Number 3).

Definition idle : ARM.machine := ARM.mkMachine 0 0 0 false [] [].

Definition sample_function : AST :=
  Function "f" ["n"] (Block ([] ++ [Var "result" (Number 1); Id "result"])).

(** Whether an interface value holds a pointer to a node. *)
Definition is_pointer (a : AST) : bool :=
  match a with Ptr _ => true | _ => false end.

(** The same tree with every node held through a pointer. *)
Fixpoint boxed (a : AST) : AST :=
  match a with
  | ASTnil => ASTnil
  | Ptr node => boxed node
  | Number value => Ptr (Number value)
  | Id value => Ptr (Id value)
  | Not term => Ptr (Not (boxed term))
  | Equal l r => Ptr (Equal (boxed l) (boxed r))
  | NotEqual l r => Ptr (NotEqual (boxed l) (boxed r))
  | Add l r => Ptr (Add (boxed l) (boxed r))
  | Subtract l r => Ptr (Subtract (boxed l) (boxed r))
  | Multiply l r => Ptr (Multiply (boxed l) (boxed r))
  | Divide l r => Ptr (Divide (boxed l) (boxed r))
  | Call callee args => Ptr (Call callee (map boxed args))
  | Return term => Ptr (Return (boxed term))
  | Block statements => Ptr (Block (map boxed statements))
  | If c t e => Ptr (If (boxed c) (boxed t) (boxed e))
  | While c b => Ptr (While (boxed c) (boxed b))
  | Assign name value => Ptr (Assign name (boxed value))
  | Var name value => Ptr (Var name (boxed value))
  | Function name parameters body => Ptr (Function name parameters (boxed body))
  | Main statements => Ptr (Main (map boxed statements))
  | Assert condition => Ptr (Assert (boxed condition))
  end.

(** Trees of node structs only: no [nil], no pointer. *)
Fixpoint plain (a : AST) : bool :=
  match a with
  | ASTnil | Ptr _ => false
  | Number _ | Id _ => true
  | Not term | Return term | Assert term | Assign _ term | Var _ term
  | Function _ _ term => plain term
  | Equal l r | NotEqual l r | Add l r | Subtract l r | Multiply l r
  | Divide l r | While l r => plain l && plain r
  | If c t e => plain c && plain t && plain e
  | Call _ l | Block l | Main l => forallb plain l
  end.

(** [Equals a other] answers [t], and [t] says whether [a] is [b]. *)
Definition decides (r : outcome bool) (a b : AST) : Prop :=
  exists t : bool, r = Done t /\ (t = true <-> a = b).

Definition decides_lists (r : outcome bool) (l l' : list AST) : Prop :=
  exists t : bool, r = Done t /\ (t = true <-> l = l').

(** ** Induction on trees, lists of children included *)

Section AST_induction.
Variable P : AST -> Prop.
Hypothesis Pnil : P ASTnil.
Hypothesis PNumber : forall value, P (Number value).
Hypothesis PId : forall value, P (Id value).
Hypothesis PNot : forall term, P term -> P (Not term).
Hypothesis PEqual : forall l r, P l -> P r -> P (Equal l r).
Hypothesis PNotEqual : forall l r, P l -> P r -> P (NotEqual l r).
Hypothesis PAdd : forall l r, P l -> P r -> P (Add l r).
Hypothesis PSubtract : forall l r, P l -> P r -> P (Subtract l r).
Hypothesis PMultiply : forall l r, P l -> P r -> P (Multiply l r).
Hypothesis PDivide : forall l r, P l -> P r -> P (Divide l r).
Hypothesis PCall : forall callee args, Forall P args -> P (Call callee args).
Hypothesis PReturn : forall term, P term -> P (Return term).
Hypothesis PBlock : forall statements, Forall P statements -> P (Block statements).
Hypothesis PIf : forall c t e, P c -> P t -> P e -> P (If c t e).
Hypothesis PWhile : forall c b, P c -> P b -> P (While c b).
Hypothesis PAssign : forall name value, P value -> P (Assign name value).
Hypothesis PVar : forall name value, P value -> P (Var name value).
Hypothesis PFunction : forall name parameters body,
    P body -> P (Function name parameters body).
Hypothesis PMain : forall statements, Forall P statements -> P (Main statements).
Hypothesis PAssert : forall condition, P condition -> P (Assert condition).
Hypothesis PPtr : forall node, P node -> P (Ptr node).

Fixpoint AST_nested_ind (a : AST) : P a :=
  let children :=
    fix children (l : list AST) : Forall P l :=
      match l with
      | [] => @List.Forall_nil AST P
      | x :: rest => @List.Forall_cons AST P x rest (AST_nested_ind x) (children rest)
      end in
  match a with
  | ASTnil => Pnil
  | Number value => PNumber value
  | Id value => PId value
  | Not term => PNot term (AST_nested_ind term)
  | Equal l r => PEqual l r (AST_nested_ind l) (AST_nested_ind r)
  | NotEqual l r => PNotEqual l r (AST_nested_ind l) (AST_nested_ind r)
  | Add l r => PAdd l r (AST_nested_ind l) (AST_nested_ind r)
  | Subtract l r => PSubtract l r (AST_nested_ind l) (AST_nested_ind r)
  | Multiply l r => PMultiply l r (AST_nested_ind l) (AST_nested_ind r)
  | Divide l r => PDivide l r (AST_nested_ind l) (AST_nested_ind r)
  | Call callee args => PCall callee args (children args)
  | Return term => PReturn term (AST_nested_ind term)
  | Block statements => PBlock statements (children statements)
  | If c t e => PIf c t e (AST_nested_ind c) (AST_nested_ind t) (AST_nested_ind e)
  | While c b => PWhile c b (AST_nested_ind c) (AST_nested_ind b)
  | Assign name value => PAssign name value (AST_nested_ind value)
  | Var name value => PVar name value (AST_nested_ind value)
  | Function name parameters body =>
      PFunction name parameters body (AST_nested_ind body)
  | Main statements => PMain statements (children statements)
  | Assert condition => PAssert condition (AST_nested_ind condition)
  | Ptr node => PPtr node (AST_nested_ind node)
  end.
End AST_induction.

(** ** Counting what a tree draws on

    [labels a] is the number of labels the emission of [a] draws: two for
    each [If] and each [While].  [declarations a] is the number of [Var]
    nodes of [a] outside the bodies of its functions, each of which takes
    a slot of the environment the tree is emitted against. *)

Fixpoint labels (a : AST) : nat :=
  match a with
  | ASTnil | Number _ | Id _ => 0
  | Not term | Return term | Assert term | Ptr term | Assign _ term
  | Var _ term | Function _ _ term => labels term
  | Equal l r | NotEqual l r | Add l r | Subtract l r | Multiply l r
  | Divide l r => labels l + labels r
  | While c b => S (S (labels c + labels b))
  | If c t e => S (S (labels c + labels t + labels e))
  | Call _ l | Block l | Main l => list_sum (map labels l)
  end.

Fixpoint declarations (a : AST) : nat :=
  match a with
  | ASTnil | Number _ | Id _ | Function _ _ _ => 0
  | Var _ value => S (declarations value)
  | Not term | Return term | Assert term | Ptr term | Assign _ term =>
      declarations term
  | Equal l r | NotEqual l r | Add l r | Subtract l r | Multiply l r
  | Divide l r | While l r => declarations l + declarations r
  | If c t e => declarations c + declarations t + declarations e
  | Call _ l | Block l | Main l => list_sum (map declarations l)
  end.

(** [labelCounter++]. *)
Definition next_label (c : Z) : Z := wrap (c + 1).

(** [env.nextLocalOffset -= 8]. *)
Definition next_slot (o : Z) : Z := wrap (o - 8).

(** An emitter that returns has drawn [n] labels. *)
Definition draws (n : nat) (e : emitter) : Prop :=
  forall st st', e st = (Done tt, st') ->
    labelCounter st' = Nat.iter n next_label (labelCounter st).

(** An emitter that returns has taken [n] slots of its environment. *)
Definition takes (n : nat) (e : emitter) : Prop :=
  forall st st', e st = (Done tt, st') ->
    nextLocalOffset (env st') = Nat.iter n next_slot (nextLocalOffset (env st)).

(** An emitter never unbinds a name, however it ends. *)
Definition keeps_bindings (e : emitter) : Prop :=
  forall st x, is_Some (locals (env st) !! x) ->
    is_Some (locals (env (snd (e st))) !! x).

(** The lines [Function.Emit] writes before and after the body. *)
Definition frame_header (name : string) : list string :=
  [EmptyString; ".global " +:+ name; name +:+ ":";
   "  push {fp, lr}"; "  mov fp, sp"; "  push {r0, r1, r2, r3}"].

Definition frame_footer : list string :=
  ["  mov sp, fp"; "  mov r0, #0"; "  pop {fp, pc}"].

(** The lines of the argument loop of [Call.Emit] when every argument is
    emitted from the state [st]. *)
Definition argument_stores (args : list AST) (st : state) : list string :=
  mjoin (imap (fun i arg =>
                 code arg st
                 ++ ["  str r0, [sp, #" +:+ fmt_d (4 * Z.of_nat i) +:+ "]"])%list
           args).

(** A tree that declares nothing and draws no label. *)
Definition quiet (a : AST) : bool := var_free a && (labels a =? 0)%nat.

(** ** Panics of the parsers

    [tame msg p] : [p] has a [Parse] function, keeps the cursor invariants
    and, from a cursor within bounds, panics with [msg] or not at all. *)

Definition panics_only {T} (msg : string) (p : Parser T) : Prop :=
  forall f, Parse p = Some f ->
    forall src m, in_bounds src -> f src = Panic m -> m = msg.

Definition tame {T} (msg : string) (p : Parser T) : Prop :=
  Parse p <> None /\ monotone p /\ panics_only msg p.

(** A compiled pattern that starts with a byte to read: one atom, or an
    atom repeated once or more. *)
Definition leading (re : list RE2.item) : bool :=
  match re with
  | RE2.One _ :: _ | RE2.Plus _ :: _ => true
  | _ => false
  end.

(** What [ignored] repeats. *)
Definition ignorable : Parser string := Or [whitespace; comments].

(** The keywords with their tokens. *)
Definition keyword_tokens (fuel : nat) : list (string * Parser string) :=
  [("function", FUNCTION fuel); ("if", IF fuel); ("while", WHILE fuel);
   ("else", ELSE fuel); ("return", RETURN fuel); ("var", VAR fuel)].

(** The compiled form of a pattern that is a run of plain bytes. *)
Definition literal (k : string) : list RE2.item :=
  map (fun c => RE2.One (RE2.AChar c)) (list_ascii_of_string k).

(** The byte before the cursor once [k] has been read. *)
Definition last_byte (prev : option ascii) (k : string) : option ascii :=
  fold_left (fun _ c => Some c) (list_ascii_of_string k) prev.

(** A text of decimal digits. *)
Definition is_digit (c : ascii) : bool :=
  RE2.atom_matches (RE2.AClass [("0"%char, "9"%char)]) c.

Fixpoint all_digits (s : string) : bool :=
  match s with
  | EmptyString => true
  | String c s' => is_digit c && all_digits s'
  end.

(** ** What the parsers yield, and how emission can fail

    [yields P p] : every value [p] returns satisfies [P]. *)

Definition yields {T} (P : T -> Prop) (p : Parser T) : Prop :=
  forall f, Parse p = Some f ->
    forall src r, f src = Done (Some r) -> P (value r).

Definition is_plain (a : AST) : Prop := plain a = true.

(** Functions that build plain trees from plain trees. *)
Definition plain_builder (f : AST -> AST) : Prop :=
  forall a, is_plain a -> is_plain (f a).

Definition plain_operator (op : AST -> AST -> AST) : Prop :=
  forall a b, is_plain a -> is_plain b -> is_plain (op a b).

(** The panics of the [Emit] methods themselves. *)
Definition emit_panic (msg : string) : Prop :=
  msg = "More than 4 arguments are not supported"
  \/ msg = "More than 4 params is not supported"
  \/ exists name, msg = "Undefined variable: " +:+ name.

Definition panics_within (e : emitter) : Prop :=
  forall st st' msg, e st = (Panic msg, st') -> emit_panic msg.

(** ** Where a binding comes from

    [declares x a] : a [Var] of the name [x] occurs in [a] outside the
    bodies of its functions, so that emitting [a] binds [x] in the
    environment [a] is emitted against. *)

Fixpoint declares (x : string) (a : AST) : bool :=
  match a with
  | ASTnil | Number _ | Id _ | Function _ _ _ => false
  | Var name value => String.eqb name x || declares x value
  | Not term | Return term | Assert term | Ptr term | Assign _ term =>
      declares x term
  | Equal l r | NotEqual l r | Add l r | Subtract l r | Multiply l r
  | Divide l r | While l r => declares x l || declares x r
  | If c t e => declares x c || declares x t || declares x e
  | Call _ l | Block l | Main l => existsb (declares x) l
  end.

(** After [e] the name [x] is bound only if it was bound before or [d]
    holds. *)
Definition binds_only (x : string) (d : bool) (e : emitter) : Prop :=
  forall st,
    is_Some (locals (env (snd (e st))) !! x) ->
    is_Some (locals (env st) !! x) \/ d = true.

(** The lines [Main.Emit] writes before and after the statements. *)
Definition main_header : list string :=
  [".global main"; "main:"; "  push {fp, lr}"].

Definition main_footer : emitter :=
  seq (emit "  mov r0, #0") (emit "  pop {fp, pc}").

(** ** Levels of binary operators

    [reads p src v src'] : [p] succeeds at [src] with the value [v] and
    the cursor [src']. *)
Definition reads {T} (p : Parser T) (src : Source) (v : T) (src' : Source) : Prop :=
  invoke p src = Done (Some (mkResult v src')).

(** The parser that [infix] hands to [Many]: an operator, then its right
    operand. *)
Definition pair (operator : Parser (AST -> AST -> AST)) (operand : Parser AST) :
    Parser (AST -> AST) :=
  Bind operator (fun op =>
    Bind operand (fun right =>
      Constant (fun current => op current right))).

(** No operator followed by an operand can be read at [src]. *)
Definition no_pair (operator : Parser (AST -> AST -> AST)) (operand : Parser AST)
    (src : Source) : Prop :=
  invoke operator src = Done None
  \/ exists op mid, reads operator src op mid /\ invoke operand mid = Done None.

(** [folds_left operator operand n tree src result src'] : from [src],
    with [tree] read so far, exactly [n] operators with their right
    operands are read, each combined with what is to its left as soon as
    it is read, giving [result] at [src'], where no further pair can be
    read. *)
Inductive folds_left (operator : Parser (AST -> AST -> AST)) (operand : Parser AST) :
    nat -> AST -> Source -> AST -> Source -> Prop :=
| folds_done tree src :
    no_pair operator operand src ->
    folds_left operator operand O tree src tree src
| folds_more n tree src op mid right next result src' :
    reads operator src op mid ->
    reads operand mid right next ->
    folds_left operator operand n (op tree right) next result src' ->
    folds_left operator operand (S n) tree src result src'.

(** One level of the ladder: an operand, then operators and operands
    folded to the left, fewer than [fuel] of them. *)
Definition level (fuel : nat) (operator : Parser (AST -> AST -> AST))
    (operand : Parser AST) (src : Source) (result : AST) (src' : Source) : Prop :=
  exists n first mid,
    (n < fuel)%nat
    /\ reads operand src first mid
    /\ folds_left operator operand n first mid result src'.

(** The local variables [unary], [product] and [sum] of
    [getComparisonParser]. *)
Definition unary_level (fuel : nat) (expression : Parser AST) : Parser AST :=
  let args :=
    Or [Bind expression (fun arg =>
          Bind (Many fuel (And (COMMA fuel) expression)) (fun args =>
            Constant (arg :: args)));
        Constant []] in
  let call :=
    Bind (ID fuel) (fun callee =>
      And (LEFT_PAREN fuel) (Bind args (fun args => call_node fuel callee args))) in
  let atom :=
    Or [call; idParser fuel; NUMBER fuel;
        Bind (And (LEFT_PAREN fuel) expression) (fun e =>
          And (RIGHT_PAREN fuel) (Constant e))] in
  Bind (Maybe (NOT fuel)) (fun not =>
    Map atom (fun term =>
      match not with
      | Some _ => Not term
      | None => term
      end)).

Definition product_level (fuel : nat) (expression : Parser AST) : Parser AST :=
  infix fuel (Or [STAR fuel; SLASH fuel]) (unary_level fuel expression).

Definition sum_level (fuel : nat) (expression : Parser AST) : Parser AST :=
  infix fuel (Or [PLUS fuel; MINUS fuel]) (product_level fuel expression).

(** The text at the cursor starts with [sym]. *)
Definition symbol_at (sym : string) (src : Source) : Prop :=
  substring (Z.to_nat (index src)) (String.length sym) (str src) = sym.

(** The operator parser of each level with the symbols it reads and the
    nodes they build, lowest precedence first. *)
Definition ladder (fuel : nat) :
    list (Parser (AST -> AST -> AST) * list (string * (AST -> AST -> AST))) :=
  [(Or [EQUAL fuel; NOT_EQUAL fuel], [("==", Equal); ("!=", NotEqual)]);
   (Or [PLUS fuel; MINUS fuel], [("+", Add); ("-", Subtract)]);
   (Or [STAR fuel; SLASH fuel], [("*", Multiply); ("/", Divide)])].

(** * Properties of the parser kernel *)

(** ** Strings *)

Lemma string_drop_length (n : nat) (s : string) :
  String.length (string_drop n s) = (String.length s - n)%nat.
Proof.
  revert s; induction n as [|n IH]; intros s; simpl.
  - lia.
  - destruct s as [|c s]; simpl; [reflexivity | apply IH].
Qed.

Lemma substring_length_le (n m : nat) (s : string) :
  (String.length (substring n m s) <= m)%nat
  /\ (String.length (substring n m s) <= String.length s - n)%nat.
Proof.
  revert n m; induction s as [|c s IH]; intros n m.
  - destruct n, m; simpl; lia.
  - destruct n as [|n].
    + destruct m as [|m]; simpl; [lia|].
      destruct (IH O m) as [H1 H2]. lia.
    + simpl. apply IH.
Qed.

(** ** Cursor invariants *)

Lemma advances_in_bounds {T} (f : Source -> parsed T) src r :
  advances f -> in_bounds src -> f src = Done (Some r) -> in_bounds (source r).
Proof.
  intros Hf Hb Hr. destruct (Hf src r Hb Hr) as [Hs Hi].
  unfold in_bounds in *. rewrite Hs. lia.
Qed.

Section KernelInvariants.
Context `{RegexpLib}.
Hypothesis library_contract : bounded_find.

Lemma Match_advances (pattern : string) :
  advances (fun src => Match src pattern).
Proof using library_contract.
  intros src r Hb. unfold Match.
  case_bool_decide as Hend; [discriminate|].
  destruct (Compile _) as [re|]; [|discriminate].
  case_bool_decide as Hneg; [discriminate|].
  destruct (FindStringIndex re _) as [[lo hi]|] eqn:Hfind; [|discriminate].
  intros [= <-]; simpl. split; [reflexivity|].
  apply library_contract in Hfind. rewrite string_drop_length in Hfind.
  pose proof (substring_length_le lo (hi - lo)
                (string_drop (Z.to_nat (index src)) (str src))) as [Hm Hl].
  rewrite string_drop_length in Hl. lia.
Qed.

Lemma Regexp_monotone (pattern : string) : monotone (Regexp pattern).
Proof using library_contract.
  intros f [= <-]. apply Match_advances.
Qed.

Lemma Constant_monotone {T} (v : T) : monotone (Constant v).
Proof.
  intros f [= <-] src r Hb [= <-]; simpl. unfold in_bounds in Hb. split; [reflexivity | lia].
Qed.

Lemma Error_monotone {T} (message : string) : monotone (@Error T message).
Proof. intros f [= <-] src r _ Hr. discriminate. Qed.

Lemma Or_monotone {T} (parsers : list (Parser T)) :
  Forall monotone parsers -> monotone (Or parsers).
Proof.
  intros Hall f [= <-]. induction Hall as [|p ps Hp _ IH]; intros src r Hb; simpl.
  - discriminate.
  - destruct (Parse p) as [g|] eqn:Hg; [|apply IH; assumption].
    destruct (g src) as [[r'|]| |] eqn:Hr; try discriminate.
    + intros [= <-]. exact (Hp g Hg src r' Hb Hr).
    + apply IH; assumption.
Qed.

Lemma Many_loop_advances {T} (fuel : nat) (parse : Source -> parsed T) :
  advances parse ->
  forall results, advances (Many_loop fuel parse results).
Proof.
  intros Hp. induction fuel as [|fuel IH]; intros results src r Hb; simpl.
  - discriminate.
  - destruct (parse src) as [[r'|]| |] eqn:Hr; try discriminate.
    + intros Hloop.
      destruct (Hp src r' Hb Hr) as [Hs Hi].
      pose proof (advances_in_bounds parse src r' Hp Hb Hr) as Hb'.
      destruct (IH _ _ _ Hb' Hloop) as [Hs' Hi'].
      rewrite Hs in Hs', Hi'. split; [assumption | lia].
    + intros [= <-]; simpl. unfold in_bounds in Hb. split; [reflexivity | lia].
Qed.

Lemma Many_monotone {T} (fuel : nat) (p : Parser T) :
  monotone p -> monotone (Many fuel p).
Proof.
  intros Hp f [= <-] src r Hb. destruct (Parse p) as [g|] eqn:Hg.
  - apply Many_loop_advances; [apply Hp; assumption | assumption].
  - intros [= <-]; simpl. unfold in_bounds in Hb. split; [reflexivity | lia].
Qed.

Lemma Maybe_monotone {T} (p : Parser T) : monotone p -> monotone (Maybe p).
Proof.
  intros Hp f [= <-] src r Hb. destruct (Parse p) as [g|] eqn:Hg.
  - destruct (g src) as [[r'|]| |] eqn:Hr; try discriminate.
    + intros [= <-]; simpl. exact (Hp g Hg src r' Hb Hr).
    + intros [= <-]; simpl. unfold in_bounds in Hb. split; [reflexivity | lia].
  - intros [= <-]; simpl. unfold in_bounds in Hb. split; [reflexivity | lia].
Qed.

Lemma Bind_monotone {T U} (p : Parser T) (callback : T -> Parser U) :
  monotone p -> (forall v, monotone (callback v)) -> monotone (Bind p callback).
Proof.
  intros Hp Hk f [= <-] src r Hb. unfold invoke.
  destruct (Parse p) as [g|] eqn:Hg; [|discriminate].
  destruct (g src) as [[r'|]| |] eqn:Hr; try discriminate.
  destruct (Parse (callback (value r'))) as [h|] eqn:Hh; [|discriminate].
  intros Hr2.
  destruct (Hp g Hg src r' Hb Hr) as [Hs Hi].
  pose proof (advances_in_bounds g src r' (Hp g Hg) Hb Hr) as Hb'.
  destruct (Hk _ h Hh _ _ Hb' Hr2) as [Hs' Hi'].
  rewrite Hs in Hs', Hi'. split; [assumption | lia].
Qed.

Lemma And_monotone {T U} (p : Parser T) (q : Parser U) :
  monotone p -> monotone q -> monotone (And p q).
Proof. intros Hp Hq. apply Bind_monotone; [assumption | intros _; assumption]. Qed.

Lemma Map_monotone {T U} (p : Parser T) (callback : T -> U) :
  monotone p -> monotone (Map p callback).
Proof.
  intros Hp. apply Bind_monotone; [assumption | intros v; apply Constant_monotone].
Qed.
End KernelInvariants.

(** ** The regular-expression fragment meets the library contract *)

Lemma one_bounded a k : bounded k -> bounded (RE2.one a k).
Proof.
  intros Hk prev s n. unfold RE2.one. destruct s as [|c s]; [discriminate|].
  destruct (RE2.atom_matches a c); [|discriminate].
  destruct (k (Some c) s) as [m|] eqn:Hm; [|discriminate].
  intros [= <-]. apply Hk in Hm. simpl. lia.
Qed.

Lemma star_greedy_bounded a k : bounded k -> bounded (RE2.star_greedy a k).
Proof.
  intros Hk prev s; revert prev. induction s as [|c s IH]; intros prev n; simpl.
  - apply Hk.
  - destruct (RE2.atom_matches a c); [|apply Hk].
    destruct (RE2.star_greedy a k (Some c) s) as [m|] eqn:Hm.
    + intros [= <-]. apply IH in Hm. lia.
    + intros Hn. apply Hk in Hn. exact Hn.
Qed.

Lemma star_lazy_bounded a k : bounded k -> bounded (RE2.star_lazy a k).
Proof.
  intros Hk prev s; revert prev. induction s as [|c s IH]; intros prev n; simpl.
  - destruct (k prev EmptyString) as [m|] eqn:Hm; [|discriminate].
    intros [= <-]. exact (Hk _ _ _ Hm).
  - destruct (k prev (String c s)) as [m|] eqn:Hm.
    + intros [= <-]. exact (Hk _ _ _ Hm).
    + destruct (RE2.atom_matches a c); [|discriminate].
      destruct (RE2.star_lazy a k (Some c) s) as [m'|] eqn:Hm'; [|discriminate].
      intros [= <-]. apply IH in Hm'. lia.
Qed.

Lemma match_items_bounded re : bounded (RE2.match_items re).
Proof.
  induction re as [|i re IH]; simpl.
  - intros prev s n [= <-]. lia.
  - destruct i.
    + apply one_bounded, IH.
    + apply one_bounded, star_greedy_bounded, IH.
    + apply star_greedy_bounded, IH.
    + apply star_lazy_bounded, IH.
    + intros prev s n. destruct (xorb _ _); [apply IH | discriminate].
    + intros prev s n. destruct prev; [discriminate | apply IH].
Qed.

Lemma find_from_bounded re prev s pos lo hi :
  RE2.find_from re prev s pos = Some (lo, hi) ->
  (pos <= lo /\ lo <= hi /\ hi <= pos + String.length s)%nat.
Proof.
  revert prev pos. induction s as [|c s IH]; intros prev pos; simpl.
  - destruct (RE2.match_items re prev EmptyString) as [n|] eqn:Hn; [|discriminate].
    intros [= <- <-]. apply match_items_bounded in Hn. simpl in Hn. lia.
  - destruct (RE2.match_items re prev (String c s)) as [n|] eqn:Hn.
    + intros [= <- <-]. apply match_items_bounded in Hn. simpl in Hn. lia.
    + intros Hf. apply IH in Hf. lia.
Qed.

Lemma re2_bounded_find : @bounded_find re2.
Proof.
  intros re s lo hi Hf. apply find_from_bounded in Hf. lia.
Qed.

(** ** The grammar keeps the cursor invariants *)

Ltac monotone_step :=
  first
    [ assumption
    | apply Regexp_monotone; exact re2_bounded_find
    | apply Constant_monotone
    | apply Error_monotone
    | apply Many_monotone
    | apply Maybe_monotone
    | apply And_monotone
    | apply Map_monotone
    | apply Or_monotone; repeat (apply List.Forall_cons); [.. | apply List.Forall_nil]
    | apply Bind_monotone; [| intros ?] ].

Ltac monotone_auto := repeat monotone_step.

Lemma ignored_monotone fuel : monotone (ignored fuel).
Proof. unfold ignored, whitespace, comments. monotone_auto. Qed.

Lemma token_monotone fuel pattern : monotone (token fuel pattern).
Proof. unfold token. monotone_auto. Qed.

Lemma infix_monotone fuel operatOr termParser :
  monotone operatOr -> monotone termParser ->
  monotone (infix fuel operatOr termParser).
Proof. intros Ho Ht. unfold infix. monotone_auto. Qed.

Lemma call_node_monotone fuel callee args : monotone (call_node fuel callee args).
Proof.
  unfold call_node. case_bool_decide; [destruct args|];
    unfold RIGHT_PAREN; monotone_auto.
Qed.

Lemma getComparisonParser_monotone fuel expression :
  monotone expression -> monotone (getComparisonParser fuel expression).
Proof.
  intros He. unfold getComparisonParser.
  repeat (apply infix_monotone);
    unfold EQUAL, NOT_EQUAL, PLUS, MINUS, STAR, SLASH, NOT, NUMBER, idParser, ID,
      COMMA, LEFT_PAREN, RIGHT_PAREN;
    monotone_auto; try apply call_node_monotone.
Qed.

Lemma parameters_monotone fuel : monotone (parameters fuel).
Proof.
  unfold parameters, ID, COMMA. monotone_auto.
Qed.

Lemma getStatementParser_monotone fuel expression statement :
  monotone expression -> monotone statement ->
  monotone (getStatementParser fuel expression statement).
Proof.
  intros He Hs. unfold getStatementParser.
  unfold RETURN, SEMICOLON, IF, WHILE, ELSE, VAR, FUNCTION, ID, ASSIGN_OP,
    LEFT_PAREN, RIGHT_PAREN, LEFT_BRACE, RIGHT_BRACE.
  monotone_auto; try apply parameters_monotone.
Qed.

Lemma expression_monotone fuel : monotone (expression fuel).
Proof.
  induction fuel as [|fuel IH]; intros f [= <-] src r Hb.
  - discriminate.
  - pose proof (getComparisonParser_monotone fuel _ IH) as Hc.
    unfold invoke. destruct (Parse _) as [g|] eqn:Hg; [|discriminate].
    apply (Hc g Hg); assumption.
Qed.

Lemma statement_monotone fuel : monotone (statement fuel).
Proof.
  induction fuel as [|fuel IH]; intros f [= <-] src r Hb.
  - discriminate.
  - pose proof (getStatementParser_monotone fuel _ _ (expression_monotone fuel) IH) as Hc.
    unfold invoke. destruct (Parse _) as [g|] eqn:Hg; [|discriminate].
    apply (Hc g Hg); assumption.
Qed.

Lemma parser_monotone fuel : monotone (parser fuel).
Proof.
  unfold parser. monotone_auto; try apply statement_monotone.
Qed.

(** ** The step bound is only a bound *)

Lemma below_refl {T} (p : Parser T) : below p p.
Proof. unfold below. destruct (Parse p); [intros src; right; reflexivity | exact I]. Qed.

Lemma below_invoke {T} (p q : Parser T) (src : Source) :
  below p q -> settles (invoke p src) (invoke q src).
Proof.
  unfold below, invoke. destruct (Parse p), (Parse q); try contradiction.
  - intros H; apply H.
  - intros _; right; reflexivity.
Qed.

Lemma Or_below {T} (ps qs : list (Parser T)) :
  Forall2 below ps qs -> below (Or ps) (Or qs).
Proof.
  intros Hall src. simpl. induction Hall as [|p q ps qs Hpq _ IH]; simpl.
  - right; reflexivity.
  - unfold below in Hpq. destruct (Parse p) as [f|], (Parse q) as [g|];
      try contradiction; [|exact IH].
    destruct (Hpq src) as [-> | ->]; [left; reflexivity|].
    destruct (g src) as [[r|]| |]; try (right; reflexivity). exact IH.
Qed.

Lemma Many_loop_below {T} (f g : Source -> parsed T) :
  settles_parse f g ->
  forall fuel fuel', (fuel <= fuel')%nat ->
  forall results src,
    settles (Many_loop fuel f results src) (Many_loop fuel' g results src).
Proof.
  intros Hfg. induction fuel as [|fuel IH]; intros fuel' Hle results src.
  - left; reflexivity.
  - destruct fuel' as [|fuel']; [lia|]. simpl.
    destruct (Hfg src) as [-> | ->]; [left; reflexivity|].
    destruct (g src) as [[r|]| |]; try (right; reflexivity).
    apply IH. lia.
Qed.

Lemma Many_below {T} (p q : Parser T) (fuel fuel' : nat) :
  (fuel <= fuel')%nat -> below p q -> below (Many fuel p) (Many fuel' q).
Proof.
  intros Hle Hpq src. simpl. unfold below in Hpq.
  destruct (Parse p) as [f|], (Parse q) as [g|]; try contradiction.
  - apply Many_loop_below; assumption.
  - right; reflexivity.
Qed.

Lemma Maybe_below {T} (p q : Parser T) : below p q -> below (Maybe p) (Maybe q).
Proof.
  intros Hpq src. simpl. unfold below in Hpq.
  destruct (Parse p) as [f|], (Parse q) as [g|]; try contradiction.
  - destruct (Hpq src) as [-> | ->]; [left; reflexivity | right; reflexivity].
  - right; reflexivity.
Qed.

Lemma Bind_below {T U} (p q : Parser T) (k k' : T -> Parser U) :
  below p q -> (forall v, below (k v) (k' v)) -> below (Bind p k) (Bind q k').
Proof.
  intros Hpq Hk src. simpl.
  destruct (below_invoke p q src Hpq) as [-> | ->]; [left; reflexivity|].
  destruct (invoke q src) as [[r|]| |]; try (right; reflexivity).
  specialize (Hk (value r)). unfold below in Hk.
  destruct (Parse (k (value r))) as [f|], (Parse (k' (value r))) as [g|];
    try contradiction.
  - apply Hk.
  - right; reflexivity.
Qed.

Lemma And_below {T U} (p q : Parser T) (p' q' : Parser U) :
  below p q -> below p' q' -> below (And p p') (And q q').
Proof. intros H1 H2. apply Bind_below; [assumption | intros _; assumption]. Qed.

Lemma Map_below {T U} (p q : Parser T) (callback : T -> U) :
  below p q -> below (Map p callback) (Map q callback).
Proof. intros H1. apply Bind_below; [assumption | intros v; apply below_refl]. Qed.

Ltac below_step :=
  first
    [ assumption
    | apply below_refl
    | apply Many_below; [lia|]
    | apply Maybe_below
    | apply And_below
    | apply Map_below
    | apply Or_below; repeat (apply List.Forall2_cons); [.. | apply List.Forall2_nil]
    | apply Bind_below; [| intros ?] ].

Ltac below_auto := repeat below_step.

Section Raising.
Variables fuel fuel' : nat.
Hypothesis raise : (fuel <= fuel')%nat.

Lemma ignored_below : below (ignored fuel) (ignored fuel').
Proof using raise. unfold ignored. below_auto. Qed.

Lemma token_below pattern : below (token fuel pattern) (token fuel' pattern).
Proof using raise. unfold token. below_auto. Qed.

Lemma infix_below op op' term term' :
  below op op' -> below term term' ->
  below (infix fuel op term) (infix fuel' op' term').
Proof using raise. intros Ho Ht. unfold infix. below_auto. Qed.

Lemma call_node_below callee args :
  below (call_node fuel callee args) (call_node fuel' callee args).
Proof using raise.
  unfold call_node. case_bool_decide; [destruct args|];
    unfold RIGHT_PAREN; below_auto.
Qed.

Lemma getComparisonParser_below e e' :
  below e e' -> below (getComparisonParser fuel e) (getComparisonParser fuel' e').
Proof using raise.
  intros He. unfold getComparisonParser.
  repeat (apply infix_below);
    unfold EQUAL, NOT_EQUAL, PLUS, MINUS, STAR, SLASH, NOT, NUMBER, idParser, ID,
      COMMA, LEFT_PAREN, RIGHT_PAREN;
    below_auto; try apply call_node_below.
Qed.

Lemma parameters_below : below (parameters fuel) (parameters fuel').
Proof using raise.
  unfold parameters, ID, COMMA. below_auto.
Qed.

Lemma getStatementParser_below e e' s s' :
  below e e' -> below s s' ->
  below (getStatementParser fuel e s) (getStatementParser fuel' e' s').
Proof using raise.
  intros He Hs. unfold getStatementParser.
  unfold RETURN, SEMICOLON, IF, WHILE, ELSE, VAR, FUNCTION, ID, ASSIGN_OP,
    LEFT_PAREN, RIGHT_PAREN, LEFT_BRACE, RIGHT_BRACE.
  below_auto; try apply parameters_below.
Qed.
End Raising.

Lemma expression_below (fuel fuel' : nat) :
  (fuel <= fuel')%nat -> below (expression fuel) (expression fuel').
Proof.
  revert fuel'. induction fuel as [|fuel IH]; intros fuel' Hle.
  - destruct fuel'; intros src; left; reflexivity.
  - destruct fuel' as [|fuel']; [lia|]. intros src. simpl.
    apply below_invoke, getComparisonParser_below; [lia | apply IH; lia].
Qed.

Lemma statement_below (fuel fuel' : nat) :
  (fuel <= fuel')%nat -> below (statement fuel) (statement fuel').
Proof.
  revert fuel'. induction fuel as [|fuel IH]; intros fuel' Hle.
  - destruct fuel'; intros src; left; reflexivity.
  - destruct fuel' as [|fuel']; [lia|]. intros src. simpl.
    apply below_invoke, getStatementParser_below;
      [lia | apply expression_below; lia | apply IH; lia].
Qed.

Lemma parser_below (fuel fuel' : nat) :
  (fuel <= fuel')%nat -> below (parser fuel) (parser fuel').
Proof.
  intros Hle. unfold parser. below_auto. apply statement_below; assumption.
Qed.

Lemma driver_below {T} (p q : Parser T) (text : string) :
  below p q ->
  settles (ParseStringToCompletion p text) (ParseStringToCompletion q text).
Proof.
  intros Hpq. unfold ParseStringToCompletion. unfold below in Hpq.
  destruct (Parse p) as [f|], (Parse q) as [g|]; try contradiction.
  - destruct (Hpq (NewSource text 0)) as [-> | ->]; [left | right]; reflexivity.
  - right; reflexivity.
Qed.

Lemma expression_settled (fuel fuel' : nat) (text : string) (v : AST) :
  ParseStringToCompletion (expression fuel) text = Done v ->
  (fuel <= fuel')%nat ->
  ParseStringToCompletion (expression fuel') text = Done v.
Proof.
  intros Hv Hle.
  destruct (driver_below _ _ text (expression_below fuel fuel' Hle)) as [H | H];
    congruence.
Qed.

Lemma parser_settled (fuel fuel' : nat) (text : string) (r : outcome AST) :
  ParseStringToCompletion (parser fuel) text = r ->
  r <> Diverge ->
  (fuel <= fuel')%nat ->
  ParseStringToCompletion (parser fuel') text = r.
Proof.
  intros Hv Hr Hle.
  destruct (driver_below _ _ text (parser_below fuel fuel' Hle)) as [H | H];
    congruence.
Qed.

Lemma compile_settled (fuel fuel' : nat) (text : string) (r : outcome unit * state) :
  compile fuel text = r ->
  ParseStringToCompletion (parser fuel) text <> Diverge ->
  (fuel <= fuel')%nat ->
  compile fuel' text = r.
Proof.
  intros Hc Hr Hle. unfold compile in *.
  rewrite (parser_settled fuel fuel' text _ eq_refl Hr Hle). exact Hc.
Qed.

(** ** What [Many] computes *)

Lemma Many_loop_repeats {T} (parse : Source -> parsed T) (text : string) :
  consumes parse text ->
  forall (n : nat) (src : Source),
    str src = text -> in_bounds src -> (remaining_bytes src <= n)%nat ->
    exists vs src',
      repeats parse src vs src'
      /\ forall fuel acc, (n < fuel)%nat ->
           Many_loop fuel parse acc src = Done (Some (mkResult (acc ++ vs)%list src')).
Proof.
  intros Hc. induction n as [|n IH]; intros src Hs Hb Hn.
  - destruct (Hc src Hs Hb) as [Hfail | (r & Hr & Hs' & Hi)].
    + exists [], src. split; [constructor; assumption|].
      intros fuel acc Hf. destruct fuel; [lia|]. simpl. rewrite Hfail, app_nil_r. reflexivity.
    + unfold remaining_bytes in Hn. rewrite Hs in Hn. lia.
  - destruct (Hc src Hs Hb) as [Hfail | (r & Hr & Hs' & Hi)].
    + exists [], src. split; [constructor; assumption|].
      intros fuel acc Hf. destruct fuel; [lia|]. simpl. rewrite Hfail, app_nil_r. reflexivity.
    + assert (Hb' : in_bounds (source r)).
      { unfold in_bounds in *. rewrite Hs'. lia. }
      assert (Hn' : (remaining_bytes (source r) <= n)%nat).
      { unfold remaining_bytes in *. rewrite Hs' , Hs in *. lia. }
      destruct (IH (source r) Hs' Hb' Hn') as (vs & src' & Hrep & Hloop).
      exists (value r :: vs), src'. split; [econstructor; eassumption|].
      intros fuel acc Hf. destruct fuel; [lia|]. simpl. rewrite Hr.
      rewrite Hloop by lia. rewrite <- app_assoc. reflexivity.
Qed.

Lemma Many_loop_Constant_diverges {T} (v : T) fuel acc src :
  Many_loop fuel (fun s => Done (Some (mkResult v s))) acc src = Diverge.
Proof. revert acc src. induction fuel as [|fuel IH]; intros; simpl; [reflexivity | apply IH]. Qed.

(** ** The messages of the driver *)

Lemma not_an_index_report (i : Z) (tail : string) :
  "Parse error: could not parse anything at all" <> parse_error_at i tail.
Proof. unfold parse_error_at. simpl. discriminate. Qed.

(** * Properties of the emitter *)

(** ** Standard output is write-only *)

Lemma emit_write_only line : write_only (emit line).
Proof. intros [e lc o]. reflexivity. Qed.

Lemma panic_write_only msg : write_only (panic msg).
Proof. intros [e lc o]. unfold panic, after, restart; simpl. rewrite app_nil_r. reflexivity. Qed.

Lemma skip_write_only : write_only skip.
Proof. intros [e lc o]. unfold skip, after, restart; simpl. rewrite app_nil_r. reflexivity. Qed.

Lemma seq_write_only a b : write_only a -> write_only b -> write_only (seq a b).
Proof.
  intros Ha Hb st. unfold seq. rewrite (Ha st).
  destruct (a (restart st)) as [[[]| |] [e1 lc1 o1]]; unfold after; simpl; try reflexivity.
  rewrite (Hb (mkState e1 lc1 (output st ++ o1))).
  rewrite (Hb (mkState e1 lc1 o1)). unfold after, restart; simpl.
  rewrite app_assoc. reflexivity.
Qed.

Lemma NewLabel_write_only k : (forall l, write_only (k l)) -> write_only (NewLabel k).
Proof. intros Hk st. unfold NewLabel. rewrite (Hk _ _). reflexivity. Qed.

Lemma with_environment_write_only e body :
  write_only body -> write_only (with_environment e body).
Proof.
  intros Hb st. unfold with_environment. rewrite (Hb _). unfold after, restart; simpl.
  destruct (body _) as [r st']. reflexivity.
Qed.

Lemma lookup_local_write_only name k :
  (forall offset, write_only (k offset)) -> write_only (lookup_local name k).
Proof.
  intros Hk st. unfold lookup_local; simpl.
  destruct (locals (env st) !! name); [apply Hk | apply panic_write_only].
Qed.

Lemma declare_local_write_only name : write_only (declare_local name).
Proof. intros [e lc o]. unfold declare_local, after, restart; simpl. rewrite app_nil_r. reflexivity. Qed.

Ltac write_only_step :=
  first
    [ assumption
    | apply emit_write_only
    | apply panic_write_only
    | apply skip_write_only
    | apply declare_local_write_only
    | apply seq_write_only
    | apply NewLabel_write_only; intros ?
    | apply with_environment_write_only
    | apply lookup_local_write_only; intros ? ].

Lemma for_each_write_only (body : AST -> emitter) (l : list AST) :
  Forall (fun a => write_only (body a)) l -> write_only (for_each body l).
Proof. induction 1; simpl; repeat write_only_step. Qed.

Lemma for_each_argument_write_only (body : AST -> emitter) (l : list AST) :
  Forall (fun a => write_only (body a)) l ->
  forall i, write_only (for_each_argument body i l).
Proof. induction 1; intros i; simpl; repeat write_only_step. apply IHForall. Qed.

Lemma Emit_write_only (a : AST) : write_only (Emit a).
Proof.
  induction a using AST_nested_ind; simpl; unfold binary, emitPrologue, emitEpilogue;
    try solve [repeat write_only_step].
  - (* Call *)
    repeat case_bool_decide; simpl; repeat write_only_step.
    + destruct args; [apply panic_write_only | inversion H; assumption].
    + apply for_each_argument_write_only; assumption.
  - (* Block *) apply for_each_write_only; assumption.
  - (* Function *) case_bool_decide; repeat write_only_step.
  - (* Main *) repeat write_only_step. apply for_each_write_only; assumption.
Qed.

Lemma Emit_code (a : AST) (st : state) :
  output (snd (Emit a st)) = (output st ++ code a st)%list.
Proof. rewrite (Emit_write_only a st). reflexivity. Qed.

(** ** Which nodes touch the environment *)

Lemma seq_keeps a b :
  keeps_environment a -> keeps_environment b -> keeps_environment (seq a b).
Proof.
  intros Ha Hb st. unfold seq. specialize (Ha st).
  destruct (a st) as [[[]| |] st1]; simpl in *; try assumption.
  rewrite Hb. assumption.
Qed.

Lemma emit_keeps line : keeps_environment (emit line).
Proof. intros st; reflexivity. Qed.

Lemma panic_keeps msg : keeps_environment (panic msg).
Proof. intros st; reflexivity. Qed.

Lemma skip_keeps : keeps_environment skip.
Proof. intros st; reflexivity. Qed.

Lemma NewLabel_keeps k : (forall l, keeps_environment (k l)) -> keeps_environment (NewLabel k).
Proof. intros Hk st. unfold NewLabel. rewrite Hk. reflexivity. Qed.

Lemma with_environment_keeps e body : keeps_environment (with_environment e body).
Proof. intros st. unfold with_environment. destruct (body _). reflexivity. Qed.

Lemma lookup_local_keeps name k :
  (forall offset, keeps_environment (k offset)) -> keeps_environment (lookup_local name k).
Proof.
  intros Hk st. unfold lookup_local. destruct (locals (env st) !! name); [apply Hk | reflexivity].
Qed.

Ltac keeps_step :=
  first
    [ assumption
    | apply emit_keeps
    | apply panic_keeps
    | apply skip_keeps
    | apply with_environment_keeps
    | apply seq_keeps
    | apply NewLabel_keeps; intros ?
    | apply lookup_local_keeps; intros ? ].

Lemma for_each_keeps (body : AST -> emitter) (l : list AST) :
  Forall (fun a => keeps_environment (body a)) l -> keeps_environment (for_each body l).
Proof. induction 1; simpl; repeat keeps_step. Qed.

Lemma for_each_argument_keeps (body : AST -> emitter) (l : list AST) :
  Forall (fun a => keeps_environment (body a)) l ->
  forall i, keeps_environment (for_each_argument body i l).
Proof. induction 1; intros i; simpl; repeat keeps_step. apply IHForall. Qed.

Lemma Forall_var_free (l : list AST) :
  Forall (fun a => var_free a = true -> keeps_environment (Emit a)) l ->
  forallb var_free l = true ->
  Forall (fun a => keeps_environment (Emit a)) l.
Proof.
  induction 1 as [|a l Ha _ IH]; simpl; intros Hl; constructor;
    apply andb_prop in Hl as [H1 H2]; auto.
Qed.

Lemma var_free_keeps (a : AST) : var_free a = true -> keeps_environment (Emit a).
Proof.
  induction a using AST_nested_ind; simpl; intros Hv;
    unfold binary, emitPrologue, emitEpilogue;
    repeat match goal with
           | H : _ && _ = true |- _ => apply andb_prop in H as [? ?]
           end;
    try discriminate;
    try solve [repeat keeps_step; auto].
  - (* Call *)
    pose proof (Forall_var_free _ H Hv) as Hall.
    repeat case_bool_decide; simpl; repeat keeps_step.
    + destruct args; [apply panic_keeps | inversion Hall; assumption].
    + apply for_each_argument_keeps; assumption.
  - (* Block *) apply for_each_keeps, Forall_var_free; assumption.
  - (* Function *) case_bool_decide; repeat keeps_step.
  - (* Main *) repeat keeps_step. apply for_each_keeps, Forall_var_free; assumption.
Qed.

Lemma for_each_app (body : AST -> emitter) (l1 l2 : list AST) (st : state) :
  for_each body (l1 ++ l2) st = seq (for_each body l1) (for_each body l2) st.
Proof.
  revert st. induction l1 as [|a l1 IH]; intros st; simpl.
  - reflexivity.
  - unfold seq in *. destruct (body a st) as [[[]| |] st1]; try reflexivity.
    apply IH.
Qed.

(** ** The parameter bindings of [setUpEnvironment] *)

Lemma bind_parameters_other (p : string) (ps : list string) :
  p ∉ ps -> forall i m, bind_parameters i ps m !! p = m !! p.
Proof.
  induction ps as [|q ps IH]; intros Hp i m; simpl; [reflexivity|].
  apply not_elem_of_cons in Hp as [Hne Hp].
  rewrite IH by assumption. apply lookup_insert_ne. congruence.
Qed.

Lemma bind_parameters_last (p : string) (ps : list string) :
  forall (j i : nat) (m : gmap string Z),
    ps !! j = Some p ->
    (forall k, (j < k)%nat -> ps !! k <> Some p) ->
    bind_parameters i ps m !! p = Some (4 * Z.of_nat (i + j) - 16).
Proof.
  induction ps as [|q ps IH]; intros j i m Hj Hlast; [discriminate|].
  destruct j as [|j]; simpl in *.
  - injection Hj as ->.
    rewrite bind_parameters_other.
    + rewrite lookup_insert_eq, Nat.add_0_r. reflexivity.
    + intros Hin. apply list_elem_of_lookup in Hin as [k Hk].
      apply (Hlast (S k)); [lia | exact Hk].
  - rewrite (IH j (S i)); [f_equal; lia | assumption |].
    intros k Hk. apply (Hlast (S k)). lia.
Qed.

Lemma wrap_small (z : Z) : int_min <= z <= int_max -> wrap z = z.
Proof.
  unfold wrap, int_min, int_max. intros Hz.
  rewrite Z.mod_small by lia. lia.
Qed.

(** ** Sequencing *)

Lemma seq_Done (a b : emitter) (st st1 : state) :
  a st = (Done tt, st1) -> seq a b st = b st1.
Proof. intros Ha. unfold seq. rewrite Ha. reflexivity. Qed.

Lemma seq_Panic (a b : emitter) (st st1 : state) (msg : string) :
  a st = (Panic msg, st1) -> seq a b st = (Panic msg, st1).
Proof. intros Ha. unfold seq. rewrite Ha. reflexivity. Qed.

Lemma seq_assoc_at (a b c : emitter) (st : state) :
  seq (seq a b) c st = seq a (seq b c) st.
Proof. unfold seq. destruct (a st) as [[[]| |] st1]; reflexivity. Qed.

Lemma emit_appended (line : string) (st : state) :
  emit line st = (Done tt, appended st [line]).
Proof. reflexivity. Qed.

Lemma appended_appended st l1 l2 :
  appended (appended st l1) l2 = appended st (l1 ++ l2).
Proof. unfold appended; simpl. rewrite <- app_assoc. reflexivity. Qed.

Lemma Emit_Done_output (a : AST) (st st1 : state) :
  Emit a st = (Done tt, st1) -> output st1 = (output st ++ code a st)%list.
Proof. intros Ha. rewrite <- Emit_code, Ha. reflexivity. Qed.

(** The lines of a binary node, given how its operands emit. *)
Lemma binary_lines (l r : AST) (tail : list string) (node : AST) (st st1 st2 : state) :
  Emit l st = (Done tt, st1) ->
  Emit r (appended st1 ["  push {r0, ip}"]) = (Done tt, st2) ->
  Emit node st = (Done tt, appended st2 ("  pop {r1, ip}" :: tail)) ->
  code node st
  = (code l st ++ ["  push {r0, ip}"]
     ++ code r (appended st1 ["  push {r0, ip}"])
     ++ "  pop {r1, ip}" :: tail)%list.
Proof.
  intros Hl Hr Hn.
  apply Emit_Done_output in Hl, Hr, Hn. simpl in Hr, Hn.
  rewrite Hr, Hl in Hn. repeat rewrite <- app_assoc in Hn.
  apply app_inv_head in Hn. symmetry. exact Hn.
Qed.

Lemma binary_Done (l r : AST) (rest : emitter) (st st1 st2 : state) :
  Emit l st = (Done tt, st1) ->
  Emit r (appended st1 ["  push {r0, ip}"]) = (Done tt, st2) ->
  seq (binary (Emit l) (Emit r)) rest st = rest (appended st2 ["  pop {r1, ip}"]).
Proof.
  intros Hl Hr. unfold binary.
  unfold seq at 1 2. rewrite Hl. rewrite (seq_Done _ _ _ _ (emit_appended _ _)).
  unfold seq at 1. rewrite Hr. reflexivity.
Qed.

(** ** Running emitted lines *)

Lemma run_app (l1 l2 : list string) (m : ARM.machine) :
  ARM.run (l1 ++ l2) m
  = match ARM.run l1 m with Some m1 => ARM.run l2 m1 | None => None end.
Proof.
  revert m. induction l1 as [|line l1 IH]; intros m; simpl; [reflexivity|].
  destruct (ARM.decode line) as [i|]; [|reflexivity].
  destruct (ARM.step i m) as [m'|]; [apply IH | reflexivity].
Qed.

(** ** Expressions of literals compute their value *)

Lemma to_int_not_nil (z : Z) :
  Z.to_int z <> Decimal.Pos Decimal.Nil /\ Z.to_int z <> Decimal.Neg Decimal.Nil.
Proof.
  destruct z as [|p|p]; simpl; split; try discriminate;
    intros [= Hp]; exact (Unsigned.to_uint_nonnil p Hp).
Qed.

Lemma decode_ldr (n : Z) :
  ARM.decode ("  ldr r0, =" +:+ fmt_d n) = Some (ARM.ldr_r0 n).
Proof.
  assert (Hassoc : forall x, ARM.assoc (ARM.ldr_prefix +:+ x) ARM.fixed_lines = None)
    by reflexivity.
  assert (Hprefix : forall x, String.prefix ARM.ldr_prefix (ARM.ldr_prefix +:+ x) = true)
    by (intros x; simpl; destruct x; reflexivity).
  assert (Hdrop : forall x,
             string_drop (String.length ARM.ldr_prefix) (ARM.ldr_prefix +:+ x) = x)
    by reflexivity.
  unfold ARM.decode. change "  ldr r0, =" with ARM.ldr_prefix.
  rewrite Hassoc, Hprefix, Hdrop.
  unfold fmt_d. destruct (to_int_not_nil n) as [H1 H2].
  rewrite NilZero.isi by assumption. simpl. rewrite DecimalZ.of_to. reflexivity.
Qed.

Lemma computes_Number (value : Z) : computes (Number value) (ARM.word value).
Proof.
  intros st. eexists. split; [reflexivity|]. intros m.
  unfold code. cbn [Emit emit restart snd output env labelCounter app].
  cbn [ARM.run]. rewrite decode_ldr. cbn [ARM.step].
  eexists. repeat split.
Qed.

(** The operand pattern: after the code of both operands and the [pop],
    [r1] holds the left value and [r0] the right one. *)
Lemma computes_binary (l r node : AST) (x y : Z) (tail : list string) :
  computes l x -> computes r y ->
  (forall st st1 st2,
     Emit l st = (Done tt, st1) ->
     Emit r (appended st1 ["  push {r0, ip}"]) = (Done tt, st2) ->
     Emit node st = (Done tt, appended st2 ("  pop {r1, ip}" :: tail))) ->
  forall st, exists st',
    Emit node st = (Done tt, st')
    /\ forall m, exists m1,
         ARM.run (firstn (length (code node st) - length tail) (code node st)) m
         = Some m1
         /\ skipn (length (code node st) - length tail) (code node st) = tail
         /\ ARM.r1 m1 = x /\ ARM.r0 m1 = y
         /\ ARM.stack m1 = ARM.stack m
         /\ ARM.ip m1 = ARM.ip m
         /\ ARM.printed m1 = ARM.printed m.
Proof.
  intros Hl Hr Hnode st.
  destruct (Hl st) as (st1 & Hel & Hrl).
  destruct (Hr (appended st1 ["  push {r0, ip}"])) as (st2 & Her & Hrr).
  pose proof (Hnode st st1 st2 Hel Her) as Hen.
  eexists. split; [exact Hen|]. intros m.
  rewrite (binary_lines l r tail node st st1 st2 Hel Her Hen).
  destruct (Hrl m) as (m1 & Hm1 & Hv1 & Hs1 & Hi1 & Hp1).
  destruct (Hrr (ARM.mkMachine (ARM.r0 m1) (ARM.r1 m1) (ARM.ip m1) (ARM.flag_eq m1)
                   (ARM.r0 m1 :: ARM.ip m1 :: ARM.stack m1) (ARM.printed m1)))
    as (m2 & Hm2 & Hv2 & Hs2 & Hi2 & Hp2).
  simpl in Hs2, Hi2, Hp2. clear Hrl Hrr.
  generalize dependent (code r (appended st1 ["  push {r0, ip}"])).
  generalize dependent (code l st). intros cl Hm1 cr Hm2.
  replace (cl ++ ["  push {r0, ip}"] ++ cr ++ "  pop {r1, ip}" :: tail)%list
    with ((cl ++ ["  push {r0, ip}"] ++ cr ++ ["  pop {r1, ip}"]) ++ tail)%list
    by (rewrite <- !app_assoc; reflexivity).
  replace (length ((cl ++ ["  push {r0, ip}"] ++ cr ++ ["  pop {r1, ip}"]) ++ tail)
           - length tail)%nat
    with (length (cl ++ ["  push {r0, ip}"] ++ cr ++ ["  pop {r1, ip}"]))
    by (rewrite (length_app _ tail); lia).
  rewrite take_app_length, drop_app_length.
  rewrite run_app, Hm1.
  change (ARM.run (["  push {r0, ip}"] ++ cr ++ ["  pop {r1, ip}"]) m1)
    with (ARM.run (cr ++ ["  pop {r1, ip}"])
            (ARM.mkMachine (ARM.r0 m1) (ARM.r1 m1) (ARM.ip m1) (ARM.flag_eq m1)
               (ARM.r0 m1 :: ARM.ip m1 :: ARM.stack m1) (ARM.printed m1))).
  rewrite run_app, Hm2.
  change (ARM.run ["  pop {r1, ip}"] m2)
    with (match ARM.step ARM.pop_r1_ip m2 with Some m' => Some m' | None => None end).
  cbn [ARM.step]. rewrite Hs2.
  eexists. split; [reflexivity|]. cbn. repeat split; congruence.
Qed.

Lemma binary_nodes_emit (node : AST -> AST -> AST) (tail : list string) :
  In (node, tail) binary_nodes ->
  forall l r st st1 st2,
    Emit l st = (Done tt, st1) ->
    Emit r (appended st1 ["  push {r0, ip}"]) = (Done tt, st2) ->
    Emit (node l r) st = (Done tt, appended st2 ("  pop {r1, ip}" :: tail)).
Proof.
  intros Hin l r st st1 st2 Hl Hr. simpl in Hin.
  repeat destruct Hin as [Hin|Hin]; try contradiction;
    injection Hin as <- <-; simpl;
    rewrite (binary_Done l r _ st st1 st2 Hl Hr);
    unfold seq, emit, appended; simpl; repeat rewrite <- app_assoc;
    reflexivity.
Qed.

Lemma computes_node (node : AST -> AST -> AST) (tail : list string)
    (l r : AST) (x y v : Z) :
  In (node, tail) binary_nodes ->
  computes l x -> computes r y ->
  (forall m1, ARM.r1 m1 = x -> ARM.r0 m1 = y ->
     exists m', ARM.run tail m1 = Some m'
       /\ ARM.r0 m' = v
       /\ ARM.stack m' = ARM.stack m1
       /\ ARM.ip m' = ARM.ip m1
       /\ ARM.printed m' = ARM.printed m1) ->
  computes (node l r) v.
Proof.
  intros Hin Hl Hr Htail st.
  destruct (computes_binary l r (node l r) x y tail Hl Hr
              (fun st st1 st2 => binary_nodes_emit node tail Hin l r st st1 st2) st)
    as (st' & He & Hrun).
  exists st'. split; [exact He|]. intros m.
  destruct (Hrun m) as (m1 & Hm1 & Hdrop & Hx & Hy & Hs & Hi & Hp).
  destruct (Htail m1 Hx Hy) as (m' & Hm' & Hv & Hs' & Hi' & Hp').
  exists m'. split.
  - rewrite <- (take_drop (length (code (node l r) st) - length tail)
                  (code (node l r) st)).
    rewrite run_app, Hm1, Hdrop. exact Hm'.
  - repeat split; congruence.
Qed.

Lemma computes_Not (term : AST) (v : Z) :
  computes term v -> computes (Not term) (if v =? 0 then 1 else 0).
Proof.
  intros Ht st. destruct (Ht st) as (st1 & He & Hrun).
  assert (Hnot : Emit (Not term) st
                 = (Done tt, appended st1 ["  cmp r0, #0"; "  moveq r0, #1";
                                            "  movne r0, #0"])).
  { cbn [Emit]. rewrite (seq_Done _ _ _ _ He). unfold seq, emit, appended; simpl.
    repeat rewrite <- app_assoc. reflexivity. }
  eexists. split; [exact Hnot|]. intros m.
  destruct (Hrun m) as (m1 & Hm1 & Hv & Hs & Hi & Hp).
  assert (Hcode : code (Not term) st
                  = (code term st ++ ["  cmp r0, #0"; "  moveq r0, #1";
                                      "  movne r0, #0"])%list).
  { apply Emit_Done_output in He, Hnot. simpl in Hnot. rewrite He in Hnot.
    rewrite <- app_assoc in Hnot. apply app_inv_head in Hnot. symmetry; exact Hnot. }
  rewrite Hcode, run_app, Hm1.
  change (ARM.run ["  cmp r0, #0"; "  moveq r0, #1"; "  movne r0, #0"] m1)
    with (Some (let m2 := ARM.set_flag (ARM.r0 m1 =? 0) m1 in
                let m3 := if ARM.flag_eq m2 then ARM.set_r0 1 m2 else m2 in
                if ARM.flag_eq m3 then m3 else ARM.set_r0 0 m3)).
  eexists. split; [reflexivity|]. rewrite Hv.
  destruct (v =? 0); cbn; repeat split; congruence.
Qed.

Ltac run_tail :=
  intros m1 Hx Hy; subst; eexists; split; [reflexivity|]; cbn;
  repeat match goal with |- context [?a =? ?b] => destruct (a =? b) end;
  cbn; repeat split; reflexivity.

Lemma eval_computes (a : AST) : forall v, eval a = Some v -> computes a v.
Proof.
  induction a; intros v Hv; cbn [eval] in Hv; try discriminate Hv.
  - injection Hv as <-. apply computes_Number.
  - destruct (eval a) as [x|]; [|discriminate]. injection Hv as <-.
    apply computes_Not, IHa. reflexivity.
  - destruct (eval a1) as [x|]; [|discriminate].
    destruct (eval a2) as [y|]; [|discriminate]. injection Hv as <-.
    eapply (computes_node Equal _ a1 a2 x y); [simpl; repeat (first [left; reflexivity | right]) | auto | auto |].
    run_tail.
  - destruct (eval a1) as [x|]; [|discriminate].
    destruct (eval a2) as [y|]; [|discriminate]. injection Hv as <-.
    eapply (computes_node NotEqual _ a1 a2 x y); [simpl; repeat (first [left; reflexivity | right]) | auto | auto |].
    run_tail.
  - destruct (eval a1) as [x|]; [|discriminate].
    destruct (eval a2) as [y|]; [|discriminate]. injection Hv as <-.
    eapply (computes_node Add _ a1 a2 x y); [simpl; repeat (first [left; reflexivity | right]) | auto | auto |].
    run_tail.
  - destruct (eval a1) as [x|]; [|discriminate].
    destruct (eval a2) as [y|]; [|discriminate]. injection Hv as <-.
    eapply (computes_node Subtract _ a1 a2 x y); [simpl; repeat (first [left; reflexivity | right]) | auto | auto |].
    run_tail.
  - destruct (eval a1) as [x|]; [|discriminate].
    destruct (eval a2) as [y|]; [|discriminate]. injection Hv as <-.
    eapply (computes_node Multiply _ a1 a2 x y); [simpl; repeat (first [left; reflexivity | right]) | auto | auto |].
    run_tail.
  - destruct (eval a1) as [x|]; [|discriminate].
    destruct (eval a2) as [y|]; [|discriminate]. injection Hv as <-.
    eapply (computes_node Divide _ a1 a2 x y); [simpl; repeat (first [left; reflexivity | right]) | auto | auto |].
    run_tail.
Qed.

(** * The claims about the emitter *)

(** C5.  Each of the six binary nodes emits the code of its left operand,
    [push {r0, ip}], the code of its right operand, [pop {r1, ip}] and then
    its own instructions, which for [Subtract] is [sub r0, r1, r0].  Hence,
    whenever the operand codes run and the right operand's code leaves the
    stack as it found it, the code of [Subtract a b] ends with [r0] holding
    the value of [a] minus the value of [b] (as a 32-bit word), and with the
    stack as the left operand left it.  Operands built from literals and
    operators always do, so for them the code computes left minus right
    outright. *)
Theorem binary_emission_left_minus_right :
  (forall node tail, In (node, tail) binary_nodes ->
     forall l r st st1 st2,
       Emit l st = (Done tt, st1) ->
       Emit r (appended st1 ["  push {r0, ip}"]) = (Done tt, st2) ->
       Emit (node l r) st = (Done tt, appended st2 ("  pop {r1, ip}" :: tail))
       /\ code (node l r) st
          = (code l st ++ ["  push {r0, ip}"]
             ++ code r (appended st1 ["  push {r0, ip}"])
             ++ "  pop {r1, ip}" :: tail)%list)
  /\ In (Subtract, ["  sub r0, r1, r0"]) binary_nodes
  /\ (forall a b st st1 st2 m m1 m1' m2,
        Emit a st = (Done tt, st1) ->
        Emit b (appended st1 ["  push {r0, ip}"]) = (Done tt, st2) ->
        ARM.run (code a st) m = Some m1 ->
        ARM.step ARM.push_r0_ip m1 = Some m1' ->
        ARM.run (code b (appended st1 ["  push {r0, ip}"])) m1' = Some m2 ->
        ARM.stack m2 = ARM.stack m1' ->
        exists m',
          ARM.run (code (Subtract a b) st) m = Some m'
          /\ ARM.r0 m' = ARM.word (ARM.r0 m1 - ARM.r0 m2)
          /\ ARM.stack m' = ARM.stack m1)
  /\ (forall a b x y,
        eval a = Some x -> eval b = Some y ->
        forall st m,
        exists m',
          ARM.run (code (Subtract a b) st) m = Some m'
          /\ ARM.r0 m' = ARM.word (x - y)
          /\ ARM.stack m' = ARM.stack m).
Proof.
  assert (Hin : In (Subtract, ["  sub r0, r1, r0"]) binary_nodes)
    by (simpl; tauto).
  split; [|split; [exact Hin|split]].
  - intros node tail Hnode l r st st1 st2 Hl Hr.
    pose proof (binary_nodes_emit node tail Hnode l r st st1 st2 Hl Hr) as Hn.
    split; [exact Hn|]. exact (binary_lines l r tail _ st st1 st2 Hl Hr Hn).
  - intros a b st st1 st2 m m1 m1' m2 Ha Hb Hra Hpush Hrb Hstack.
    pose proof (binary_nodes_emit _ _ Hin a b st st1 st2 Ha Hb) as Hn.
    rewrite (binary_lines a b _ _ st st1 st2 Ha Hb Hn).
    injection Hpush as <-. simpl in Hstack.
    rewrite run_app, Hra. simpl ARM.run at 1.
    change (ARM.decode "  push {r0, ip}") with (Some ARM.push_r0_ip). simpl ARM.step.
    rewrite run_app, Hrb. simpl ARM.run.
    change (ARM.decode "  pop {r1, ip}") with (Some ARM.pop_r1_ip).
    change (ARM.decode "  sub r0, r1, r0") with (Some ARM.sub_r0_r1_r0).
    simpl. rewrite Hstack. simpl. eexists; repeat split.
  - intros a b x y Hx Hy st m.
    assert (Hsub : eval (Subtract a b) = Some (ARM.word (x - y)))
      by (cbn [eval]; rewrite Hx, Hy; reflexivity).
    destruct (eval_computes _ _ Hsub st) as (st' & _ & Hrun).
    destruct (Hrun m) as (m' & Hm' & Hv & Hs & _).
    exists m'. repeat split; assumption.
Qed.

Lemma binary_emission_left_minus_right_witness :
  (exists m',
     ARM.run (code ten_minus_three initial_state) idle = Some m'
     /\ ARM.r0 m' = ARM.word (10 - 3)
     /\ ARM.stack m' = [])
  /\ (exists m',
        ARM.run (code (Subtract (Number 2) (Multiply (Number 3) (Number 4)))
                   initial_state) idle
        = Some m'
        /\ ARM.r0 m' = ARM.word (ARM.word 2 - ARM.word (ARM.word 3 * ARM.word 4))
        /\ ARM.stack m' = ARM.stack idle).
Proof.
  split.
  - exact (proj1 (proj2 (proj2 binary_emission_left_minus_right))
             (Number 10) (Number 3) initial_state
             (appended initial_state ["  ldr r0, =10"])
             (appended initial_state
                ["  ldr r0, =10"; "  push {r0, ip}"; "  ldr r0, =3"])
             idle
             (ARM.mkMachine 10 0 0 false [] [])
             (ARM.mkMachine 10 0 0 false [10; 0] [])
             (ARM.mkMachine 3 0 0 false [10; 0] [])
             eq_refl eq_refl eq_refl eq_refl eq_refl eq_refl).
  - exact (proj2 (proj2 (proj2 binary_emission_left_minus_right))
             (Number 2) (Multiply (Number 3) (Number 4)) _ _
             eq_refl eq_refl initial_state idle).
Defined.

(** C7.  [Assert] emits the code of its condition followed by [cmp r0, #1],
    [moveq r0, #'.'], [movne r0, #'F'], [bl putchar], and nothing else.
    Hence, when the condition's code leaves the value [v] in [r0], the byte
    handed to [putchar] is ['.'] (46) if [v] is 1 and ['F'] (70) for every
    other [v]; so it is for every condition built from literals and
    operators, whose code leaves its value in [r0]. *)
Theorem assert_emission :
  (forall c st st1,
     Emit c st = (Done tt, st1) ->
     Emit (Assert c) st
     = (Done tt,
        appended st1
          ["  cmp r0, #1"; "  moveq r0, #'.'"; "  movne r0, #'F'"; "  bl putchar"])
     /\ code (Assert c) st
        = (code c st
           ++ ["  cmp r0, #1"; "  moveq r0, #'.'"; "  movne r0, #'F'";
               "  bl putchar"])%list)
  /\ (forall c st st1 m m1,
        Emit c st = (Done tt, st1) ->
        ARM.run (code c st) m = Some m1 ->
        exists m',
          ARM.run (code (Assert c) st) m = Some m'
          /\ ARM.printed m'
             = (ARM.printed m1 ++ [if ARM.r0 m1 =? 1 then 46 else 70])%list)
  /\ (forall c v,
        eval c = Some v ->
        forall st m,
        exists m',
          ARM.run (code (Assert c) st) m = Some m'
          /\ ARM.printed m'
             = (ARM.printed m ++ [if v =? 1 then 46 else 70])%list).
Proof.
  assert (Hlines : forall c st st1,
     Emit c st = (Done tt, st1) ->
     Emit (Assert c) st
     = (Done tt,
        appended st1
          ["  cmp r0, #1"; "  moveq r0, #'.'"; "  movne r0, #'F'"; "  bl putchar"])
     /\ code (Assert c) st
        = (code c st
           ++ ["  cmp r0, #1"; "  moveq r0, #'.'"; "  movne r0, #'F'";
               "  bl putchar"])%list).
  { intros c st st1 Hc.
    assert (He : Emit (Assert c) st
                 = (Done tt,
                    appended st1
                      ["  cmp r0, #1"; "  moveq r0, #'.'"; "  movne r0, #'F'";
                       "  bl putchar"])).
    { simpl. rewrite (seq_Done _ _ _ _ Hc). unfold seq, emit, appended; simpl.
      repeat rewrite <- app_assoc. reflexivity. }
    split; [exact He|].
    apply Emit_Done_output in Hc, He. simpl in He. rewrite Hc in He.
    rewrite <- app_assoc in He. apply app_inv_head in He. symmetry; exact He. }
  assert (Hsem : forall c st st1 m m1,
        Emit c st = (Done tt, st1) ->
        ARM.run (code c st) m = Some m1 ->
        exists m',
          ARM.run (code (Assert c) st) m = Some m'
          /\ ARM.printed m'
             = (ARM.printed m1 ++ [if ARM.r0 m1 =? 1 then 46 else 70])%list).
  { intros c st st1 m m1 Hc Hrun.
    destruct (Hlines c st st1 Hc) as [_ ->].
    rewrite run_app, Hrun. simpl ARM.run.
    change (ARM.decode "  cmp r0, #1") with (Some (ARM.cmp_r0_imm 1)).
    change (ARM.decode "  moveq r0, #'.'") with (Some (ARM.moveq_r0 46)).
    change (ARM.decode "  movne r0, #'F'") with (Some (ARM.movne_r0 70)).
    change (ARM.decode "  bl putchar") with (Some ARM.bl_putchar).
    simpl. destruct (ARM.r0 m1 =? 1); simpl; eexists; split; reflexivity. }
  split; [exact Hlines|]. split; [exact Hsem|].
  intros c v Hv st m.
  destruct (eval_computes c v Hv st) as (st1 & Hc & Hrun).
  destruct (Hrun m) as (m1 & Hm1 & Hr0 & _ & _ & Hp).
  destruct (Hsem c st st1 m m1 Hc Hm1) as (m' & Hm' & Hp').
  exists m'. split; [exact Hm'|]. rewrite Hp', Hp, Hr0. reflexivity.
Qed.

Lemma assert_emission_witness :
  (exists m',
     ARM.run (code (Assert (Number 2)) initial_state) idle = Some m'
     /\ ARM.printed m' = [70])
  /\ (exists m',
        ARM.run (code (Assert (Equal (Number 42) (Number 42))) initial_state) idle
        = Some m'
        /\ ARM.printed m' = [46]).
Proof.
  split.
  - exact (proj1 (proj2 assert_emission) (Number 2) initial_state
             (appended initial_state ["  ldr r0, =2"])
             idle (ARM.mkMachine 2 0 0 false [] [])
             eq_refl eq_refl).
  - exact (proj2 (proj2 assert_emission) (Equal (Number 42) (Number 42)) 1
             eq_refl initial_state idle).
Defined.

Lemma seq_Done_inv (a b : emitter) (st st' : state) :
  seq a b st = (Done tt, st') ->
  exists st1, a st = (Done tt, st1) /\ b st1 = (Done tt, st').
Proof.
  unfold seq. destruct (a st) as [[[]| |] st1]; intros Hb; try discriminate.
  exists st1. split; [reflexivity | assumption].
Qed.

Lemma for_each_var_free_keeps (l : list AST) :
  forallb var_free l = true -> keeps_environment (for_each Emit l).
Proof.
  intros Hl. apply for_each_keeps.
  pose proof (proj1 (forallb_forall var_free l) Hl) as Hall.
  apply List.Forall_forall. intros a Ha. apply var_free_keeps, Hall, Ha.
Qed.

(** C2.  [Var] emits its right-hand side and [push {r0, ip}], binds the
    name to [nextLocalOffset - 4] and lowers [nextLocalOffset] by 8 (no
    wrap-around as long as the offset is 8 above the least [int]).
    [setUpEnvironment] starts from [nextLocalOffset = -20] with the i-th
    parameter bound to [4*i - 16] (the bindings are made in order, so for a
    repeated name the last position counts) and nothing else bound.  So in
    every function the first local declared by [Var] sits at [fp, #-24]:
    a read of it right after the declaration emits
    [ldr r0, [fp, #-24]]. *)
Theorem frame_layout :
  (forall name value st st1,
     Emit value st = (Done tt, st1) ->
     int_min + 8 <= nextLocalOffset (env st1) <= int_max ->
     Emit (Var name value) st
     = (Done tt,
        mkState
          (mkEnvironment
             (<[name := nextLocalOffset (env st1) - 4]> (locals (env st1)))
             (nextLocalOffset (env st1) - 8))
          (labelCounter st1)
          (output st1 ++ ["  push {r0, ip}"])))
  /\ (forall parameters : list string,
        nextLocalOffset (setUpEnvironment parameters) = -20
        /\ (forall (i : nat) (p : string),
              parameters !! i = Some p ->
              (forall k, (i < k)%nat -> parameters !! k <> Some p) ->
              locals (setUpEnvironment parameters) !! p
              = Some (4 * Z.of_nat i - 16))
        /\ (forall p : string,
              p ∉ parameters ->
              locals (setUpEnvironment parameters) !! p = None))
  /\ (forall name parameters before x value st st',
        forallb var_free before = true ->
        var_free value = true ->
        Emit (Function name parameters (Block (before ++ [Var x value; Id x]))) st
        = (Done tt, st') ->
        exists lines,
          output st'
          = (lines ++ ["  ldr r0, [fp, #-24]";
                       "  mov sp, fp"; "  mov r0, #0"; "  pop {fp, pc}"])%list).
Proof.
  split; [|split].
  - intros name value st st1 Hv Hrange. cbn [Emit].
    rewrite (seq_Done _ _ _ _ Hv). unfold seq, emit, declare_local.
    cbn [fst snd env output labelCounter].
    unfold int_min, int_max in Hrange.
    rewrite !wrap_small by (unfold int_min, int_max; lia). reflexivity.
  - intros parameters. split; [reflexivity|]. split.
    + intros i p Hi Hlast. unfold setUpEnvironment; simpl.
      apply (bind_parameters_last p parameters i 0 _ Hi Hlast).
    + intros p Hp. unfold setUpEnvironment; simpl.
      rewrite bind_parameters_other by assumption. apply lookup_empty.
  - intros name parameters before x value st st' Hbefore Hvalue. cbn [Emit].
    case_bool_decide; [discriminate|]. unfold emitPrologue, emitEpilogue.
    intros Hrun.
    do 4 (apply seq_Done_inv in Hrun as (? & [= <-] & Hrun)).
    apply seq_Done_inv in Hrun as (st2 & Hbody & Hrun).
    injection Hrun as <-. cbn [output].
    unfold with_environment in Hbody; cbn [env output labelCounter] in Hbody.
    destruct (for_each Emit _ _) as [res st3] eqn:Hloop.
    injection Hbody as -> <-. cbn [output].
    rewrite for_each_app in Hloop.
    apply seq_Done_inv in Hloop as (st4 & Hpre & Hloop).
    match type of Hpre with
    | for_each _ _ ?s = _ =>
        pose proof (for_each_var_free_keeps before Hbefore s) as Henv4;
        rewrite Hpre in Henv4; cbn [snd env] in Henv4
    end.
    cbn [for_each] in Hloop.
    apply seq_Done_inv in Hloop as (st5 & Hvar & Hloop).
    cbn [Emit] in Hvar.
    apply seq_Done_inv in Hvar as (st6 & Hval & Hvar).
    pose proof (var_free_keeps value Hvalue st4) as Henv6.
    rewrite Hval in Henv6; cbn [snd] in Henv6.
    unfold seq, emit, declare_local in Hvar.
    cbn [fst snd env output labelCounter] in Hvar.
    injection Hvar as <-.
    apply seq_Done_inv in Hloop as (st7 & Hid & [= <-]).
    cbn [Emit] in Hid.
    unfold lookup_local in Hid. cbn [env locals] in Hid.
    rewrite lookup_insert_eq in Hid. rewrite Henv6, Henv4 in Hid.
    cbn [nextLocalOffset setUpEnvironment] in Hid.
    rewrite wrap_small in Hid by (unfold int_min, int_max; lia).
    change (fmt_d (-20 - 4)) with "-24" in Hid.
    unfold emit in Hid. cbn [env output labelCounter] in Hid. injection Hid as <-.
    cbn [output].
    exists (output st6 ++ ["  push {r0, ip}"])%list.
    rewrite <- !app_assoc. reflexivity.
Qed.

Lemma frame_layout_witness :
  (exists lines,
     output (snd (Emit sample_function initial_state))
     = (lines ++ ["  ldr r0, [fp, #-24]";
                  "  mov sp, fp"; "  mov r0, #0"; "  pop {fp, pc}"])%list)
  /\ (let st1 := appended initial_state ["  ldr r0, =5"] in
      Emit (Var "x" (Number 5)) initial_state
      = (Done tt,
         mkState
           (mkEnvironment
              (<["x" := nextLocalOffset (env st1) - 4]> (locals (env st1)))
              (nextLocalOffset (env st1) - 8))
           (labelCounter st1)
           (output st1 ++ ["  push {r0, ip}"])))
  /\ locals (setUpEnvironment ["a"; "b"]) !! "b" = Some (4 * Z.of_nat 1 - 16).
Proof.
  split; [|split].
  - apply (proj2 (proj2 frame_layout) "f" ["n"] [] "result" (Number 1)
             initial_state).
    + reflexivity.
    + reflexivity.
    + vm_compute. reflexivity.
  - apply (proj1 frame_layout "x" (Number 5) initial_state
             (appended initial_state ["  ldr r0, =5"])).
    + reflexivity.
    + vm_compute. split; discriminate.
  - apply (proj1 (proj2 (proj1 (proj2 frame_layout) ["a"; "b"])) 1%nat "b").
    + reflexivity.
    + intros k Hk. destruct k as [|[|k]]; [lia | lia | discriminate].
Defined.

(** C6.  A [Call] with more than four arguments and a [Function] with more
    than four parameters panic when emitted, before any line is written,
    with the messages about more than 4 arguments and more than 4 params.
    The text [function f(a,b,c,d,e){}] parses to completion to a
    [Function] node with five parameters, and compiling it ends in that
    panic (for every step bound from 6 on). *)
Theorem arity_overflow :
  (forall callee args st,
     (4 < length args)%nat ->
     Emit (Call callee args) st
     = (Panic "More than 4 arguments are not supported", st))
  /\ (forall name parameters body st,
        (4 < length parameters)%nat ->
        Emit (Function name parameters body) st
        = (Panic "More than 4 params is not supported", st))
  /\ (forall fuel, (6 <= fuel)%nat ->
        ParseStringToCompletion (parser fuel) "function f(a,b,c,d,e){}"
        = Done (Block [Function "f" ["a"; "b"; "c"; "d"; "e"] (Block [])])
        /\ compile fuel "function f(a,b,c,d,e){}"
           = (Panic "More than 4 params is not supported", initial_state)).
Proof.
  split; [|split].
  - intros callee args st Hlen. cbn [Emit].
    repeat (case_bool_decide; try lia). simpl. reflexivity.
  - intros name parameters body st Hlen. cbn [Emit].
    case_bool_decide; [reflexivity | lia].
  - intros fuel Hfuel.
    assert (Hparse : ParseStringToCompletion (parser 6) "function f(a,b,c,d,e){}"
                     = Done (Block [Function "f" ["a"; "b"; "c"; "d"; "e"] (Block [])]))
      by (vm_compute; reflexivity).
    split.
    + apply (parser_settled 6 fuel _ _ Hparse); [discriminate | assumption].
    + apply (compile_settled 6 fuel); [vm_compute; reflexivity | | assumption].
      rewrite Hparse. discriminate.
Qed.

Lemma arity_overflow_witness :
  Emit (Call "f" [Number 1; Number 2; Number 3; Number 4; Number 5]) initial_state
  = (Panic "More than 4 arguments are not supported", initial_state)
  /\ Emit (Function "f" ["a"; "b"; "c"; "d"; "e"] (Block [])) initial_state
     = (Panic "More than 4 params is not supported", initial_state)
  /\ compile 9 "function f(a,b,c,d,e){}"
     = (Panic "More than 4 params is not supported", initial_state).
Proof.
  split; [|split].
  - apply (proj1 arity_overflow). simpl. lia.
  - apply (proj1 (proj2 arity_overflow)). simpl. lia.
  - apply (proj2 (proj2 arity_overflow) 9%nat). lia.
Defined.

(** ** Structural comparison *)

Lemma all_equal_decides (l : list AST) :
  Forall (fun a => plain a = true ->
            forall b, plain b = true -> decides (Equals a (boxed b)) a b) l ->
  forallb plain l = true ->
  forall l', forallb plain l' = true -> length l = length l' ->
    decides_lists (all_equal Equals l (map boxed l')) l l'.
Proof.
  induction 1 as [|a l Ha _ IH]; intros Hl l' Hl' Hlen.
  - destruct l'; [|discriminate]. exists true. split; [reflexivity | tauto].
  - destruct l' as [|b l']; [discriminate|]. simpl in Hl, Hl', Hlen |- *.
    apply andb_prop in Hl as [Hpa Hpl]. apply andb_prop in Hl' as [Hpb Hpl'].
    destruct (Ha Hpa b Hpb) as (t & -> & Ht).
    destruct (IH Hpl l' Hpl' ltac:(lia)) as (t' & -> & Ht').
    destruct t; simpl.
    + exists t'. split; [reflexivity|]. rewrite Ht'.
      split; [intros ->; f_equal; apply Ht; reflexivity | intros [= _ ->]; reflexivity].
    + exists false. split; [reflexivity|].
      split; [discriminate | intros [= Hab _]; apply Ht; exact Hab].
Qed.

Lemma and_then_decides2 (r1 r2 : outcome bool) (a1 b1 a2 b2 : AST)
    (node : AST -> AST -> AST) :
  (forall x y x' y', node x y = node x' y' -> x = x' /\ y = y') ->
  decides r1 a1 b1 -> decides r2 a2 b2 ->
  decides (and_then r1 r2) (node a1 a2) (node b1 b2).
Proof.
  intros Hinj (t1 & -> & H1) (t2 & -> & H2). destruct t1; simpl.
  - exists t2. split; [reflexivity|]. rewrite H2. split.
    + intros ->. f_equal. apply H1; reflexivity.
    + intros Heq. apply Hinj in Heq. tauto.
  - exists false. split; [reflexivity|]. split; [discriminate|].
    intros Heq. apply Hinj in Heq. apply H1. tauto.
Qed.

Ltac different := exists false; split; [reflexivity | split; discriminate].

Lemma decides_unary (r : outcome bool) (a b : AST) (node : AST -> AST) :
  (forall x y, node x = node y -> x = y) ->
  decides r a b -> decides r (node a) (node b).
Proof.
  intros Hinj (t & -> & Ht). exists t. split; [reflexivity|]. rewrite Ht.
  split; [intros ->; reflexivity | apply Hinj].
Qed.

Lemma decides_named (r : outcome bool) (name name' : string) (a b : AST)
    (node : string -> AST -> AST) :
  (forall n x n' y, node n x = node n' y -> n = n' /\ x = y) ->
  decides r a b ->
  decides (if bool_decide (name = name') then r else Done false)
    (node name a) (node name' b).
Proof.
  intros Hinj (t & -> & Ht). case_bool_decide as Hn.
  - subst. exists t. split; [reflexivity|]. rewrite Ht.
    split; [intros ->; reflexivity | intros Heq; apply Hinj in Heq; tauto].
  - exists false. split; [reflexivity|]. split; [discriminate|].
    intros Heq. apply Hinj in Heq. tauto.
Qed.

Lemma decides_list_node (l l' : list AST) (node : list AST -> AST)
    (r : outcome bool) :
  (forall x y, node x = node y -> x = y) ->
  (length l = length l' -> decides_lists r l l') ->
  decides (if bool_decide (length l <> length (map boxed l')) then Done false else r)
    (node l) (node l').
Proof.
  intros Hinj Hr. rewrite length_map. case_bool_decide as Hlen.
  - exists false. split; [reflexivity|]. split; [discriminate|].
    intros Heq. apply Hinj in Heq. subst. contradiction.
  - assert (Hl : length l = length l') by lia.
    destruct (Hr Hl) as (t & -> & Ht). exists t. split; [reflexivity|].
    rewrite Ht. split; [intros ->; reflexivity | apply Hinj].
Qed.

Lemma decides_call (callee callee' : string) (l l' : list AST) (r : outcome bool) :
  (length l = length l' -> decides_lists r l l') ->
  decides
    (if bool_decide (callee <> callee') || bool_decide (length l <> length (map boxed l'))
     then Done false else r)
    (Call callee l) (Call callee' l').
Proof.
  intros Hr. case_bool_decide as Hc; simpl.
  - exists false. split; [reflexivity|]. split; [discriminate|].
    intros [= -> _]. contradiction.
  - subst callee'.
    apply (decides_list_node l l' (Call callee)); [|exact Hr].
    intros x y [= ->]; reflexivity.
Qed.

Lemma decides_if (r1 r2 r3 : outcome bool) (a1 a2 a3 b1 b2 b3 : AST) :
  decides r1 a1 b1 -> decides r2 a2 b2 -> decides r3 a3 b3 ->
  decides (and_then r1 (and_then r2 r3)) (If a1 a2 a3) (If b1 b2 b3).
Proof.
  intros (t1 & -> & H1) (t2 & -> & H2) (t3 & -> & H3).
  destruct t1; simpl.
  - destruct t2; simpl.
    + exists t3. split; [reflexivity|]. rewrite H3. split.
      * intros ->. f_equal; [apply H1 | apply H2]; reflexivity.
      * intros [= _ _ ->]. reflexivity.
    + exists false. split; [reflexivity|]. split; [discriminate|].
      intros [= _ E _]. apply H2. exact E.
  - exists false. split; [reflexivity|]. split; [discriminate|].
    intros [= E _ _]. apply H1. exact E.
Qed.

Lemma decides_function (name name' : string) (ps ps' : list string)
    (r : outcome bool) (a b : AST) :
  decides r a b ->
  decides
    (if bool_decide (name <> name') || bool_decide (length ps <> length ps')
     then Done false
     else if bool_decide (ps = ps') then r else Done false)
    (Function name ps a) (Function name' ps' b).
Proof.
  intros (t & -> & Ht). case_bool_decide as Hn; simpl.
  - exists false. split; [reflexivity|]. split; [discriminate|].
    intros [= -> _ _]. contradiction.
  - subst name'.
    case_bool_decide as Hlen; simpl.
    + exists false. split; [reflexivity|]. split; [discriminate|].
      intros [= -> _]. contradiction.
    + case_bool_decide as Hps.
      * subst ps'. exists t. split; [reflexivity|]. rewrite Ht.
        split; [intros ->; reflexivity | intros [= ->]; reflexivity].
      * exists false. split; [reflexivity|]. split; [discriminate|].
        intros [= -> _]. contradiction.
Qed.

Lemma decides_payload {A} `{EqDecision A} (x y : A) (node : A -> AST) :
  (forall u v, node u = node v -> u = v) ->
  decides (Done (bool_decide (x = y))) (node x) (node y).
Proof.
  intros Hinj. exists (bool_decide (x = y)). split; [reflexivity|].
  rewrite bool_decide_eq_true. split; [intros ->; reflexivity | apply Hinj].
Qed.

Lemma Equals_pointwise (a : AST) :
  plain a = true ->
  forall b, plain b = true -> decides (Equals a (boxed b)) a b.
Proof.
  induction a using AST_nested_ind; intros Hpa b Hpb;
    try discriminate Hpa;
    destruct b; try discriminate Hpb; cbn [Equals boxed];
    simpl in Hpa, Hpb;
    repeat match goal with
           | H : _ && _ = true |- _ => apply andb_prop in H as [? ?]
           end;
    try different;
    first
      [ apply decides_payload; intros ? ? [= ->]; reflexivity
      | apply decides_unary; [intros ? ? [= ->]; reflexivity | auto]
      | apply and_then_decides2; [intros ? ? ? ? [= -> ->]; tauto | auto | auto]
      | apply decides_if; auto
      | apply decides_named; [intros ? ? ? ? [= -> ->]; tauto | auto]
      | apply decides_function; auto
      | apply decides_call; intros Hlen; apply all_equal_decides; assumption
      | apply decides_list_node;
          [intros ? ? [= ->]; reflexivity
          | intros Hlen; apply all_equal_decides; assumption] ].
Qed.

Lemma Equals_value_operand (a other : AST) :
  plain a = true -> is_pointer other = false -> Equals a other = Done false.
Proof.
  intros Ha Ho. destruct a; try discriminate Ha; cbn [Equals];
    destruct other; try discriminate Ho; reflexivity.
Qed.

(** C4.  What the code does instead of comparing any two nodes pointwise:
    [Equals] answers [true] only when [other] holds a pointer to a node.
    Against a tree held through pointers it does compare variant, payload
    and children pointwise; against a node struct, a structurally
    identical copy included, it answers [false], as in
    [Number{1}.Equals(Number{1})]. *)
Theorem Equals_requires_pointer :
  Equals (Number 1) (Number 1) = Done false
  /\ Equals (Add (Number 1) (Number 2)) (Add (Number 1) (Number 2)) = Done false
  /\ (forall a other, Equals a other = Done true -> is_pointer other = true)
  /\ (forall a other,
        plain a = true -> is_pointer other = false -> Equals a other = Done false)
  /\ (forall a b,
        plain a = true -> plain b = true ->
        exists t : bool,
          Equals a (boxed b) = Done t /\ (t = true <-> a = b)).
Proof.
  split; [reflexivity | split; [reflexivity|]].
  split; [|split; [exact Equals_value_operand | intros a b Ha Hb; exact (Equals_pointwise a Ha b Hb)]].
  induction a; intros other Heq; cbn [Equals] in Heq;
    try solve [destruct other; try reflexivity; discriminate Heq].
  apply (IHa other Heq).
Qed.

Lemma Equals_requires_pointer_witness :
  is_pointer (Ptr (Number 1)) = true
  /\ Equals (Call "f" [Number 1; Id "x"]) (Call "f" [Number 1; Id "x"]) = Done false
  /\ exists t : bool,
       Equals (Call "f" [Number 1; Id "x"]) (boxed (Call "f" [Number 1; Id "x"]))
       = Done t
       /\ (t = true <-> Call "f" [Number 1; Id "x"] = Call "f" [Number 1; Id "x"]).
Proof.
  split; [|split].
  - exact (proj1 (proj2 (proj2 Equals_requires_pointer))
             (Number 1) (Ptr (Number 1)) eq_refl).
  - exact (proj1 (proj2 (proj2 (proj2 Equals_requires_pointer)))
             (Call "f" [Number 1; Id "x"]) (Call "f" [Number 1; Id "x"])
             eq_refl eq_refl).
  - exact (proj2 (proj2 (proj2 (proj2 Equals_requires_pointer)))
             (Call "f" [Number 1; Id "x"]) (Call "f" [Number 1; Id "x"])
             eq_refl eq_refl).
Defined.

(** ** A function named [__main] *)

Lemma Id_unbound (x : string) (st : state) :
  locals (env st) !! x = None ->
  Emit (Id x) st = (Panic ("Undefined variable: " +:+ x), st).
Proof. intros Hx. cbn [Emit]. unfold lookup_local. rewrite Hx. reflexivity. Qed.

Lemma Assign_unbound (x : string) (value : AST) (st st1 : state) :
  Emit value st = (Done tt, st1) ->
  locals (env st1) !! x = None ->
  Emit (Assign x value) st = (Panic ("Undefined variable: " +:+ x), st1).
Proof.
  intros Hv Hx. cbn [Emit]. rewrite (seq_Done _ _ _ _ Hv).
  unfold lookup_local. rewrite Hx. reflexivity.
Qed.

(** * The claims about the parser *)

(** C3 as stated fails twice.  When the parser produces no result the
    driver panics with a message that reports neither an index nor the
    rest of the input; and the driver compares the index of the result
    cursor with the length of that cursor's own text, so a parser that
    hands back a cursor over another text is accepted although the index
    is not the length of the input. *)
Lemma driver_reports_no_index :
  ParseStringToCompletion (Regexp "a") "b"
  = Panic "Parse error: could not parse anything at all"
  /\ (forall i tail,
        "Parse error: could not parse anything at all" <> parse_error_at i tail)
  /\ ParseStringToCompletion
       (parserOf (fun _ => Done (Some (mkResult 7 (NewSource "" 0))))) "abc"
     = Done 7.
Proof.
  split; [vm_compute; reflexivity|]. split; [|reflexivity].
  intros i tail. apply not_an_index_report.
Qed.

(** C3, amended.  For a parser whose [Parse] is not nil, the driver returns
    the parsed value exactly when the parser, run from index 0 of the
    input, succeeds with a cursor whose index is the length of the cursor's
    text; that text is the input for every parser that keeps the cursor
    invariants, as the kernel's do.  When the parser produces no result the
    driver panics saying nothing could be parsed; when the result cursor is
    short of the end it panics reporting the index and the remaining tail.
    A nil [Parse] is a panic of its own. *)
Theorem driver_succeeds_iff_input_consumed :
  forall (T : Type) (p : Parser T) (text : string),
    (Parse p = None ->
       ParseStringToCompletion p text
       = Panic "Parse error: parser has nil Parse function")
    /\ (forall parse, Parse p = Some parse ->
          (forall v,
             ParseStringToCompletion p text = Done v
             <-> exists r,
                   parse (NewSource text 0) = Done (Some r)
                   /\ value r = v
                   /\ index (source r) = Z.of_nat (String.length (str (source r))))
          /\ (monotone p ->
              forall v,
                ParseStringToCompletion p text = Done v
                <-> exists r,
                      parse (NewSource text 0) = Done (Some r)
                      /\ value r = v
                      /\ index (source r) = Z.of_nat (String.length text))
          /\ (parse (NewSource text 0) = Done None ->
              ParseStringToCompletion p text
              = Panic "Parse error: could not parse anything at all")
          /\ (forall r,
                parse (NewSource text 0) = Done (Some r) ->
                0 <= index (source r) < Z.of_nat (String.length (str (source r))) ->
                ParseStringToCompletion p text
                = Panic (parse_error_at (index (source r))
                           (string_drop (Z.to_nat (index (source r)))
                              (str (source r)))))).
Proof.
  intros T p text. split.
  - intros Hnil. unfold ParseStringToCompletion. rewrite Hnil. reflexivity.
  - intros parse Hp.
    assert (Hiff : forall v,
             ParseStringToCompletion p text = Done v
             <-> exists r,
                   parse (NewSource text 0) = Done (Some r)
                   /\ value r = v
                   /\ index (source r) = Z.of_nat (String.length (str (source r)))).
    { intros v. unfold ParseStringToCompletion. rewrite Hp.
      destruct (parse (NewSource text 0)) as [[r|]| |] eqn:Hr.
      - case_bool_decide as Hne.
        + split.
          * case_bool_decide; discriminate.
          * intros (r' & [= <-] & _ & Hidx). contradiction.
        + split.
          * intros [= <-]. exists r. repeat split.
            destruct (decide (index (source r)
                              = Z.of_nat (String.length (str (source r)))));
              [assumption | contradiction].
          * intros (r' & [= <-] & <- & _). reflexivity.
      - split; [discriminate | intros (r & Hr' & _); discriminate].
      - split; [discriminate | intros (r & Hr' & _); discriminate].
      - split; [discriminate | intros (r & Hr' & _); discriminate]. }
    split; [exact Hiff|]. split; [|split].
    + intros Hmono v. rewrite Hiff. split; intros (r & Hr & Hv & Hidx); exists r;
        (split; [exact Hr|]; split; [exact Hv|]);
        assert (Hb : in_bounds (NewSource text 0))
          by (unfold in_bounds; simpl; lia);
        destruct (Hmono parse Hp _ _ Hb Hr) as [Hs _]; simpl in Hs;
        rewrite Hs in *; assumption.
    + intros Hr. unfold ParseStringToCompletion. rewrite Hp, Hr. reflexivity.
    + intros r Hr Hidx. unfold ParseStringToCompletion. rewrite Hp, Hr.
      rewrite bool_decide_eq_true_2 by lia.
      rewrite bool_decide_eq_true_2 by lia. reflexivity.
Qed.

Lemma driver_succeeds_iff_input_consumed_witness :
  ParseStringToCompletion (Regexp "a") "ab"
  = Panic (parse_error_at 1 "b").
Proof.
  apply (proj2 (proj2 (proj2
           (proj2 (driver_succeeds_iff_input_consumed
                     string (Regexp "a") "ab") _ eq_refl)))
           (mkResult "a" (NewSource "ab" 1))).
  - reflexivity.
  - simpl. lia.
Defined.

(** C8 as stated fails: on a parser that succeeds without consuming input,
    such as [Constant], the loop of [Many] never ends; no bound on the
    number of iterations lets it return. *)
Lemma many_of_constant_never_returns :
  ~ exists (fuel : nat) (r : option (ParseResult (list nat))),
      invoke (Many fuel (Constant 0%nat)) (NewSource "abc" 0) = Done r.
Proof.
  intros (fuel & r & Hr). unfold invoke, Many, Constant in Hr. simpl in Hr.
  rewrite Many_loop_Constant_diverges in Hr. discriminate.
Qed.

(** C8, amended.  [Many] of a parser with a nil [Parse] succeeds at once
    with no values.  For a parser that returns at every cursor over the
    text and moves strictly forward on each success, [Many] terminates and
    succeeds from every cursor within bounds: it yields the values of the
    successive applications, in order, and the cursor at which the parser
    first failed, which is the cursor after the last success (the cursor
    it started from when the parser fails immediately).  One iteration more
    than the bytes left is bound enough. *)
Theorem many_terminates_on_consuming_parsers :
  forall (T : Type) (p : Parser T) (src : Source),
    (Parse p = None ->
       forall fuel, invoke (Many fuel p) src = Done (Some (mkResult [] src)))
    /\ (forall parse,
          Parse p = Some parse ->
          consumes parse (str src) ->
          in_bounds src ->
          exists vs src',
            repeats parse src vs src'
            /\ forall fuel, (remaining_bytes src < fuel)%nat ->
                 invoke (Many fuel p) src = Done (Some (mkResult vs src'))).
Proof.
  intros T p src. split.
  - intros Hnil fuel. unfold invoke, Many; simpl. rewrite Hnil. reflexivity.
  - intros parse Hp Hc Hb.
    destruct (Many_loop_repeats parse (str src) Hc (remaining_bytes src) src
                eq_refl Hb (le_n _)) as (vs & src' & Hrep & Hloop).
    exists vs, src'. split; [exact Hrep|].
    intros fuel Hfuel. unfold invoke, Many; simpl. rewrite Hp.
    apply (Hloop fuel [] Hfuel).
Qed.

(** A pattern that starts with [^] matches at the start of the text or
    not at all. *)
Lemma anchored_only_at_start (re : list RE2.item) (c : ascii) (s : string) (pos : nat) :
  RE2.find_from (RE2.BeginText :: re) (Some c) s pos = None.
Proof.
  revert c pos. induction s as [|a s IH]; intros c pos; simpl; [reflexivity|].
  apply IH.
Qed.

Lemma digit_match (s : Source) :
  in_bounds s ->
  Match s "[0-9]" = Done None
  \/ exists c,
       Match s "[0-9]"
       = Done (Some (mkResult (String c EmptyString) (NewSource (str s) (index s + 1)))).
Proof.
  intros Hb. unfold Match. case_bool_decide as Hend; [left; reflexivity|].
  change (Compile ("^" +:+ TrimPrefix "[0-9]" "^"))
    with (Some [RE2.BeginText; RE2.One (RE2.AClass [("0"%char, "9"%char)])]).
  case_bool_decide as Hneg; [unfold in_bounds in Hb; lia|].
  assert (Hlen : (0 < String.length (string_drop (Z.to_nat (index s)) (str s)))%nat).
  { rewrite string_drop_length. lia. }
  destruct (string_drop (Z.to_nat (index s)) (str s)) as [|c rest];
    [simpl in Hlen; lia|].
  cbn [FindStringIndex re2 RE2.FindStringIndex RE2.find_from RE2.match_items RE2.one].
  destruct (RE2.atom_matches _ c).
  - right. exists c. cbn. destruct rest; reflexivity.
  - left. cbn [option_map fmap option_fmap]. rewrite anchored_only_at_start. reflexivity.
Qed.

Lemma digit_consumes (text : string) :
  consumes (fun src => Match src "[0-9]") text.
Proof.
  intros s Hs Hb. destruct (digit_match s Hb) as [Hnone | [c Hc]].
  - left. exact Hnone.
  - right. eexists. split; [exact Hc|]. simpl. split; [exact Hs|].
    split; [lia|].
    assert (Hlt : index s < Z.of_nat (String.length (str s))).
    { unfold Match in Hc. case_bool_decide; [discriminate | lia]. }
    rewrite <- Hs. lia.
Qed.

Lemma many_terminates_on_consuming_parsers_witness :
  exists vs src',
    repeats (fun src => Match src "[0-9]") (NewSource "42;" 0) vs src'
    /\ forall fuel, (remaining_bytes (NewSource "42;" 0) < fuel)%nat ->
         invoke (Many fuel (Regexp "[0-9]")) (NewSource "42;" 0)
         = Done (Some (mkResult vs src')).
Proof.
  apply (proj2 (many_terminates_on_consuming_parsers
                  string (Regexp "[0-9]") (NewSource "42;" 0))
           (fun src => Match src "[0-9]")).
  - reflexivity.
  - apply digit_consumes.
  - unfold in_bounds; simpl; lia.
Defined.

(** C9.  Every combinator of the kernel keeps the cursor invariants, given
    that the regular-expression library reports matches inside the text it
    is given; so does the grammar.  For a parser that keeps them, a success
    from a cursor within bounds returns a cursor over the same text whose
    index lies between the original index and the length of the text.  A
    failure is the nil result, which holds no cursor. *)
Theorem cursor_monotonicity :
  (forall `{RegexpLib},
     bounded_find ->
     (forall pattern, monotone (Regexp pattern))
     /\ (forall T (v : T), monotone (Constant v))
     /\ (forall T (parsers : list (Parser T)),
           Forall monotone parsers -> monotone (Or parsers))
     /\ (forall T fuel (p : Parser T), monotone p -> monotone (Many fuel p))
     /\ (forall T (p : Parser T), monotone p -> monotone (Maybe p))
     /\ (forall T U (p : Parser T) (callback : T -> Parser U),
           monotone p -> (forall v, monotone (callback v)) ->
           monotone (Bind p callback))
     /\ (forall T U (p : Parser T) (q : Parser U),
           monotone p -> monotone q -> monotone (And p q))
     /\ (forall T U (p : Parser T) (callback : T -> U),
           monotone p -> monotone (Map p callback)))
  /\ (forall fuel (p : Parser AST),
        p = expression fuel \/ p = statement fuel \/ p = parser fuel ->
        forall (src : Source) (r : ParseResult AST),
          0 <= index src <= Z.of_nat (String.length (str src)) ->
          invoke p src = Done (Some r) ->
          str (source r) = str src
          /\ index src <= index (source r) <= Z.of_nat (String.length (str src))).
Proof.
  split.
  - intros L Hlib.
    split; [intros pattern; apply Regexp_monotone, Hlib|].
    split; [intros; apply Constant_monotone|].
    split; [intros; apply Or_monotone; assumption|].
    split; [intros; apply Many_monotone; assumption|].
    split; [intros; apply Maybe_monotone; assumption|].
    split; [intros; apply Bind_monotone; assumption|].
    split; [intros; apply And_monotone; assumption|].
    intros; apply Map_monotone; assumption.
  - intros fuel p Hp src r Hb Hr.
    assert (Hmono : monotone p).
    { destruct Hp as [-> | [-> | ->]];
        [apply expression_monotone | apply statement_monotone | apply parser_monotone]. }
    unfold invoke in Hr. destruct (Parse p) as [f|] eqn:Hf; [|discriminate].
    exact (Hmono f Hf src r Hb Hr).
Qed.

Lemma cursor_monotonicity_witness :
  let src := NewSource "x = 1 + 2; y" 4 in
  let r := mkResult (Add (Number 1) (Number 2)) (NewSource "x = 1 + 2; y" 9) in
  str (source r) = str src
  /\ index src <= index (source r) <= Z.of_nat (String.length (str src)).
Proof.
  apply (proj2 cursor_monotonicity 4%nat (expression 4)).
  - left; reflexivity.
  - simpl; lia.
  - vm_compute; reflexivity.
Defined.

(** * Further properties of the parser kernel *)

Lemma prefix_caret (pattern : string) : String.prefix "^" ("^" +:+ pattern) = true.
Proof. simpl. destruct pattern; reflexivity. Qed.

(** X1.  [Match] drops one leading [^] of its pattern before it anchors the
    pattern itself: a pattern and the same pattern behind a [^] match
    alike. *)
Theorem Match_ignores_leading_caret :
  forall `{RegexpLib} (pattern : string) (src : Source),
    String.prefix "^" pattern = false ->
    Match src ("^" +:+ pattern) = Match src pattern.
Proof.
  intros L pattern src Hp. unfold Match, TrimPrefix.
  rewrite prefix_caret, Hp. reflexivity.
Qed.

Lemma Match_ignores_leading_caret_witness :
  Match (NewSource "12ab" 0) ("^" +:+ "[0-9]+") = Match (NewSource "12ab" 0) "[0-9]+".
Proof.
  apply Match_ignores_leading_caret. reflexivity.
Defined.

(** X2.  A success of [Match] starts strictly inside the text, keeps the
    text, and moves the cursor forward by exactly the length of the value
    it returns; at the end of the text, and beyond, [Match] fails for
    every pattern, without looking at it. *)
Theorem Match_success_shape :
  forall `{RegexpLib} (pattern : string) (src : Source),
    (Z.of_nat (String.length (str src)) <= index src -> Match src pattern = Done None)
    /\ (forall r, Match src pattern = Done (Some r) ->
          0 <= index src < Z.of_nat (String.length (str src))
          /\ str (source r) = str src
          /\ index (source r) = index src + Z.of_nat (String.length (value r))).
Proof.
  intros L pattern src. split.
  - intros Hend. unfold Match. rewrite bool_decide_eq_true_2 by assumption. reflexivity.
  - intros r. unfold Match. case_bool_decide as Hend; [discriminate|].
    destruct (Compile _) as [re|]; [|discriminate].
    case_bool_decide as Hneg; [discriminate|].
    destruct (FindStringIndex re _) as [[lo hi]|]; [|discriminate].
    intros [= <-]. simpl. repeat split; lia.
Qed.

Lemma Match_success_shape_witness :
  0 <= 4 < Z.of_nat (String.length "x = 12;")
  /\ str (NewSource "x = 12;" 6) = "x = 12;"
  /\ 6 = 4 + Z.of_nat (String.length "12").
Proof.
  apply (proj2 (Match_success_shape "[0-9]+" (NewSource "x = 12;" 4))
           (mkResult "12" (NewSource "x = 12;" 6))).
  reflexivity.
Defined.

(** ** The value of a match is the text passed over *)

Lemma lex_caret (pattern : string) :
  RE2.lex RE2.LTop ("^" +:+ pattern) = cons RE2.TBegin <$> RE2.lex RE2.LTop pattern.
Proof. reflexivity. Qed.

Lemma compile_anchored (pattern : string) (re : list RE2.item) :
  RE2.Compile ("^" +:+ pattern) = Some re -> exists re', re = RE2.BeginText :: re'.
Proof.
  unfold RE2.Compile. rewrite lex_caret.
  destruct (RE2.lex RE2.LTop pattern) as [ts|]; [|discriminate].
  cbn [fmap option_fmap option_map RE2.build].
  destruct (RE2.is_quantifier ts); [discriminate|].
  destruct (RE2.build false ts) as [re'|]; [|discriminate].
  intros [= <-]. exists re'. reflexivity.
Qed.

Lemma anchored_find (re : list RE2.item) (s : string) (lo hi : nat) :
  RE2.FindStringIndex (RE2.BeginText :: re) s = Some (lo, hi) -> lo = O.
Proof.
  unfold RE2.FindStringIndex. destruct s as [|c s]; simpl.
  - destruct (RE2.match_items re None EmptyString); [|discriminate].
    intros [= <- _]. reflexivity.
  - destruct (RE2.match_items re None (String c s)).
    + intros [= <- _]. reflexivity.
    + rewrite anchored_only_at_start. discriminate.
Qed.

Lemma substring_drop (n m : nat) (s : string) :
  substring 0 m (string_drop n s) = substring n m s.
Proof.
  revert s. induction n as [|n IH]; intros s; simpl.
  - reflexivity.
  - destruct s as [|c s]; simpl.
    + destruct m; reflexivity.
    + apply IH.
Qed.

Lemma substring_full_length (m : nat) (s : string) :
  (m <= String.length s)%nat -> String.length (substring 0 m s) = m.
Proof.
  revert s. induction m as [|m IH]; intros s Hm.
  - destruct s; reflexivity.
  - destruct s as [|c s]; simpl in *; [lia|]. rewrite IH by lia. reflexivity.
Qed.

(** X3.  With the patterns of the grammar's fragment, the value of a
    successful [Match] is exactly the text between the cursor it started
    from and the cursor it returns. *)
Theorem Match_value_is_consumed_text :
  forall (pattern : string) (src : Source) (r : ParseResult string),
    Match src pattern = Done (Some r) ->
    value r
    = substring (Z.to_nat (index src))
        (Z.to_nat (index (source r) - index src)) (str src).
Proof.
  intros pattern src r. unfold Match.
  case_bool_decide as Hend; [discriminate|].
  destruct (Compile _) as [re|] eqn:Hre; [|discriminate].
  case_bool_decide as Hneg; [discriminate|].
  destruct (FindStringIndex re _) as [[lo hi]|] eqn:Hfind; [|discriminate].
  intros [= <-]. simpl.
  apply compile_anchored in Hre as [re' ->].
  pose proof (re2_bounded_find _ _ _ _ Hfind) as Hb.
  apply anchored_find in Hfind. subst lo.
  rewrite Nat.sub_0_r in *.
  rewrite substring_full_length by lia.
  replace (index src + Z.of_nat hi - index src) with (Z.of_nat hi) by lia.
  rewrite Nat2Z.id. apply substring_drop.
Qed.

Lemma Match_value_is_consumed_text_witness :
  "while" = substring (Z.to_nat 3) (Z.to_nat (8 - 3)) "a; while (x) y;".
Proof.
  apply (Match_value_is_consumed_text "while\b" (NewSource "a; while (x) y;" 3)
           (mkResult "while" (NewSource "a; while (x) y;" 8))).
  reflexivity.
Defined.

(** ** Choice, iteration and sequencing *)

Lemma Or_loop_app {T} (ps qs : list (Parser T)) (src : Source) :
  Or_loop (ps ++ qs) src
  = match Or_loop ps src with
    | Done None => Or_loop qs src
    | r => r
    end.
Proof.
  induction ps as [|p ps IH]; simpl; [reflexivity|].
  destruct (Parse p) as [f|]; [|exact IH].
  destruct (f src) as [[r|]| |]; try reflexivity. exact IH.
Qed.

(** X4.  [Or] is a left-biased choice that composes: the choice over a
    concatenation is the choice between the two choices; a parser with a
    nil [Parse] is passed over; a success, a panic or a non-terminating
    run of an alternative ends the choice there, and only a failure lets
    the next alternative run; the empty choice fails. *)
Theorem Or_composes :
  forall `{RegexpLib} (T : Type) (ps qs : list (Parser T)) (p : Parser T)
         (src : Source),
    invoke (Or (ps ++ qs)) src = invoke (Or [Or ps; Or qs]) src
    /\ invoke (Or (mkParser None :: ps)) src = invoke (Or ps) src
    /\ invoke (Or ([] : list (Parser T))) src = Done None
    /\ (forall parse, Parse p = Some parse ->
          invoke (Or (p :: ps)) src
          = match parse src with
            | Done None => invoke (Or ps) src
            | r => r
            end).
Proof.
  intros L T ps qs p src. unfold invoke; simpl. repeat split.
  - rewrite Or_loop_app. destruct (Or_loop ps src) as [[r|]| |]; try reflexivity.
    destruct (Or_loop qs src) as [[r|]| |]; reflexivity.
  - intros parse ->. reflexivity.
Qed.

Lemma Or_composes_witness :
  invoke (Or (Regexp "b" :: [Regexp "a+"; Regexp "a"])) (NewSource "aab" 0)
  = match Match (NewSource "aab" 0) "b" with
    | Done None => invoke (Or [Regexp "a+"; Regexp "a"]) (NewSource "aab" 0)
    | r => r
    end.
Proof.
  apply (proj2 (proj2 (proj2 (Or_composes string [Regexp "a+"; Regexp "a"] []
                                 (Regexp "b") (NewSource "aab" 0))))
           (fun s => Match s "b")).
  reflexivity.
Defined.

Lemma Many_loop_sound {T} (parse : Source -> parsed T) (fuel : nat) :
  forall acc src r,
    Many_loop fuel parse acc src = Done r ->
    exists vs src',
      r = Some (mkResult (acc ++ vs)%list src') /\ repeats parse src vs src'.
Proof.
  induction fuel as [|fuel IH]; intros acc src r; simpl; [discriminate|].
  destruct (parse src) as [[res|]| |] eqn:Hp; try discriminate.
  - intros Hloop. destruct (IH _ _ _ Hloop) as (vs & src' & -> & Hrep).
    exists (value res :: vs), src'. split.
    + rewrite <- app_assoc. reflexivity.
    + econstructor; eassumption.
  - intros [= <-]. exists [], src. split.
    + rewrite app_nil_r. reflexivity.
    + constructor. exact Hp.
Qed.

(** X5.  Whatever the parser and however long the loop runs, [Many] never
    reports a failure, and when it returns, its value is the list of the
    values of the successive applications of the parser, in order, and its
    cursor is the one at which the parser first failed. *)
Theorem Many_returns_the_iteration :
  forall `{RegexpLib} (T : Type) (fuel : nat) (p : Parser T)
         (parse : Source -> parsed T) (src : Source)
         (r : option (ParseResult (list T))),
    Parse p = Some parse ->
    invoke (Many fuel p) src = Done r ->
    exists res,
      r = Some res
      /\ repeats parse src (value res) (source res)
      /\ parse (source res) = Done None.
Proof.
  intros L T fuel p parse src r Hp. unfold invoke, Many; simpl. rewrite Hp.
  intros Hloop. destruct (Many_loop_sound parse fuel [] src r Hloop)
    as (vs & src' & -> & Hrep).
  eexists. split; [reflexivity|]. simpl. split; [exact Hrep|].
  clear Hloop. induction Hrep; assumption.
Qed.

Lemma Many_returns_the_iteration_witness :
  exists res,
    Some (mkResult ["a"; "a"] (NewSource "aab" 2)) = Some res
    /\ repeats (fun s => Match s "a") (NewSource "aab" 0) (value res) (source res)
    /\ Match (source res) "a" = Done None.
Proof.
  apply (Many_returns_the_iteration string 5 (Regexp "a")
           (fun s => Match s "a") (NewSource "aab" 0)).
  - reflexivity.
  - reflexivity.
Defined.

Lemma result_eta {T} (r : ParseResult T) : mkResult (value r) (source r) = r.
Proof. destruct r; reflexivity. Qed.

(** X6.  [Bind] with [Constant] obeys the laws of sequencing.  Binding a
    parser to [Constant] changes nothing; binding [Constant v] to a
    callback is the callback's parser at [v]; and two binds may be nested
    either way.  The last two need the callback's parsers to have a [Parse]
    function: on a nil one [Bind] fails where a direct call panics. *)
Theorem Bind_laws :
  forall `{RegexpLib} (T U V : Type) (p : Parser T) (k : T -> Parser U)
         (h : U -> Parser V) (v : T) (src : Source),
    invoke (Bind p (fun x => Constant x)) src = invoke p src
    /\ (Parse (k v) <> None ->
        invoke (Bind (Constant v) k) src = invoke (k v) src)
    /\ ((forall x, Parse (k x) <> None) ->
        invoke (Bind (Bind p k) h) src
        = invoke (Bind p (fun x => Bind (k x) h)) src).
Proof.
  intros L T U V p k h v src. split; [|split].
  - repeat (progress (unfold invoke, Bind, parserOf; cbn)).
    destruct (Parse p) as [f|]; [|reflexivity].
    destruct (f src) as [[r|]| |]; try reflexivity.
    rewrite result_eta. reflexivity.
  - intros Hk. repeat (progress (unfold invoke, Bind, Constant, parserOf; cbn)).
    destruct (Parse (k v)); [reflexivity | contradiction].
  - intros Hk. repeat (progress (unfold invoke, Bind, parserOf; cbn)).
    destruct (Parse p) as [f|]; [|reflexivity].
    destruct (f src) as [[r|]| |]; try reflexivity.
    specialize (Hk (value r)).
    destruct (Parse (k (value r))) as [g|]; [reflexivity | contradiction].
Qed.

Lemma Bind_laws_witness :
  invoke (Bind (Constant "x") (fun name => Regexp name)) (NewSource "xy" 0)
  = invoke (Regexp "x") (NewSource "xy" 0)
  /\ invoke (Bind (Bind (Regexp "x") (fun _ => Regexp "y")) (fun v => Constant v))
       (NewSource "xy" 0)
     = invoke (Bind (Regexp "x") (fun _ => Bind (Regexp "y") (fun v => Constant v)))
         (NewSource "xy" 0).
Proof.
  split.
  - apply (proj1 (proj2 (Bind_laws string string string (Regexp "x")
                           (fun name => Regexp name) (fun v => Constant v)
                           "x" (NewSource "xy" 0)))).
    discriminate.
  - apply (proj2 (proj2 (Bind_laws string string string (Regexp "x")
                           (fun _ => Regexp "y") (fun v => Constant v)
                           "x" (NewSource "xy" 0)))).
    discriminate.
Defined.

(** X7.  [Map] changes the value and nothing else: it succeeds, fails,
    panics or runs on exactly as the parser does, with the same cursor, and
    two maps in a row are the map of the composed function. *)
Theorem Map_law :
  forall `{RegexpLib} (T U V : Type) (p : Parser T) (f : T -> U) (g : U -> V)
         (src : Source),
    invoke (Map p f) src
    = match invoke p src with
      | Done (Some r) => Done (Some (mkResult (f (value r)) (source r)))
      | Done None => Done None
      | Panic msg => Panic msg
      | Diverge => Diverge
      end
    /\ invoke (Map (Map p f) g) src = invoke (Map p (fun x => g (f x))) src.
Proof.
  intros L T U V p f g src. split.
  - repeat (progress (unfold invoke, Map, Bind, Constant, parserOf; cbn)).
    destruct (Parse p) as [parse|]; [|reflexivity].
    destruct (parse src) as [[r|]| |]; reflexivity.
  - repeat (progress (unfold invoke, Map, Bind, Constant, parserOf; cbn)).
    destruct (Parse p) as [parse|]; [|reflexivity].
    destruct (parse src) as [[r|]| |]; reflexivity.
Qed.

(** X8.  [Maybe] never reports a failure: where the parser fails it
    succeeds with the nil marker at the cursor it was given.  For a parser
    with a [Parse] function it is the choice between the parser, its value
    marked present, and the constant nil marker. *)
Theorem Maybe_is_a_choice :
  forall `{RegexpLib} (T : Type) (p : Parser T) (src : Source),
    invoke (Maybe p) src <> Done None
    /\ (Parse p <> None ->
        invoke (Maybe p) src
        = invoke (Or [Map p (fun v => Some v); Constant None]) src).
Proof.
  intros L T p src. split.
  - unfold invoke, Maybe, parserOf; simpl.
    destruct (Parse p) as [f|]; [|discriminate].
    destruct (f src) as [[r|]| |]; discriminate.
  - intros Hp.
    repeat (progress (unfold invoke, Maybe, Or, Map, Bind, Constant, parserOf; cbn)).
    destruct (Parse p) as [f|]; [|contradiction].
    destruct (f src) as [[r|]| |]; reflexivity.
Qed.

Lemma Maybe_is_a_choice_witness :
  invoke (Maybe (Regexp "!")) (NewSource "!x" 0)
  = invoke (Or [Map (Regexp "!") (fun v => Some v); Constant None]) (NewSource "!x" 0).
Proof.
  apply (proj2 (Maybe_is_a_choice string (Regexp "!") (NewSource "!x" 0))).
  discriminate.
Defined.

(** * Further properties of the emitter *)

(** ** Standard output *)

(** X9.  Emission only appends to standard output and never reads it:
    started from the same environment and label counter over two different
    outputs, a node ends the same way, in the same environment and counter,
    having appended the same lines to each; this holds when it panics as
    well, the lines written before the panic staying written. *)
Theorem Emit_only_appends :
  forall (a : AST) (e : Environment) (lc : Z) (out1 out2 : list string),
    let r1 := Emit a (mkState e lc out1) in
    let r2 := Emit a (mkState e lc out2) in
    fst r1 = fst r2
    /\ env (snd r1) = env (snd r2)
    /\ labelCounter (snd r1) = labelCounter (snd r2)
    /\ exists lines,
         output (snd r1) = (out1 ++ lines)%list
         /\ output (snd r2) = (out2 ++ lines)%list.
Proof.
  intros a e lc out1 out2 r1 r2. subst r1 r2.
  rewrite (Emit_write_only a (mkState e lc out1)).
  rewrite (Emit_write_only a (mkState e lc out2)).
  unfold after, restart; simpl.
  repeat split. eexists. split; reflexivity.
Qed.

(** ** Counting labels and slots *)

Lemma wrap_wrap_add (x y : Z) : wrap (wrap x + y) = wrap (x + y).
Proof.
  unfold wrap.
  replace ((x + 2 ^ 63) mod 2 ^ 64 - 2 ^ 63 + y + 2 ^ 63)
    with ((x + 2 ^ 63) mod 2 ^ 64 + y) by lia.
  rewrite Z.add_mod_idemp_l by lia.
  f_equal. f_equal. lia.
Qed.

Lemma iter_next_label (n : nat) (c : Z) :
  Nat.iter (S n) next_label c = wrap (c + Z.of_nat (S n)).
Proof.
  induction n as [|n IH].
  - reflexivity.
  - change (Nat.iter (S (S n)) next_label c)
      with (next_label (Nat.iter (S n) next_label c)).
    rewrite IH. unfold next_label. rewrite wrap_wrap_add. f_equal. lia.
Qed.

Lemma iter_next_slot (n : nat) (o : Z) :
  Nat.iter (S n) next_slot o = wrap (o - 8 * Z.of_nat (S n)).
Proof.
  induction n as [|n IH].
  - unfold next_slot. simpl Nat.iter. f_equal.
  - change (Nat.iter (S (S n)) next_slot o)
      with (next_slot (Nat.iter (S n) next_slot o)).
    rewrite IH. unfold next_slot.
    replace (wrap (o - 8 * Z.of_nat (S n)) - 8)
      with (wrap (o - 8 * Z.of_nat (S n)) + (- 8)) by lia.
    rewrite wrap_wrap_add. f_equal. lia.
Qed.

Lemma iter_add {A} (f : A -> A) (n m : nat) (x : A) :
  Nat.iter (n + m) f x = Nat.iter m f (Nat.iter n f x).
Proof.
  induction m as [|m IH]; simpl.
  - rewrite Nat.add_0_r. reflexivity.
  - rewrite Nat.add_succ_r. simpl. rewrite IH. reflexivity.
Qed.

(** *** Labels *)

Lemma draws_eq n m e : draws n e -> m = n -> draws m e.
Proof. intros He ->. exact He. Qed.

Lemma seq_draws n m a b : draws n a -> draws m b -> draws (n + m) (seq a b).
Proof.
  intros Ha Hb st st' Hrun. apply seq_Done_inv in Hrun as (st1 & H1 & H2).
  rewrite (Hb _ _ H2), (Ha _ _ H1). symmetry. apply iter_add.
Qed.

Lemma seq_draws_minus n k a b :
  draws n a -> (n <= k)%nat -> draws (k - n) b -> draws k (seq a b).
Proof.
  intros Ha Hle Hb. eapply draws_eq; [exact (seq_draws _ _ _ _ Ha Hb) | lia].
Qed.

Lemma seq_assoc_draws k a b c :
  draws k (seq a (seq b c)) -> draws k (seq (seq a b) c).
Proof. intros H st st' Hrun. rewrite seq_assoc_at in Hrun. exact (H _ _ Hrun). Qed.

Lemma emit_draws line : draws 0 (emit line).
Proof. intros st st' [= <-]. reflexivity. Qed.

Lemma emit_seq_draws n line b : draws n b -> draws n (seq (emit line) b).
Proof. intros Hb. exact (seq_draws 0 n _ _ (emit_draws line) Hb). Qed.

Lemma skip_draws : draws 0 skip.
Proof. intros st st' [= <-]. reflexivity. Qed.

Lemma panic_draws n msg : draws n (panic msg).
Proof. intros st st' Hrun. discriminate. Qed.

Lemma declare_local_draws name : draws 0 (declare_local name).
Proof. intros st st' [= <-]. reflexivity. Qed.

Lemma lookup_local_draws n name k :
  (forall offset, draws n (k offset)) -> draws n (lookup_local name k).
Proof.
  intros Hk st st'. unfold lookup_local.
  destruct (locals (env st) !! name); [apply Hk | discriminate].
Qed.

Lemma NewLabel_draws n k :
  (forall l, draws n (k l)) -> draws (S n) (NewLabel k).
Proof.
  intros Hk st st' Hrun. unfold NewLabel in Hrun.
  rewrite (Hk _ _ _ Hrun). simpl labelCounter.
  exact (eq_sym (iter_add next_label 1 n (labelCounter st))).
Qed.

Lemma with_environment_draws n e body :
  draws n body -> draws n (with_environment e body).
Proof.
  intros Hb st st'. unfold with_environment.
  destruct (body _) as [r st1] eqn:Hrun. intros [= -> <-]. simpl.
  apply (Hb _ _ Hrun).
Qed.

Lemma for_each_draws (body : AST -> emitter) (count : AST -> nat) (l : list AST) :
  Forall (fun a => draws (count a) (body a)) l ->
  draws (list_sum (map count l)) (for_each body l).
Proof.
  induction 1 as [|a l Ha _ IH]; simpl.
  - apply skip_draws.
  - apply seq_draws; assumption.
Qed.

Lemma for_each_argument_draws (body : AST -> emitter) (count : AST -> nat)
    (l : list AST) :
  Forall (fun a => draws (count a) (body a)) l ->
  forall i, draws (list_sum (map count l)) (for_each_argument body i l).
Proof.
  induction 1 as [|a l Ha _ IH]; intros i; simpl.
  - apply skip_draws.
  - apply seq_draws; [exact Ha|]. apply emit_seq_draws, IH.
Qed.

Ltac draws_step :=
  lazymatch goal with
  | |- draws _ (seq (seq _ _) _) => apply seq_assoc_draws
  | |- draws _ (seq (emit _) _) => apply emit_seq_draws
  | |- draws _ (seq (Emit _) _) =>
      eapply seq_draws_minus; [eassumption | lia | ]
  | |- draws _ (seq (with_environment _ _) _) =>
      eapply seq_draws_minus;
      [apply with_environment_draws; eassumption | lia | ]
  | |- draws _ (emit _) => eapply draws_eq; [apply emit_draws | lia]
  | |- draws _ (Emit _) => eapply draws_eq; [eassumption | lia]
  | |- draws _ (declare_local _) =>
      eapply draws_eq; [apply declare_local_draws | lia]
  | |- draws _ (NewLabel _) => apply NewLabel_draws; intros ?
  | |- draws _ (lookup_local _ _) => apply lookup_local_draws; intros ?
  | |- draws _ (panic _) => apply panic_draws
  end.

Lemma Emit_draws (a : AST) : draws (labels a) (Emit a).
Proof.
  induction a using AST_nested_ind; cbn [Emit labels];
    unfold binary, emitPrologue, emitEpilogue.
  all: try solve [repeat draws_step].
  - (* Call *)
    destruct args as [|arg0 [|arg1 rest]].
    + apply emit_draws.
    + inversion H as [|? ? Harg _]; subst. cbn [map list_sum foldr length].
      rewrite bool_decide_eq_false_2 by discriminate.
      rewrite bool_decide_eq_true_2 by reflexivity.
      repeat draws_step.
    + remember (arg0 :: arg1 :: rest) as args eqn:Hargs.
      assert (Hlen : (2 <= length args)%nat) by (subst args; simpl; lia).
      clear Hargs.
      repeat case_bool_decide; cbn [andb]; try apply panic_draws; try lia.
      apply emit_seq_draws.
      eapply seq_draws_minus;
        [exact (for_each_argument_draws Emit labels _ H 0%nat) | lia | ].
      repeat draws_step.
  - (* Block *) exact (for_each_draws Emit labels _ H).
  - (* Function *) case_bool_decide; repeat draws_step.
  - (* Main *)
    do 3 apply emit_seq_draws.
    eapply seq_draws_minus; [exact (for_each_draws Emit labels _ H) | lia | ].
    repeat draws_step.
Qed.

(** X10.  Labels are drawn from one counter that only moves forward: an
    emission that returns has advanced [labelCounter] by two for each [If]
    and each [While] of the tree, functions' bodies included, and by
    nothing else (in 64-bit arithmetic, from a counter that is an [int]). *)
Theorem label_counter_accounting :
  forall (a : AST) (st st' : state),
    Emit a st = (Done tt, st') ->
    int_min <= labelCounter st <= int_max ->
    labelCounter st' = wrap (labelCounter st + Z.of_nat (labels a)).
Proof.
  intros a st st' Hrun Hc. rewrite (Emit_draws a st st' Hrun).
  destruct (labels a) as [|n].
  - simpl. rewrite Z.add_0_r, wrap_small by assumption. reflexivity.
  - apply iter_next_label.
Qed.

Lemma label_counter_accounting_witness :
  labelCounter
    (snd (Emit (While (Number 1) (If (Number 1) (Number 2) (Number 3)))
            initial_state))
  = wrap (labelCounter initial_state + 4).
Proof.
  apply (label_counter_accounting
           (While (Number 1) (If (Number 1) (Number 2) (Number 3)))
           initial_state).
  - vm_compute. reflexivity.
  - vm_compute. split; discriminate.
Defined.

(** *** Label names *)

Lemma fmt_d_injective (n m : Z) : fmt_d n = fmt_d m -> n = m.
Proof.
  unfold fmt_d. intros Heq.
  apply (f_equal NilZero.int_of_string) in Heq.
  rewrite !NilZero.isi in Heq by apply to_int_not_nil.
  injection Heq as Heq.
  apply (f_equal Z.of_int) in Heq. rewrite !DecimalZ.of_to in Heq. exact Heq.
Qed.

Lemma wrap_injective_within (c i j : Z) :
  0 <= i < j -> j < 2 ^ 64 -> wrap (c + i) <> wrap (c + j).
Proof.
  intros Hij Hj Heq. unfold wrap in Heq.
  assert (Hmod : (c + i + 2 ^ 63) mod 2 ^ 64 = (c + j + 2 ^ 63) mod 2 ^ 64) by lia.
  pose proof (Z.div_mod (c + i + 2 ^ 63) (2 ^ 64) ltac:(lia)) as Hi.
  pose proof (Z.div_mod (c + j + 2 ^ 63) (2 ^ 64) ltac:(lia)) as Hj'.
  rewrite Hmod in Hi.
  set (qi := (c + i + 2 ^ 63) / 2 ^ 64) in *.
  set (qj := (c + j + 2 ^ 63) / 2 ^ 64) in *.
  assert (j - i = 2 ^ 64 * (qj - qi)) by lia.
  assert (0 < qj - qi) by nia.
  assert (qj - qi < 1) by nia.
  lia.
Qed.

(** X11.  Label names do not clash: [Label.String] maps different counter
    values to different names, so the labels drawn one after the other
    from a counter are pairwise distinct texts until 2^64 of them have
    been drawn; in particular the two labels of an [If] or a [While]
    always differ. *)
Theorem label_names_do_not_clash :
  forall (c i j : Z),
    0 <= i < j -> j < 2 ^ 64 ->
    Label_String (wrap (c + i)) <> Label_String (wrap (c + j)).
Proof.
  intros c i j Hij Hj Heq. unfold Label_String in Heq.
  injection Heq as Heq. apply fmt_d_injective in Heq.
  exact (wrap_injective_within c i j Hij Hj Heq).
Qed.

Lemma label_names_do_not_clash_witness :
  Label_String (wrap (int_max + 0)) <> Label_String (wrap (int_max + 1)).
Proof.
  apply (label_names_do_not_clash int_max 0 1).
  - lia.
  - reflexivity.
Defined.

(** *** Slots *)

Lemma takes_eq n m e : takes n e -> m = n -> takes m e.
Proof. intros He ->. exact He. Qed.

Lemma seq_takes n m a b : takes n a -> takes m b -> takes (n + m) (seq a b).
Proof.
  intros Ha Hb st st' Hrun. apply seq_Done_inv in Hrun as (st1 & H1 & H2).
  rewrite (Hb _ _ H2), (Ha _ _ H1). symmetry. apply iter_add.
Qed.

Lemma seq_takes_minus n k a b :
  takes n a -> (n <= k)%nat -> takes (k - n) b -> takes k (seq a b).
Proof.
  intros Ha Hle Hb. eapply takes_eq; [exact (seq_takes _ _ _ _ Ha Hb) | lia].
Qed.

Lemma seq_assoc_takes k a b c :
  takes k (seq a (seq b c)) -> takes k (seq (seq a b) c).
Proof. intros H st st' Hrun. rewrite seq_assoc_at in Hrun. exact (H _ _ Hrun). Qed.

Lemma emit_takes line : takes 0 (emit line).
Proof. intros st st' [= <-]. reflexivity. Qed.

Lemma emit_seq_takes n line b : takes n b -> takes n (seq (emit line) b).
Proof. intros Hb. exact (seq_takes 0 n _ _ (emit_takes line) Hb). Qed.

Lemma skip_takes : takes 0 skip.
Proof. intros st st' [= <-]. reflexivity. Qed.

Lemma panic_takes n msg : takes n (panic msg).
Proof. intros st st' Hrun. discriminate. Qed.

Lemma declare_local_takes name : takes 1 (declare_local name).
Proof. intros st st' [= <-]. reflexivity. Qed.

Lemma lookup_local_takes n name k :
  (forall offset, takes n (k offset)) -> takes n (lookup_local name k).
Proof.
  intros Hk st st'. unfold lookup_local.
  destruct (locals (env st) !! name); [apply Hk | discriminate].
Qed.

Lemma NewLabel_takes n k :
  (forall l, takes n (k l)) -> takes n (NewLabel k).
Proof.
  intros Hk st st' Hrun. unfold NewLabel in Hrun.
  rewrite (Hk _ _ _ Hrun). reflexivity.
Qed.

Lemma with_environment_takes e body : takes 0 (with_environment e body).
Proof.
  intros st st'. unfold with_environment.
  destruct (body _) as [r st1]. intros [= -> <-]. reflexivity.
Qed.

Lemma for_each_takes (body : AST -> emitter) (count : AST -> nat) (l : list AST) :
  Forall (fun a => takes (count a) (body a)) l ->
  takes (list_sum (map count l)) (for_each body l).
Proof.
  induction 1 as [|a l Ha _ IH]; simpl.
  - apply skip_takes.
  - apply seq_takes; assumption.
Qed.

Lemma for_each_argument_takes (body : AST -> emitter) (count : AST -> nat)
    (l : list AST) :
  Forall (fun a => takes (count a) (body a)) l ->
  forall i, takes (list_sum (map count l)) (for_each_argument body i l).
Proof.
  induction 1 as [|a l Ha _ IH]; intros i; simpl.
  - apply skip_takes.
  - apply seq_takes; [exact Ha|]. apply emit_seq_takes, IH.
Qed.

Ltac takes_step :=
  lazymatch goal with
  | |- takes _ (seq (seq _ _) _) => apply seq_assoc_takes
  | |- takes _ (seq (emit _) _) => apply emit_seq_takes
  | |- takes _ (seq (Emit _) _) =>
      eapply seq_takes_minus; [eassumption | lia | ]
  | |- takes _ (seq (with_environment _ _) _) =>
      eapply seq_takes_minus; [apply with_environment_takes | lia | ]
  | |- takes _ (emit _) => eapply takes_eq; [apply emit_takes | lia]
  | |- takes _ (Emit _) => eapply takes_eq; [eassumption | lia]
  | |- takes _ (declare_local _) =>
      eapply takes_eq; [apply declare_local_takes | lia]
  | |- takes _ (NewLabel _) => apply NewLabel_takes; intros ?
  | |- takes _ (lookup_local _ _) => apply lookup_local_takes; intros ?
  | |- takes _ (panic _) => apply panic_takes
  end.

Lemma Emit_takes (a : AST) : takes (declarations a) (Emit a).
Proof.
  induction a using AST_nested_ind; cbn [Emit declarations];
    unfold binary, emitPrologue, emitEpilogue.
  all: try solve [repeat takes_step].
  - (* Call *)
    destruct args as [|arg0 [|arg1 rest]].
    + apply emit_takes.
    + inversion H as [|? ? Harg _]; subst. cbn [map list_sum foldr length].
      rewrite bool_decide_eq_false_2 by discriminate.
      rewrite bool_decide_eq_true_2 by reflexivity.
      repeat takes_step.
    + remember (arg0 :: arg1 :: rest) as args eqn:Hargs.
      assert (Hlen : (2 <= length args)%nat) by (subst args; simpl; lia).
      clear Hargs.
      repeat case_bool_decide; cbn [andb]; try apply panic_takes; try lia.
      apply emit_seq_takes.
      eapply seq_takes_minus;
        [exact (for_each_argument_takes Emit declarations _ H 0%nat) | lia | ].
      repeat takes_step.
  - (* Block *) exact (for_each_takes Emit declarations _ H).
  - (* Function *) case_bool_decide; repeat takes_step.
  - (* Main *)
    do 3 apply emit_seq_takes.
    eapply seq_takes_minus;
      [exact (for_each_takes Emit declarations _ H) | lia | ].
    repeat takes_step.
Qed.

(** X12.  Each [Var] that is emitted takes one 8-byte slot of the
    environment it is emitted against, and nothing else moves
    [nextLocalOffset]: an emission that returns has lowered it by eight
    times the number of [Var] nodes of the tree outside the bodies of its
    functions, whose declarations go to environments of their own. *)
Theorem local_slot_accounting :
  forall (a : AST) (st st' : state),
    Emit a st = (Done tt, st') ->
    int_min <= nextLocalOffset (env st) <= int_max ->
    nextLocalOffset (env st')
    = wrap (nextLocalOffset (env st) - 8 * Z.of_nat (declarations a)).
Proof.
  intros a st st' Hrun Hc. rewrite (Emit_takes a st st' Hrun).
  destruct (declarations a) as [|n].
  - simpl Nat.iter. replace (nextLocalOffset (env st) - 8 * Z.of_nat 0)
      with (nextLocalOffset (env st)) by lia.
    rewrite wrap_small by assumption. reflexivity.
  - apply iter_next_slot.
Qed.

Lemma local_slot_accounting_witness :
  nextLocalOffset
    (env (snd (Emit (Block [Var "x" (Number 1);
                            Function "f" ["a"] (Block [Var "y" (Id "a")]);
                            Var "z" (Id "x")])
                 (mkState (setUpEnvironment []) 0 []))))
  = wrap (-20 - 8 * 2).
Proof.
  apply (local_slot_accounting
           (Block [Var "x" (Number 1);
                   Function "f" ["a"] (Block [Var "y" (Id "a")]);
                   Var "z" (Id "x")])
           (mkState (setUpEnvironment []) 0 [])).
  - vm_compute. reflexivity.
  - vm_compute. split; discriminate.
Defined.

(** ** Bindings *)

Lemma seq_keeps_bindings a b :
  keeps_bindings a -> keeps_bindings b -> keeps_bindings (seq a b).
Proof.
  intros Ha Hb st x Hx. unfold seq.
  pose proof (Ha st x Hx) as Hx1.
  destruct (a st) as [[[]| |] st1]; simpl in *; auto.
Qed.

Lemma emit_keeps_bindings line : keeps_bindings (emit line).
Proof. intros st x Hx. exact Hx. Qed.

Lemma skip_keeps_bindings : keeps_bindings skip.
Proof. intros st x Hx. exact Hx. Qed.

Lemma panic_keeps_bindings msg : keeps_bindings (panic msg).
Proof. intros st x Hx. exact Hx. Qed.

Lemma declare_local_keeps_bindings name : keeps_bindings (declare_local name).
Proof.
  intros st x Hx. unfold declare_local. simpl.
  apply lookup_insert_is_Some'. right. exact Hx.
Qed.

Lemma lookup_local_keeps_bindings name k :
  (forall offset, keeps_bindings (k offset)) ->
  keeps_bindings (lookup_local name k).
Proof.
  intros Hk st x Hx. unfold lookup_local.
  destruct (locals (env st) !! name); [apply Hk; exact Hx | exact Hx].
Qed.

Lemma NewLabel_keeps_bindings k :
  (forall l, keeps_bindings (k l)) -> keeps_bindings (NewLabel k).
Proof. intros Hk st x Hx. unfold NewLabel. apply Hk. exact Hx. Qed.

Lemma with_environment_keeps_bindings e body :
  keeps_bindings (with_environment e body).
Proof.
  intros st x Hx. unfold with_environment.
  destruct (body _) as [r st1]. exact Hx.
Qed.

Lemma for_each_keeps_bindings (body : AST -> emitter) (l : list AST) :
  Forall (fun a => keeps_bindings (body a)) l ->
  keeps_bindings (for_each body l).
Proof.
  induction 1 as [|a l Ha _ IH]; simpl.
  - apply skip_keeps_bindings.
  - apply seq_keeps_bindings; assumption.
Qed.

Lemma for_each_argument_keeps_bindings (body : AST -> emitter) (l : list AST) :
  Forall (fun a => keeps_bindings (body a)) l ->
  forall i, keeps_bindings (for_each_argument body i l).
Proof.
  induction 1 as [|a l Ha _ IH]; intros i; simpl.
  - apply skip_keeps_bindings.
  - apply seq_keeps_bindings; [exact Ha|].
    apply seq_keeps_bindings; [apply emit_keeps_bindings | apply IH].
Qed.

Ltac keeps_bindings_step :=
  lazymatch goal with
  | |- keeps_bindings (seq _ _) => apply seq_keeps_bindings
  | |- keeps_bindings (emit _) => apply emit_keeps_bindings
  | |- keeps_bindings (Emit _) => assumption
  | |- keeps_bindings (declare_local _) => apply declare_local_keeps_bindings
  | |- keeps_bindings (with_environment _ _) =>
      apply with_environment_keeps_bindings
  | |- keeps_bindings (NewLabel _) => apply NewLabel_keeps_bindings; intros ?
  | |- keeps_bindings (lookup_local _ _) =>
      apply lookup_local_keeps_bindings; intros ?
  | |- keeps_bindings (panic _) => apply panic_keeps_bindings
  | |- keeps_bindings (for_each Emit _) =>
      apply for_each_keeps_bindings; assumption
  | |- keeps_bindings (for_each_argument Emit _ _) =>
      apply for_each_argument_keeps_bindings; assumption
  end.

Lemma Emit_keeps_bindings (a : AST) : keeps_bindings (Emit a).
Proof.
  induction a using AST_nested_ind; cbn [Emit];
    unfold binary, emitPrologue, emitEpilogue.
  all: try solve [repeat keeps_bindings_step].
  - (* Call *)
    repeat case_bool_decide; cbn [andb]; repeat keeps_bindings_step.
    destruct args; [apply panic_keeps_bindings | inversion H; assumption].
  - (* Function *) case_bool_decide; repeat keeps_bindings_step.
Qed.

(** X13.  Emission never unbinds a name: whatever the tree and however
    its emission ends, a name the environment binds before is bound
    after, so a read or an assignment of it that follows does not panic
    as undefined.  (The offset it is bound to can change, by a [Var] of
    the same name.) *)
Theorem bound_names_stay_bound :
  forall (a : AST) (st : state) (x : string),
    is_Some (locals (env st) !! x) ->
    is_Some (locals (env (snd (Emit a st))) !! x)
    /\ exists offset,
         Emit (Id x) (snd (Emit a st))
         = (Done tt,
            appended (snd (Emit a st))
              ["  ldr r0, [fp, #" +:+ fmt_d offset +:+ "]"]).
Proof.
  intros a st x Hx.
  pose proof (Emit_keeps_bindings a st x Hx) as Hx'. split; [exact Hx'|].
  destruct Hx' as [offset Hoff]. exists offset.
  cbn [Emit]. unfold lookup_local. rewrite Hoff. reflexivity.
Qed.

Lemma bound_names_stay_bound_witness :
  is_Some
    (locals
       (env (snd (Emit (Block [Var "b" (Id "a"); Var "a" (Id "c")])
                    (mkState (setUpEnvironment ["a"]) 0 []))))
     !! "a")
  /\ exists offset,
       Emit (Id "a")
         (snd (Emit (Block [Var "b" (Id "a"); Var "a" (Id "c")])
                 (mkState (setUpEnvironment ["a"]) 0 [])))
       = (Done tt,
          appended
            (snd (Emit (Block [Var "b" (Id "a"); Var "a" (Id "c")])
                    (mkState (setUpEnvironment ["a"]) 0 [])))
            ["  ldr r0, [fp, #" +:+ fmt_d offset +:+ "]"]).
Proof.
  apply (bound_names_stay_bound
           (Block [Var "b" (Id "a"); Var "a" (Id "c")])
           (mkState (setUpEnvironment ["a"]) 0 []) "a").
  exists (-16). vm_compute. reflexivity.
Defined.

(** ** Functions *)

Lemma Function_unfold (name : string) (parameters : list string) (body : AST)
    (st : state) :
  (length parameters <= 4)%nat ->
  Emit (Function name parameters body) st
  = let res :=
      Emit body
        (mkState (setUpEnvironment parameters) (labelCounter st)
           (output st ++ frame_header name)) in
    match fst res with
    | Done _ =>
        (Done tt,
         mkState (env st) (labelCounter (snd res))
           (output (snd res) ++ frame_footer))
    | r => (r, mkState (env st) (labelCounter (snd res)) (output (snd res)))
    end.
Proof.
  intros Hlen. cbn [Emit]. rewrite bool_decide_eq_false_2 by lia.
  unfold emitPrologue, emitEpilogue, seq, emit, with_environment.
  cbn [env labelCounter output].
  rewrite <- !app_assoc. cbn [app]. unfold frame_header.
  destruct (Emit body _) as [[[]| |] sb]; cbn [fst snd env labelCounter output].
  - rewrite <- !app_assoc. reflexivity.
  - reflexivity.
  - reflexivity.
Qed.

(** X14.  A function that is emitted is framed: the blank line, the
    [.global] line and the label of its name, the prologue, then the code
    of the body emitted against the environment of its parameters alone,
    then the epilogue that returns 0; it has at most four parameters, and
    the caller's environment is as it was. *)
Theorem function_frame :
  forall (name : string) (parameters : list string) (body : AST)
         (st st' : state),
    Emit (Function name parameters body) st = (Done tt, st') ->
    (length parameters <= 4)%nat
    /\ env st' = env st
    /\ output st'
       = (output st ++ frame_header name
          ++ code body (mkState (setUpEnvironment parameters) (labelCounter st) [])
          ++ frame_footer)%list.
Proof.
  intros name parameters body st st' Hrun.
  assert (Hlen : (length parameters <= 4)%nat).
  { destruct (decide (4 < length parameters)%nat) as [Hgt|Hle]; [|lia].
    cbn [Emit] in Hrun. rewrite bool_decide_eq_true_2 in Hrun by exact Hgt.
    discriminate Hrun. }
  split; [exact Hlen|].
  rewrite (Function_unfold name parameters body st Hlen) in Hrun.
  cbv zeta in Hrun.
  pose proof (Emit_code body
                (mkState (setUpEnvironment parameters) (labelCounter st)
                   (output st ++ frame_header name))) as Hcode.
  destruct (Emit body _) as [[[]| |] sb]; cbn [fst snd] in Hrun, Hcode;
    try discriminate Hrun.
  injection Hrun as <-. cbn [env output]. split; [reflexivity|].
  rewrite Hcode. cbn [output]. unfold code, restart. cbn [env labelCounter].
  rewrite <- !app_assoc. reflexivity.
Qed.

Lemma function_frame_witness :
  (length ["n"] <= 4)%nat
  /\ env (mkState NewEnvironment 0
            (frame_header "id" ++ ["  ldr r0, [fp, #-16]"; "  mov sp, fp";
                                   "  pop {fp, pc}"] ++ frame_footer))
     = env initial_state
  /\ output (mkState NewEnvironment 0
               (frame_header "id" ++ ["  ldr r0, [fp, #-16]"; "  mov sp, fp";
                                      "  pop {fp, pc}"] ++ frame_footer))
     = (output initial_state ++ frame_header "id"
        ++ code (Return (Id "n")) (mkState (setUpEnvironment ["n"]) 0 [])
        ++ frame_footer)%list.
Proof.
  apply (function_frame "id" ["n"] (Return (Id "n")) initial_state).
  vm_compute. reflexivity.
Defined.

(** X15.  The code of a function does not depend on where it is emitted:
    from two different environments, with the same label counter and
    output, [Function.Emit] ends the same way, with the same lines
    written and the same counter, and each environment is left as it
    was, whether the emission returns or panics. *)
Theorem function_ignores_the_callers_environment :
  forall (name : string) (parameters : list string) (body : AST)
         (e1 e2 : Environment) (lc : Z) (out : list string),
    let r1 := Emit (Function name parameters body) (mkState e1 lc out) in
    let r2 := Emit (Function name parameters body) (mkState e2 lc out) in
    fst r1 = fst r2
    /\ output (snd r1) = output (snd r2)
    /\ labelCounter (snd r1) = labelCounter (snd r2)
    /\ env (snd r1) = e1
    /\ env (snd r2) = e2.
Proof.
  intros name parameters body e1 e2 lc out r1 r2. subst r1 r2.
  destruct (decide (4 < length parameters)%nat) as [Hgt|Hle].
  - cbn [Emit]. rewrite !bool_decide_eq_true_2 by exact Hgt.
    repeat split.
  - rewrite !Function_unfold by lia. cbv zeta. cbn [env labelCounter output].
    destruct (Emit body _) as [[[]| |] sb]; repeat split.
Qed.

(** ** Expressions *)

Lemma word_range (z : Z) : 0 <= ARM.word z < 2 ^ 32.
Proof. unfold ARM.word. apply Z.mod_pos_bound. lia. Qed.

Lemma eval_range (a : AST) : forall v, eval a = Some v -> 0 <= v < 2 ^ 32.
Proof.
  induction a; intros v Hv; cbn [eval] in Hv; try discriminate Hv;
    repeat match goal with
           | H : context [match eval ?x with _ => _ end] |- _ =>
               let y := fresh "y" in destruct (eval x) as [y|] eqn:?;
               [|discriminate H]
           end;
    injection Hv as <-;
    try apply word_range;
    try (destruct (_ =? _); lia).
  pose proof (IHa1 _ eq_refl) as Hx. pose proof (IHa2 _ eq_refl) as Hy.
  destruct (Z.eqb_spec y0 0) as [|Hne]; [lia|].
  split.
  - apply Z.div_pos; lia.
  - apply Z.div_lt_upper_bound; nia.
Qed.

Lemma eval_quiet (a : AST) : forall v, eval a = Some v -> quiet a = true.
Proof.
  unfold quiet.
  induction a; intros v Hv; cbn [eval] in Hv; try discriminate Hv;
    repeat match goal with
           | H : context [match eval ?x with _ => _ end] |- _ =>
               let y := fresh "y" in destruct (eval x) as [y|] eqn:?;
               [|discriminate H]
           end;
    cbn [var_free labels];
    repeat match goal with
           | IH : forall v, Some ?y = Some v -> _ |- _ =>
               specialize (IH y eq_refl);
               apply andb_prop in IH as [? ?%Nat.eqb_eq]
           end;
    try reflexivity.
  all: apply andb_true_intro; split;
    [try assumption; try (apply andb_true_intro; split; assumption)
    | apply Nat.eqb_eq; lia].
Qed.

Lemma quiet_keeps (a : AST) (st st' : state) :
  quiet a = true -> Emit a st = (Done tt, st') ->
  env st' = env st /\ labelCounter st' = labelCounter st.
Proof.
  unfold quiet. intros [Hv Hl%Nat.eqb_eq]%andb_prop Hrun. split.
  - pose proof (var_free_keeps a Hv st) as Hk. rewrite Hrun in Hk. exact Hk.
  - pose proof (Emit_draws a st st' Hrun) as Hd. rewrite Hl in Hd. exact Hd.
Qed.

(** X16.  An expression built from literals and operators compiles to
    code that computes it: emission returns from every state, leaving the
    environment and the label counter alone, and the lines written, run
    on the machine from any state, leave the value of the expression in
    [r0], a 32-bit word, with the stack and the printed bytes as they
    were.  The value is that of unsigned 32-bit arithmetic: sums,
    differences and products modulo 2^32, comparisons and [!] as 0 or 1,
    quotients rounded down, and 0 for a division by zero. *)
Theorem expression_code_computes_its_value :
  forall (a : AST) (v : Z),
    eval a = Some v ->
    0 <= v < 2 ^ 32
    /\ forall st, exists st',
         Emit a st = (Done tt, st')
         /\ env st' = env st
         /\ labelCounter st' = labelCounter st
         /\ forall m, exists m',
              ARM.run (code a st) m = Some m'
              /\ ARM.r0 m' = v
              /\ ARM.stack m' = ARM.stack m
              /\ ARM.printed m' = ARM.printed m.
Proof.
  intros a v Hv. split; [exact (eval_range a v Hv)|].
  intros st. destruct (eval_computes a v Hv st) as (st' & Hrun & Hm).
  exists st'. split; [exact Hrun|].
  destruct (quiet_keeps a st st' (eval_quiet a v Hv) Hrun) as [He Hl].
  split; [exact He|]. split; [exact Hl|].
  intros m. destruct (Hm m) as (m' & H1 & H2 & H3 & _ & H5).
  exists m'. repeat split; assumption.
Qed.

Lemma expression_code_computes_its_value_witness :
  0 <= 0 < 2 ^ 32
  /\ forall st, exists st',
       Emit (Divide (Subtract (Number 0) (Number 1)) (Not (Number 7))) st
       = (Done tt, st')
       /\ env st' = env st
       /\ labelCounter st' = labelCounter st
       /\ forall m, exists m',
            ARM.run
              (code (Divide (Subtract (Number 0) (Number 1)) (Not (Number 7))) st)
              m = Some m'
            /\ ARM.r0 m' = 0
            /\ ARM.stack m' = ARM.stack m
            /\ ARM.printed m' = ARM.printed m.
Proof.
  apply (expression_code_computes_its_value
           (Divide (Subtract (Number 0) (Number 1)) (Not (Number 7))) 0).
  reflexivity.
Defined.

(** ** Calls *)

Lemma code_same (a : AST) (st st1 : state) :
  env st1 = env st -> labelCounter st1 = labelCounter st ->
  code a st1 = code a st.
Proof. intros He Hl. unfold code, restart. rewrite He, Hl. reflexivity. Qed.

Lemma argument_loop (args : list AST) :
  Forall (fun a => quiet a = true) args ->
  forall (i : nat) (st st' : state),
    for_each_argument Emit i args st = (Done tt, st') ->
    env st' = env st
    /\ labelCounter st' = labelCounter st
    /\ output st'
       = (output st
          ++ mjoin (imap (fun k arg =>
                            code arg st
                            ++ ["  str r0, [sp, #"
                                +:+ fmt_d (4 * Z.of_nat (i + k)) +:+ "]"])%list
                      args))%list.
Proof.
  induction 1 as [|a args Ha _ IH]; intros i st st' Hrun; simpl in Hrun.
  - injection Hrun as <-. simpl. rewrite app_nil_r. repeat split.
  - apply seq_Done_inv in Hrun as (s1 & Ha1 & Hrun).
    apply seq_Done_inv in Hrun as (s2 & He & Hrun).
    injection He as <-.
    destruct (quiet_keeps a st s1 Ha Ha1) as [He1 Hl1].
    destruct (IH (S i) _ st' Hrun) as (He' & Hl' & Ho').
    cbn [env labelCounter output] in He', Hl', Ho'.
    split; [congruence|]. split; [congruence|].
    rewrite Ho', (Emit_Done_output a st s1 Ha1).
    rewrite imap_cons. cbn [mjoin list_join]. rewrite Nat.add_0_r.
    rewrite <- !app_assoc. cbn [app]. do 3 f_equal.
    f_equal. apply imap_ext. intros k arg _. cbn.
    rewrite (code_same arg st); [|exact He1 | exact Hl1].
    replace (i + S k)%nat with (S (i + k)) by lia. reflexivity.
Qed.

(** X17.  The layout of a call whose arguments declare nothing and draw
    no label (as every expression of literals, operators, names and calls
    does): no argument, the branch alone; one argument, its code and the
    branch, the value passing in [r0]; two to four, room for four words
    on the stack, then for each argument in order its code and a store
    of [r0] at [sp + 4*i], then the four words popped into [r0] to [r3],
    then the branch.  A call that is emitted has at most four
    arguments. *)
Theorem call_layout :
  forall (callee : string) (args : list AST) (st st' : state),
    Forall (fun a => quiet a = true) args ->
    Emit (Call callee args) st = (Done tt, st') ->
    (length args <= 4)%nat
    /\ env st' = env st
    /\ labelCounter st' = labelCounter st
    /\ output st'
       = (output st
          ++ match args with
             | [] => ["  bl " +:+ callee]
             | [arg] => code arg st ++ ["  bl " +:+ callee]
             | _ =>
                 ["  sub sp, sp, #16"] ++ argument_stores args st
                 ++ ["  pop {r0, r1, r2, r3}"; "  bl " +:+ callee]
             end)%list.
Proof.
  intros callee args st st' Hargs Hrun.
  destruct args as [|arg0 [|arg1 rest]].
  - injection Hrun as <-. repeat split. simpl. lia.
  - cbn [Emit length] in Hrun.
    rewrite bool_decide_eq_false_2 in Hrun by discriminate.
    rewrite bool_decide_eq_true_2 in Hrun by reflexivity.
    apply seq_Done_inv in Hrun as (s1 & Ha & He). injection He as <-.
    inversion Hargs as [|? ? Hs _]; subst.
    destruct (quiet_keeps arg0 st s1 Hs Ha) as [He1 Hl1].
    cbn [env labelCounter output]. split; [simpl; lia|].
    split; [exact He1|]. split; [exact Hl1|].
    rewrite (Emit_Done_output arg0 st s1 Ha), <- app_assoc. reflexivity.
  - remember (arg0 :: arg1 :: rest) as args eqn:Hdef.
    assert (Hlen : (2 <= length args)%nat) by (subst args; simpl; lia).
    cbn [Emit] in Hrun.
    rewrite bool_decide_eq_false_2 in Hrun by lia.
    rewrite bool_decide_eq_false_2 in Hrun by lia.
    rewrite bool_decide_eq_true_2 in Hrun by lia.
    case_bool_decide as Hmax; cbn [andb] in Hrun; [|discriminate Hrun].
    split; [exact Hmax|].
    apply seq_Done_inv in Hrun as (s0 & He0 & Hrun). injection He0 as <-.
    apply seq_Done_inv in Hrun as (s1 & Hloop & Hrun).
    apply seq_Done_inv in Hrun as (s2 & He2 & He3).
    injection He2 as <-. injection He3 as <-.
    destruct (argument_loop args Hargs 0 _ s1 Hloop) as (He & Hl & Ho).
    cbn [env labelCounter output] in He, Hl, Ho |- *.
    split; [exact He|]. split; [exact Hl|].
    rewrite Ho. unfold argument_stores.
    assert (Hsame :
      imap (fun k arg =>
              code arg (mkState (env st) (labelCounter st)
                          (output st ++ ["  sub sp, sp, #16"]))
              ++ ["  str r0, [sp, #" +:+ fmt_d (4 * Z.of_nat (0 + k)) +:+ "]"])%list
        args
      = imap (fun i arg =>
                code arg st
                ++ ["  str r0, [sp, #" +:+ fmt_d (4 * Z.of_nat i) +:+ "]"])%list
          args).
    { apply imap_ext. intros k arg _. cbn.
      rewrite (code_same arg st) by reflexivity. reflexivity. }
    rewrite Hsame. subst args.
    rewrite <- !app_assoc. reflexivity.
Qed.

Lemma call_layout_witness :
  (length [Number 1; Id "x"; Add (Id "x") (Number 2)] <= 4)%nat
  /\ env (appended (mkState (setUpEnvironment ["x"]) 0 [])
            ["  sub sp, sp, #16";
             "  ldr r0, =1"; "  str r0, [sp, #0]";
             "  ldr r0, [fp, #-16]"; "  str r0, [sp, #4]";
             "  ldr r0, [fp, #-16]"; "  push {r0, ip}"; "  ldr r0, =2";
             "  pop {r1, ip}"; "  add r0, r1, r0"; "  str r0, [sp, #8]";
             "  pop {r0, r1, r2, r3}"; "  bl f"])
     = env (mkState (setUpEnvironment ["x"]) 0 [])
  /\ labelCounter (appended (mkState (setUpEnvironment ["x"]) 0 [])
            ["  sub sp, sp, #16";
             "  ldr r0, =1"; "  str r0, [sp, #0]";
             "  ldr r0, [fp, #-16]"; "  str r0, [sp, #4]";
             "  ldr r0, [fp, #-16]"; "  push {r0, ip}"; "  ldr r0, =2";
             "  pop {r1, ip}"; "  add r0, r1, r0"; "  str r0, [sp, #8]";
             "  pop {r0, r1, r2, r3}"; "  bl f"])
     = labelCounter (mkState (setUpEnvironment ["x"]) 0 [])
  /\ output (appended (mkState (setUpEnvironment ["x"]) 0 [])
            ["  sub sp, sp, #16";
             "  ldr r0, =1"; "  str r0, [sp, #0]";
             "  ldr r0, [fp, #-16]"; "  str r0, [sp, #4]";
             "  ldr r0, [fp, #-16]"; "  push {r0, ip}"; "  ldr r0, =2";
             "  pop {r1, ip}"; "  add r0, r1, r0"; "  str r0, [sp, #8]";
             "  pop {r0, r1, r2, r3}"; "  bl f"])
     = (output (mkState (setUpEnvironment ["x"]) 0 [])
        ++ (["  sub sp, sp, #16"]
            ++ argument_stores [Number 1; Id "x"; Add (Id "x") (Number 2)]
                 (mkState (setUpEnvironment ["x"]) 0 [])
            ++ ["  pop {r0, r1, r2, r3}"; "  bl f"]))%list.
Proof.
  apply (call_layout "f" [Number 1; Id "x"; Add (Id "x") (Number 2)]
           (mkState (setUpEnvironment ["x"]) 0 [])).
  - repeat constructor.
  - vm_compute. reflexivity.
Defined.

(** ** Blocks *)

Lemma seq_skip_r (a : emitter) (st : state) : seq a skip st = a st.
Proof. unfold seq, skip. destruct (a st) as [[[]| |] st1]; reflexivity. Qed.

(** X18.  A block is the sequence of its statements and nothing more: it
    opens no scope and emits no line of its own.  So a block inside a
    block can be flattened, the statements after it seeing the variables
    it declared; a block of one statement is that statement; and the
    block of two lists is the first block followed by the second. *)
Theorem blocks_do_not_scope :
  forall (xs ys : list AST) (a : AST) (st : state),
    Emit (Block (Block xs :: ys)) st = Emit (Block (xs ++ ys)) st
    /\ Emit (Block (xs ++ ys)) st = seq (Emit (Block xs)) (Emit (Block ys)) st
    /\ Emit (Block [a]) st = Emit a st.
Proof.
  intros xs ys a st. cbn [Emit for_each].
  split; [|split].
  - rewrite for_each_app. reflexivity.
  - apply for_each_app.
  - apply seq_skip_r.
Qed.

(** * Further properties of the grammar *)

(** ** How parsing can fail *)

Section Tame.
Variable msg : string.

Lemma Regexp_tame (pattern : string) :
  Compile ("^" +:+ TrimPrefix pattern "^") <> None ->
  tame msg (Regexp pattern).
Proof.
  intros Hc. split; [discriminate|].
  split; [apply Regexp_monotone; exact re2_bounded_find|].
  intros f [= <-] src m Hb. unfold Match.
  case_bool_decide; [discriminate|].
  destruct (Compile _) as [re|]; [|contradiction].
  case_bool_decide as Hneg; [unfold in_bounds in Hb; lia|].
  destruct (FindStringIndex re _) as [[lo hi]|]; discriminate.
Qed.

Lemma Constant_tame {T} (v : T) : tame msg (Constant v).
Proof.
  split; [discriminate|]. split; [apply Constant_monotone|].
  intros f [= <-] src m _. discriminate.
Qed.

Lemma Error_tame {T} : tame msg (@Error T msg).
Proof.
  split; [discriminate|]. split; [apply Error_monotone|].
  intros f [= <-] src m _ [= <-]. reflexivity.
Qed.

Lemma Or_tame {T} (parsers : list (Parser T)) :
  Forall (tame msg) parsers -> tame msg (Or parsers).
Proof.
  intros Hall. split; [discriminate|]. split.
  - apply Or_monotone.
    eapply Forall_impl; [exact Hall | intros p (_ & Hp & _); exact Hp].
  - intros f [= <-] src m Hb.
    induction Hall as [|p ps (_ & _ & Hp) _ IH]; simpl; [discriminate|].
    destruct (Parse p) as [g|] eqn:Hg; [|exact IH].
    destruct (g src) as [[r|]| |] eqn:Hr; try discriminate.
    + exact IH.
    + intros [= <-]. exact (Hp g Hg src _ Hb Hr).
Qed.

Lemma Many_loop_panics {T} (parse : Source -> parsed T) :
  advances parse ->
  (forall src m, in_bounds src -> parse src = Panic m -> m = msg) ->
  forall fuel acc src m,
    in_bounds src -> Many_loop fuel parse acc src = Panic m -> m = msg.
Proof.
  intros Ha Hp. induction fuel as [|fuel IH]; intros acc src m Hb; simpl;
    [discriminate|].
  destruct (parse src) as [[r|]| |] eqn:Hr; try discriminate.
  - apply IH. exact (advances_in_bounds parse src r Ha Hb Hr).
  - intros [= <-]. exact (Hp src _ Hb Hr).
Qed.

Lemma Many_tame {T} (fuel : nat) (p : Parser T) :
  tame msg p -> tame msg (Many fuel p).
Proof.
  intros (_ & Hm & Hp). split; [discriminate|].
  split; [apply Many_monotone; assumption|].
  intros f [= <-] src m Hb.
  destruct (Parse p) as [g|] eqn:Hg; [|discriminate].
  apply Many_loop_panics; [exact (Hm g Hg) | exact (Hp g Hg) | exact Hb].
Qed.

Lemma Maybe_tame {T} (p : Parser T) : tame msg p -> tame msg (Maybe p).
Proof.
  intros (_ & Hm & Hp). split; [discriminate|].
  split; [apply Maybe_monotone; assumption|].
  intros f [= <-] src m Hb.
  destruct (Parse p) as [g|] eqn:Hg; [|discriminate].
  destruct (g src) as [[r|]| |] eqn:Hr; try discriminate.
  intros [= <-]. exact (Hp g Hg src _ Hb Hr).
Qed.

Lemma Bind_tame {T U} (p : Parser T) (callback : T -> Parser U) :
  tame msg p -> (forall v, tame msg (callback v)) -> tame msg (Bind p callback).
Proof.
  intros (Hn & Hm & Hp) Hk. split; [discriminate|]. split.
  - apply Bind_monotone; [assumption | intros v; apply Hk].
  - intros f [= <-] src m Hb. unfold invoke.
    destruct (Parse p) as [g|] eqn:Hg; [|contradiction].
    destruct (g src) as [[r|]| |] eqn:Hr; try discriminate.
    + destruct (Parse (callback (value r))) as [h|] eqn:Hh; [|discriminate].
      intros Hr2.
      exact (proj2 (proj2 (Hk (value r))) h Hh _ _
               (advances_in_bounds g src r (Hm g Hg) Hb Hr) Hr2).
    + intros [= <-]. exact (Hp g Hg src _ Hb Hr).
Qed.

Lemma And_tame {T U} (p : Parser T) (q : Parser U) :
  tame msg p -> tame msg q -> tame msg (And p q).
Proof. intros Hp Hq. apply Bind_tame; [assumption | intros _; assumption]. Qed.

Lemma Map_tame {T U} (p : Parser T) (callback : T -> U) :
  tame msg p -> tame msg (Map p callback).
Proof.
  intros Hp. apply Bind_tame; [assumption | intros v; apply Constant_tame].
Qed.
End Tame.

Ltac compiles := let Hc := fresh in intros Hc; vm_compute in Hc; discriminate Hc.

Ltac tame_step :=
  first
    [ assumption
    | apply Regexp_tame; compiles
    | apply Constant_tame
    | apply Error_tame
    | apply Many_tame
    | apply Maybe_tame
    | apply And_tame
    | apply Map_tame
    | apply Or_tame; repeat (apply List.Forall_cons); [.. | apply List.Forall_nil]
    | apply Bind_tame; [| intros ?] ].

Ltac tame_auto := repeat tame_step.

Lemma ignored_tame msg fuel : tame msg (ignored fuel).
Proof. unfold ignored, whitespace, comments. tame_auto. Qed.

Lemma token_tame msg fuel pattern :
  Compile ("^" +:+ TrimPrefix pattern "^") <> None ->
  tame msg (token fuel pattern).
Proof.
  intros Hc. unfold token.
  apply Bind_tame; [apply Regexp_tame; exact Hc | intros v].
  apply And_tame; [apply ignored_tame | apply Constant_tame].
Qed.

Ltac token_step := first [tame_step | apply token_tame; compiles].

Lemma infix_tame msg fuel operatOr termParser :
  tame msg operatOr -> tame msg termParser ->
  tame msg (infix fuel operatOr termParser).
Proof. intros Ho Ht. unfold infix. tame_auto. Qed.

Lemma call_node_tame fuel callee args :
  tame index_out_of_range (call_node fuel callee args).
Proof.
  unfold call_node. case_bool_decide; [destruct args|];
    unfold RIGHT_PAREN; repeat token_step.
Qed.

Lemma getComparisonParser_tame fuel expression :
  tame index_out_of_range expression ->
  tame index_out_of_range (getComparisonParser fuel expression).
Proof.
  intros He. unfold getComparisonParser.
  repeat (apply infix_tame);
    unfold EQUAL, NOT_EQUAL, PLUS, MINUS, STAR, SLASH, NOT, NUMBER, idParser, ID,
      COMMA, LEFT_PAREN, RIGHT_PAREN;
    repeat token_step; try apply call_node_tame.
Qed.

Lemma parameters_tame msg fuel : tame msg (parameters fuel).
Proof. unfold parameters, ID, COMMA. repeat token_step. Qed.

Lemma getStatementParser_tame fuel expression statement :
  tame index_out_of_range expression -> tame index_out_of_range statement ->
  tame index_out_of_range (getStatementParser fuel expression statement).
Proof.
  intros He Hs. unfold getStatementParser.
  unfold RETURN, SEMICOLON, IF, WHILE, ELSE, VAR, FUNCTION, ID, ASSIGN_OP,
    LEFT_PAREN, RIGHT_PAREN, LEFT_BRACE, RIGHT_BRACE.
  repeat token_step; try apply parameters_tame.
Qed.

Lemma expression_tame fuel : tame index_out_of_range (expression fuel).
Proof.
  split; [destruct fuel; discriminate|].
  split; [apply expression_monotone|].
  induction fuel as [|fuel IH]; intros f [= <-] src m Hb; [discriminate|].
  assert (He : tame index_out_of_range (expression fuel)).
  { split; [destruct fuel; discriminate|].
    split; [apply expression_monotone | exact IH]. }
  destruct (getComparisonParser_tame fuel _ He) as (Hn & _ & Hp).
  unfold invoke. destruct (Parse _) as [g|] eqn:Hg; [|contradiction].
  apply (Hp g Hg); assumption.
Qed.

Lemma statement_tame fuel : tame index_out_of_range (statement fuel).
Proof.
  split; [destruct fuel; discriminate|].
  split; [apply statement_monotone|].
  induction fuel as [|fuel IH]; intros f [= <-] src m Hb; [discriminate|].
  assert (Hs : tame index_out_of_range (statement fuel)).
  { split; [destruct fuel; discriminate|].
    split; [apply statement_monotone | exact IH]. }
  destruct (getStatementParser_tame fuel _ _ (expression_tame fuel) Hs)
    as (Hn & _ & Hp).
  unfold invoke. destruct (Parse _) as [g|] eqn:Hg; [|contradiction].
  apply (Hp g Hg); assumption.
Qed.

Lemma parser_tame fuel : tame index_out_of_range (parser fuel).
Proof.
  unfold parser. tame_auto; first [apply ignored_tame | apply statement_tame].
Qed.

Lemma Many_never_fails {T} (fuel : nat) (p : Parser T) (src : Source) :
  invoke (Many fuel p) src <> Done None.
Proof.
  unfold invoke, Many; simpl. destruct (Parse p) as [parse|]; [|discriminate].
  intros Hloop. destruct (Many_loop_sound parse fuel [] src None Hloop)
    as (vs & src' & Hr & _). discriminate Hr.
Qed.

Lemma parser_never_fails (fuel : nat) (src : Source) :
  invoke (parser fuel) src <> Done None.
Proof.
  unfold parser, Map, And.
  unfold invoke at 1. unfold Bind at 1. cbn [Parse parserOf].
  unfold invoke at 1. unfold Bind at 1. cbn [Parse parserOf].
  pose proof (Many_never_fails fuel (Or [whitespace; comments]) src) as Hi.
  fold (ignored fuel) in Hi.
  destruct (invoke (ignored fuel) src) as [[r|]| |]; try discriminate;
    [|contradiction].
  pose proof (Many_never_fails fuel (statement fuel) (source r)) as Hs.
  unfold invoke in Hs.
  destruct (Parse (Many fuel (statement fuel))) as [h|] eqn:Hh; [|discriminate].
  destruct (h (source r)) as [[r2|]| |]; try discriminate.
  contradiction.
Qed.

(** X19.  Parsing a text with the grammar fails in two ways only.  Either
    a prefix was parsed and the driver reports the index where parsing
    stopped, which lies inside the text, with the text left from there;
    or [__assert] was called with no argument, and reading [args[0]]
    panics with an index out of range.  The driver's two other panics,
    about a nil [Parse] and about nothing parsed at all, never happen
    with this grammar, and no regular expression of it fails to
    compile. *)
Theorem parse_failures :
  forall (fuel : nat) (text msg : string),
    ParseStringToCompletion (parser fuel) text = Panic msg ->
    msg = index_out_of_range
    \/ exists i : Z,
         0 <= i < Z.of_nat (String.length text)
         /\ msg = parse_error_at i (string_drop (Z.to_nat i) text).
Proof.
  intros fuel text msg. unfold ParseStringToCompletion.
  destruct (parser_tame fuel) as (Hn & Hm & Hp).
  pose proof (parser_never_fails fuel (NewSource text 0)) as Hnil.
  unfold invoke in Hnil.
  destruct (Parse (parser fuel)) as [parse|] eqn:Hparse; [|contradiction].
  assert (Hb : in_bounds (NewSource text 0)) by (unfold in_bounds; simpl; lia).
  destruct (parse (NewSource text 0)) as [[r|]| |] eqn:Hr; try discriminate.
  - destruct (Hm parse Hparse _ r Hb Hr) as [Hs Hi]. simpl in Hs, Hi.
    case_bool_decide as Hend; [|discriminate].
    rewrite Hs in *.
    rewrite bool_decide_eq_true_2 by lia.
    intros [= <-]. right. exists (index (source r)). split; [lia | reflexivity].
  - contradiction.
  - intros [= <-]. left. exact (Hp parse Hparse _ _ Hb Hr).
Qed.

Lemma parse_failures_witness :
  index_out_of_range = index_out_of_range
  \/ exists i : Z,
       0 <= i < Z.of_nat (String.length "f(1); __assert();")
       /\ index_out_of_range
          = parse_error_at i (string_drop (Z.to_nat i) "f(1); __assert();").
Proof.
  apply (parse_failures 5 "f(1); __assert();" index_out_of_range).
  vm_compute. reflexivity.
Defined.

(** ** Skipping white space and comments *)

Lemma leading_match (re : list RE2.item) (prev : option ascii) (s : string) (n : nat) :
  leading re = true -> RE2.match_items re prev s = Some n -> (1 <= n)%nat.
Proof.
  destruct re as [|[a|a| | | |] re]; try discriminate; intros _; simpl;
    unfold RE2.one; destruct s as [|c s]; try discriminate;
    destruct (RE2.atom_matches a c); try discriminate;
    destruct (_ _ _) as [k|]; try discriminate; intros [= <-]; lia.
Qed.

Lemma anchored_find_leading (re : list RE2.item) (s : string) (lo hi : nat) :
  leading re = true ->
  RE2.FindStringIndex (RE2.BeginText :: re) s = Some (lo, hi) ->
  lo = O /\ (1 <= hi)%nat.
Proof.
  intros Hl. unfold RE2.FindStringIndex. destruct s as [|c s]; simpl.
  - destruct (RE2.match_items re None EmptyString) as [n|] eqn:Hn; [|discriminate].
    intros [= <- <-]. split; [reflexivity | exact (leading_match _ _ _ _ Hl Hn)].
  - destruct (RE2.match_items re None (String c s)) as [n|] eqn:Hn.
    + intros [= <- <-]. split; [reflexivity | exact (leading_match _ _ _ _ Hl Hn)].
    + rewrite anchored_only_at_start. discriminate.
Qed.

Lemma Match_consumes (pattern : string) (re : list RE2.item) (text : string) :
  Compile ("^" +:+ TrimPrefix pattern "^") = Some (RE2.BeginText :: re) ->
  leading re = true ->
  consumes (fun src => Match src pattern) text.
Proof.
  intros Hc Hl s Hs Hb. unfold Match.
  case_bool_decide as Hend; [left; reflexivity|].
  rewrite Hc. case_bool_decide as Hneg; [unfold in_bounds in Hb; lia|].
  destruct (FindStringIndex _ _) as [[lo hi]|] eqn:Hfind; [|left; reflexivity].
  right. eexists. split; [reflexivity|]. simpl. split; [exact Hs|].
  pose proof (re2_bounded_find _ _ _ _ Hfind) as Hbd.
  apply (anchored_find_leading re) in Hfind as [-> Hhi]; [|exact Hl].
  rewrite string_drop_length in Hbd. rewrite Nat.sub_0_r.
  rewrite substring_full_length
    by (rewrite string_drop_length; lia).
  rewrite <- Hs. lia.
Qed.

Lemma Or_loop_consumes {T} (parsers : list (Parser T)) (text : string) :
  Forall (fun p => forall f, Parse p = Some f -> consumes f text) parsers ->
  consumes (Or_loop parsers) text.
Proof.
  induction 1 as [|p ps Hp _ IH]; intros s Hs Hb; simpl.
  - left. reflexivity.
  - destruct (Parse p) as [f|] eqn:Hf; [|exact (IH s Hs Hb)].
    destruct (Hp f eq_refl s Hs Hb) as [Hnone | (r & Hr & Hrest)].
    + rewrite Hnone. exact (IH s Hs Hb).
    + rewrite Hr. right. exists r. split; [reflexivity | exact Hrest].
Qed.

Lemma comments_consumes (text : string) :
  consumes (Or_loop [Regexp "//.*"; Regexp "(?s)/\*.*?\*/"]) text.
Proof.
  apply Or_loop_consumes.
  apply List.Forall_cons; [|apply List.Forall_cons; [|apply List.Forall_nil]].
  - intros f Hf. injection Hf as <-. eapply Match_consumes; reflexivity.
  - intros f Hf. injection Hf as <-. eapply Match_consumes; reflexivity.
Qed.

Lemma ignorable_consumes (text : string) :
  consumes (Or_loop [whitespace; comments]) text.
Proof.
  apply Or_loop_consumes.
  apply List.Forall_cons; [|apply List.Forall_cons; [|apply List.Forall_nil]].
  - intros f Hf. injection Hf as <-. eapply Match_consumes; reflexivity.
  - intros f Hf. injection Hf as <-. exact (comments_consumes text).
Qed.

Lemma repeats_ends {T} (parse : Source -> parsed T) src vs src' :
  repeats parse src vs src' -> parse src' = Done None.
Proof. induction 1; assumption. Qed.

Lemma repeats_advances {T} (parse : Source -> parsed T) src vs src' :
  advances parse -> in_bounds src -> repeats parse src vs src' ->
  str src' = str src
  /\ index src <= index src' <= Z.of_nat (String.length (str src)).
Proof.
  intros Ha Hb Hrep. induction Hrep as [src _|src r vs src' Hr _ IH].
  - unfold in_bounds in Hb. split; [reflexivity | lia].
  - destruct (Ha src r Hb Hr) as [Hs Hi].
    destruct (IH (advances_in_bounds parse src r Ha Hb Hr)) as [Hs' Hi'].
    rewrite Hs in Hs', Hi'. split; [exact Hs' | lia].
Qed.

Lemma ignorable_advances : advances (Or_loop [whitespace; comments]).
Proof.
  assert (Hm : monotone ignorable) by (unfold ignorable, whitespace, comments; monotone_auto).
  exact (Hm _ eq_refl).
Qed.

Lemma ignored_returns (src : Source) :
  in_bounds src ->
  exists vs src',
    repeats (Or_loop [whitespace; comments]) src vs src'
    /\ forall fuel, (remaining_bytes src < fuel)%nat ->
         invoke (ignored fuel) src = Done (Some (mkResult vs src')).
Proof.
  intros Hb.
  destruct (Many_loop_repeats (Or_loop [whitespace; comments]) (str src)
              (ignorable_consumes (str src)) (remaining_bytes src) src
              eq_refl Hb (le_n _)) as (vs & src' & Hrep & Hloop).
  exists vs, src'. split; [exact Hrep|].
  intros fuel Hfuel. exact (Hloop fuel [] Hfuel).
Qed.

(** X20.  Skipping white space and comments always returns: from every
    cursor within the text, with a step bound above the number of bytes
    left, [ignored] succeeds, whatever the text; it stops at a cursor of
    the same text, at or after the one it started from, where neither
    white space nor a comment begins.  An unterminated block comment is
    not skipped: [ignored] stops in front of it. *)
Theorem ignored_always_returns :
  forall src : Source,
    in_bounds src ->
    exists (vs : list string) (src' : Source),
      (forall fuel, (remaining_bytes src < fuel)%nat ->
         invoke (ignored fuel) src = Done (Some (mkResult vs src')))
      /\ str src' = str src
      /\ index src <= index src' <= Z.of_nat (String.length (str src))
      /\ invoke ignorable src' = Done None.
Proof.
  intros src Hb. destruct (ignored_returns src Hb) as (vs & src' & Hrep & Hrun).
  exists vs, src'. split; [exact Hrun|].
  destruct (repeats_advances _ _ _ _ ignorable_advances Hb Hrep) as [Hs Hi].
  split; [exact Hs|]. split; [exact Hi|].
  exact (repeats_ends _ _ _ _ Hrep).
Qed.

Lemma ignored_always_returns_witness :
  exists (vs : list string) (src' : Source),
    (forall fuel, (remaining_bytes (NewSource "a  // b
 /* c" 1) < fuel)%nat ->
       invoke (ignored fuel) (NewSource "a  // b
 /* c" 1) = Done (Some (mkResult vs src')))
    /\ str src' = "a  // b
 /* c"
    /\ 1 <= index src' <= Z.of_nat (String.length "a  // b
 /* c")
    /\ invoke ignorable src' = Done None.
Proof.
  apply (ignored_always_returns (NewSource "a  // b
 /* c" 1)).
  unfold in_bounds. simpl. lia.
Defined.

Lemma token_failure (pattern : string) (src : Source) (fuel : nat) :
  Match src pattern = Done None ->
  invoke (token fuel pattern) src = Done None.
Proof.
  intros Hnone.
  unfold token, And. unfold invoke at 1. unfold Bind at 1.
  cbn [Parse parserOf]. unfold invoke at 1. cbn [Regexp Parse parserOf].
  rewrite Hnone. reflexivity.
Qed.

Lemma token_success (pattern : string) (src : Source) (r : ParseResult string) :
  in_bounds src ->
  Match src pattern = Done (Some r) ->
  exists src',
    (forall fuel, (remaining_bytes (source r) < fuel)%nat ->
       invoke (token fuel pattern) src = Done (Some (mkResult (value r) src')))
    /\ str src' = str src
    /\ index (source r) <= index src' <= Z.of_nat (String.length (str src))
    /\ invoke ignorable src' = Done None.
Proof.
  intros Hb Hr.
  destruct (Match_advances re2_bounded_find pattern src r Hb Hr) as [Hs Hi].
  assert (Hb' : in_bounds (source r))
    by (unfold in_bounds in *; rewrite Hs; lia).
  destruct (ignored_returns (source r) Hb') as (vs & src' & Hrep & Hrun).
  destruct (repeats_advances _ _ _ _ ignorable_advances Hb' Hrep) as [Hs' Hi'].
  exists src'. split.
  - intros fuel Hfuel. specialize (Hrun fuel Hfuel).
    unfold token, And. unfold invoke at 1. unfold Bind at 1.
    cbn [Parse parserOf]. unfold invoke at 1. cbn [Regexp Parse parserOf].
    rewrite Hr. cbn [Bind Parse parserOf]. rewrite Hrun. reflexivity.
  - rewrite Hs in Hs', Hi'. split; [exact Hs'|]. split; [lia|].
    exact (repeats_ends _ _ _ _ Hrep).
Qed.

(** X21.  A token is its lexeme followed by whatever can be skipped.  If
    the pattern does not match at the cursor, the token fails.  If it
    matches, the token succeeds, whatever follows, with the lexeme alone
    as its value, white space and comments left out, and the cursor
    moved past the lexeme and past the white space and comments behind
    it (given a step bound above the number of bytes left). *)
Theorem token_is_lexeme_then_skip :
  forall (pattern : string) (src : Source),
    in_bounds src ->
    (Match src pattern = Done None ->
       forall fuel, invoke (token fuel pattern) src = Done None)
    /\ (forall r, Match src pattern = Done (Some r) ->
          exists src',
            (forall fuel, (remaining_bytes (source r) < fuel)%nat ->
               invoke (token fuel pattern) src
               = Done (Some (mkResult (value r) src')))
            /\ str src' = str src
            /\ index (source r) <= index src' <= Z.of_nat (String.length (str src))
            /\ invoke ignorable src' = Done None).
Proof.
  intros pattern src Hb. split.
  - intros Hnone fuel. exact (token_failure pattern src fuel Hnone).
  - intros r Hr. exact (token_success pattern src r Hb Hr).
Qed.

Lemma token_is_lexeme_then_skip_witness :
  exists src',
    (forall fuel,
       (remaining_bytes (NewSource "return  /* x */ 1;" 6) < fuel)%nat ->
       invoke (token fuel "return\b") (NewSource "return  /* x */ 1;" 0)
       = Done (Some (mkResult "return" src')))
    /\ str src' = "return  /* x */ 1;"
    /\ 6 <= index src' <= Z.of_nat (String.length "return  /* x */ 1;")
    /\ invoke ignorable src' = Done None.
Proof.
  apply (proj2 (token_is_lexeme_then_skip "return\b"
                  (NewSource "return  /* x */ 1;" 0)
                  ltac:(unfold in_bounds; simpl; lia))
           (mkResult "return" (NewSource "return  /* x */ 1;" 6))).
  reflexivity.
Defined.

(** ** Keywords *)

Lemma string_drop_app (pre s : string) :
  string_drop (String.length pre) (pre +:+ s) = s.
Proof. induction pre as [|c pre IH]; simpl; [reflexivity | exact IH]. Qed.

Lemma substring_app_prefix (k tail : string) :
  substring 0 (String.length k) (k +:+ tail) = k.
Proof.
  induction k as [|c k IH]; simpl.
  - destruct tail; reflexivity.
  - rewrite IH. reflexivity.
Qed.

Lemma length_append (a b : string) :
  String.length (a +:+ b) = (String.length a + String.length b)%nat.
Proof. induction a as [|c a IH]; simpl; [reflexivity | rewrite IH; reflexivity]. Qed.

Lemma literal_boundary (k : string) :
  forall (prev : option ascii) (tail : string),
    RE2.match_items (literal k ++ [RE2.WordBoundary]) prev (k +:+ tail)
    = if xorb (RE2.is_word (last_byte prev k)) (RE2.is_word (RE2.head tail))
      then Some (String.length k) else None.
Proof.
  induction k as [|c k IH]; intros prev tail.
  - unfold literal, last_byte. simpl.
    destruct (xorb _ _); reflexivity.
  - unfold literal, last_byte in *. simpl. unfold RE2.one. simpl.
    rewrite Ascii.eqb_refl. rewrite IH.
    destruct (xorb _ _); reflexivity.
Qed.

Lemma find_from_anchored_cons (re : list RE2.item) (c : ascii) (s : string)
    (pos : nat) :
  RE2.find_from (RE2.BeginText :: re) None (String c s) pos
  = match RE2.match_items re None (String c s) with
    | Some n => Some (pos, (pos + n)%nat)
    | None => None
    end.
Proof.
  simpl. destruct (RE2.match_items re None (String c s)); [reflexivity|].
  apply anchored_only_at_start.
Qed.

Lemma keyword_match (k : string) (pre tail : string) :
  Compile ("^" +:+ TrimPrefix (k +:+ "\b") "^")
  = Some (RE2.BeginText :: literal k ++ [RE2.WordBoundary]) ->
  RE2.is_word (last_byte None k) = true ->
  k <> EmptyString ->
  Match (NewSource (pre +:+ k +:+ tail) (Z.of_nat (String.length pre))) (k +:+ "\b")
  = if RE2.is_word (RE2.head tail) then Done None
    else Done (Some (mkResult k
                 (NewSource (pre +:+ k +:+ tail)
                    (Z.of_nat (String.length pre) + Z.of_nat (String.length k))))).
Proof.
  intros Hc Hw Hk. unfold Match. cbn [str index].
  assert (Hlen : (0 < String.length k)%nat) by (destruct k; [contradiction | simpl; lia]).
  rewrite bool_decide_eq_false_2 by (rewrite !length_append; lia).
  rewrite Hc. rewrite bool_decide_eq_false_2 by lia.
  rewrite Nat2Z.id, string_drop_app.
  match goal with
  | |- context [@FindStringIndex re2 ?re ?s] =>
      change (@FindStringIndex re2 re s) with (RE2.find_from re None s 0)
  end.
  destruct k as [|c k]; [contradiction|].
  rewrite (find_from_anchored_cons _ c (k +:+ tail) 0).
  change (String c (k +:+ tail)) with (String c k +:+ tail).
  rewrite literal_boundary, Hw. cbn [xorb].
  destruct (RE2.is_word (RE2.head tail)); cbn [negb].
  - reflexivity.
  - rewrite Nat.sub_0_r. cbn [Nat.add].
    rewrite substring_app_prefix. reflexivity.
Qed.

Lemma keyword_token (k : string) (fuel : nat) (pre tail : string) :
  Compile ("^" +:+ TrimPrefix (k +:+ "\b") "^")
  = Some (RE2.BeginText :: literal k ++ [RE2.WordBoundary]) ->
  RE2.is_word (last_byte None k) = true ->
  k <> EmptyString ->
  let src := NewSource (pre +:+ k +:+ tail) (Z.of_nat (String.length pre)) in
  (RE2.is_word (RE2.head tail) = true ->
     invoke (token fuel (k +:+ "\b")) src = Done None)
  /\ (RE2.is_word (RE2.head tail) = false ->
      (String.length tail < fuel)%nat ->
      exists src',
        invoke (token fuel (k +:+ "\b")) src = Done (Some (mkResult k src'))
        /\ str src' = str src
        /\ index src + Z.of_nat (String.length k) <= index src'
        /\ invoke ignorable src' = Done None).
Proof.
  intros Hc Hw Hk src. pose proof (keyword_match k pre tail Hc Hw Hk) as Hm.
  fold src in Hm. split.
  - intros Htail. rewrite Htail in Hm. exact (token_failure _ _ fuel Hm).
  - intros Htail Hfuel. rewrite Htail in Hm.
    assert (Hb : in_bounds src).
    { unfold in_bounds, src. cbn [str index]. rewrite !length_append. lia. }
    destruct (token_success _ _ _ Hb Hm) as (src' & Hrun & Hs & Hi & Hend).
    cbn [value source index] in Hrun, Hi.
    exists src'. split.
    + apply Hrun. unfold remaining_bytes. cbn [str index].
      rewrite !length_append. lia.
    + split; [exact Hs|]. split; [unfold src; cbn [index]; lia | exact Hend].
Qed.

(** X22.  A keyword is read only as a whole word.  In front of a letter,
    a digit or an underscore, each of the six keyword tokens fails, so
    that [iffy] or [return1] is left to the rule for names; in front of
    any other byte, or at the end of the text, it succeeds with the
    keyword as its value and moves past it and past the white space and
    comments behind it. *)
Theorem keywords_are_whole_words :
  forall (fuel : nat) (k : string) (p : Parser string) (pre tail : string),
    In (k, p) (keyword_tokens fuel) ->
    let src := NewSource (pre +:+ k +:+ tail) (Z.of_nat (String.length pre)) in
    (RE2.is_word (RE2.head tail) = true -> invoke p src = Done None)
    /\ (RE2.is_word (RE2.head tail) = false ->
        (String.length tail < fuel)%nat ->
        exists src',
          invoke p src = Done (Some (mkResult k src'))
          /\ str src' = str src
          /\ index src + Z.of_nat (String.length k) <= index src'
          /\ invoke ignorable src' = Done None).
Proof.
  intros fuel k p pre tail Hin.
  assert (Hne : forall c s, String c s <> EmptyString) by discriminate.
  destruct Hin as [[= <- <-] | Hin];
    [exact (keyword_token "function" fuel pre tail eq_refl eq_refl (Hne _ _))|].
  destruct Hin as [[= <- <-] | Hin];
    [exact (keyword_token "if" fuel pre tail eq_refl eq_refl (Hne _ _))|].
  destruct Hin as [[= <- <-] | Hin];
    [exact (keyword_token "while" fuel pre tail eq_refl eq_refl (Hne _ _))|].
  destruct Hin as [[= <- <-] | Hin];
    [exact (keyword_token "else" fuel pre tail eq_refl eq_refl (Hne _ _))|].
  destruct Hin as [[= <- <-] | Hin];
    [exact (keyword_token "return" fuel pre tail eq_refl eq_refl (Hne _ _))|].
  destruct Hin as [[= <- <-] | Hin];
    [exact (keyword_token "var" fuel pre tail eq_refl eq_refl (Hne _ _))|].
  destruct Hin.
Qed.

Lemma keywords_are_whole_words_witness :
  invoke (IF 9)
    (NewSource ("x; " +:+ "if" +:+ "fy = 1;") (Z.of_nat (String.length "x; ")))
  = Done None.
Proof.
  apply (proj1 (keywords_are_whole_words 9 "if" (IF 9) "x; " "fy = 1;"
                  (or_intror (or_introl eq_refl)))).
  reflexivity.
Defined.

(** ** Number literals *)

Lemma star_greedy_all (a : RE2.atom) (s : string) :
  (forall c s1 s2, s = s1 +:+ String c s2 -> RE2.atom_matches a c = true) ->
  forall prev, RE2.star_greedy a (RE2.match_items []) prev s = Some (String.length s).
Proof.
  induction s as [|c s IH]; intros Hall prev; simpl; [reflexivity|].
  rewrite (Hall c EmptyString s eq_refl).
  rewrite IH; [reflexivity|].
  intros c' s1 s2 ->. exact (Hall c' (String c s1) s2 eq_refl).
Qed.

Lemma all_digits_split (s : string) :
  all_digits s = true ->
  forall c s1 s2, s = s1 +:+ String c s2 -> is_digit c = true.
Proof.
  induction s as [|a s IH]; intros Hs c s1 s2 Heq.
  - destruct s1; discriminate.
  - simpl in Hs. apply andb_prop in Hs as [Ha Hs].
    destruct s1 as [|b s1]; simpl in Heq; injection Heq as -> ->.
    + exact Ha.
    + exact (IH Hs c s1 s2 eq_refl).
Qed.

Lemma substring_whole (s : string) : substring 0 (String.length s) s = s.
Proof.
  induction s as [|c s IH]; simpl; [reflexivity | rewrite IH; reflexivity].
Qed.

Lemma digits_match (s : string) :
  s <> EmptyString -> all_digits s = true ->
  Match (NewSource s 0) "[0-9]+"
  = Done (Some (mkResult s (NewSource s (Z.of_nat (String.length s))))).
Proof.
  intros Hne Hs. unfold Match. cbn [str index].
  destruct s as [|c s]; [contradiction|].
  rewrite bool_decide_eq_false_2 by (simpl; lia).
  change (Compile ("^" +:+ TrimPrefix "[0-9]+" "^"))
    with (Some [RE2.BeginText; RE2.Plus (RE2.AClass [("0"%char, "9"%char)])]).
  rewrite bool_decide_eq_false_2 by lia.
  change (string_drop (Z.to_nat 0) (String c s)) with (String c s).
  match goal with
  | |- context [@FindStringIndex re2 ?re ?t] =>
      change (@FindStringIndex re2 re t) with (RE2.find_from re None t 0)
  end.
  rewrite find_from_anchored_cons.
  pose proof (all_digits_split _ Hs) as Hall.
  cbn [RE2.match_items]. unfold RE2.one.
  change (RE2.atom_matches (RE2.AClass [("0"%char, "9"%char)]) c) with (is_digit c).
  rewrite (Hall c EmptyString s eq_refl).
  rewrite star_greedy_all
    by (intros c' s1 s2 ->; exact (Hall c' (String c s1) s2 eq_refl)).
  cbn [fmap option_fmap option_map Nat.add]. rewrite Nat.sub_0_r.
  change (S (String.length s)) with (String.length (String c s)).
  rewrite substring_whole, Z.add_0_l. reflexivity.
Qed.

Lemma ignored_at_end (fuel : nat) (s : string) :
  invoke (ignored (S fuel)) (NewSource s (Z.of_nat (String.length s)))
  = Done (Some (mkResult [] (NewSource s (Z.of_nat (String.length s))))).
Proof.
  unfold invoke, ignored, Many, whitespace, comments; simpl.
  unfold Match; simpl. rewrite !bool_decide_eq_true_2 by lia. reflexivity.
Qed.

Lemma NUMBER_reads_digits (fuel : nat) (s : string) :
  s <> EmptyString -> all_digits s = true ->
  ParseStringToCompletion (NUMBER (S fuel)) s = Done (Number (Atoi s)).
Proof.
  intros Hne Hs. unfold ParseStringToCompletion, NUMBER, Map, token, And.
  cbn [Parse Bind parserOf]. unfold invoke at 1. cbn [Parse Bind parserOf].
  unfold invoke at 1. cbn [Parse Regexp parserOf].
  rewrite (digits_match s Hne Hs). cbn [value source].
  pose proof (ignored_at_end fuel s) as Hi. unfold invoke in Hi |- *.
  destruct (Parse (ignored (S fuel))) as [f|]; [|discriminate Hi].
  rewrite Hi. cbn [value source Constant Parse parserOf str index].
  rewrite bool_decide_eq_false_2 by (intros Hx; apply Hx; reflexivity).
  reflexivity.
Qed.

Lemma decimal_acc (d : Decimal.uint) :
  forall acc : positive,
    decimal (Z.pos acc) (NilEmpty.string_of_uint d)
    = Z.pos (Pos.of_uint_acc d acc).
Proof.
  induction d; intros acc; cbn [NilEmpty.string_of_uint decimal Pos.of_uint_acc];
    try reflexivity;
    rewrite <- IHd; f_equal;
    match goal with
    | |- context [digit_value ?c] =>
        let v := eval vm_compute in (digit_value c) in
        change (digit_value c) with v
    end; lia.
Qed.

Lemma decimal_of_uint (d : Decimal.uint) :
  decimal 0 (NilEmpty.string_of_uint d) = Z.of_uint d.
Proof.
  unfold Z.of_uint.
  induction d; cbn [NilEmpty.string_of_uint decimal Pos.of_uint];
    try reflexivity;
    try (change (10 * 0 + digit_value "0") with 0; exact IHd);
    match goal with
    | |- decimal ?acc _ = _ =>
        let v := eval vm_compute in acc in change acc with v
    end;
    rewrite decimal_acc; reflexivity.
Qed.

Lemma digits_of_uint (d : Decimal.uint) :
  all_digits (NilEmpty.string_of_uint d) = true.
Proof. induction d; simpl; try reflexivity; exact IHd. Qed.

Lemma fmt_d_digits (n : Z) :
  0 <= n ->
  fmt_d n <> EmptyString
  /\ all_digits (fmt_d n) = true
  /\ decimal 0 (fmt_d n) = n.
Proof.
  intros Hn. unfold fmt_d.
  pose proof (DecimalZ.of_to n) as Hback.
  destruct (to_int_not_nil n) as [Hnil _].
  destruct (Z.to_int n) as [d|d] eqn:Hd.
  - assert (Hne : d <> Decimal.Nil) by congruence.
    cbn [NilZero.string_of_int]. cbn [Z.of_int] in Hback.
    assert (Hs : NilZero.string_of_uint d = NilEmpty.string_of_uint d)
      by (destruct d; [contradiction | reflexivity ..]).
    rewrite Hs. split; [destruct d; [contradiction | discriminate ..]|].
    split; [apply digits_of_uint|].
    rewrite decimal_of_uint. exact Hback.
  - destruct n; try discriminate Hd. lia.
Qed.

(** X23.  A number survives the round trip through text: the decimal
    text that [%d] prints for a non-negative [int] is read back by
    [NUMBER] to the end, as the [Number] of the same value.  A literal
    above the largest [int] is not refused: the error of [strconv.Atoi]
    is dropped and the literal becomes the largest [int]. *)
Theorem number_round_trip :
  forall (n : Z) (fuel : nat),
    0 <= n ->
    (1 <= fuel)%nat ->
    ParseStringToCompletion (NUMBER fuel) (fmt_d n)
    = Done (Number (Z.min n int_max)).
Proof.
  intros n fuel Hn Hfuel. destruct fuel as [|fuel]; [lia|].
  destruct (fmt_d_digits n Hn) as (Hne & Hs & Hv).
  rewrite (NUMBER_reads_digits fuel _ Hne Hs). unfold Atoi. rewrite Hv.
  reflexivity.
Qed.

Lemma number_round_trip_witness :
  ParseStringToCompletion (NUMBER 1) (fmt_d 9223372036854775808)
  = Done (Number (Z.min 9223372036854775808 int_max)).
Proof.
  apply (number_round_trip 9223372036854775808 1).
  - lia.
  - lia.
Defined.

(** ** The trees the grammar builds *)

Lemma yields_anything {T} (p : Parser T) : yields (fun _ => True) p.
Proof. intros f _ src r _. exact I. Qed.

Lemma Constant_yields {T} (P : T -> Prop) (v : T) : P v -> yields P (Constant v).
Proof. intros Hv f [= <-] src r [= <-]. exact Hv. Qed.

Lemma Error_yields {T} (P : T -> Prop) (message : string) :
  yields P (@Error T message).
Proof. intros f [= <-] src r Hr. discriminate Hr. Qed.

Lemma Or_yields {T} (P : T -> Prop) (parsers : list (Parser T)) :
  Forall (yields P) parsers -> yields P (Or parsers).
Proof.
  intros Hall f [= <-] src r.
  induction Hall as [|p ps Hp _ IH]; simpl; [discriminate|].
  destruct (Parse p) as [g|] eqn:Hg; [|exact IH].
  destruct (g src) as [[r'|]| |] eqn:Hr; try discriminate.
  - intros [= <-]. exact (Hp g Hg src r' Hr).
  - exact IH.
Qed.

Lemma Many_loop_yields {T} (P : T -> Prop) (parse : Source -> parsed T) :
  (forall src r, parse src = Done (Some r) -> P (value r)) ->
  forall fuel acc src r,
    Forall P acc ->
    Many_loop fuel parse acc src = Done (Some r) -> Forall P (value r).
Proof.
  intros Hp. induction fuel as [|fuel IH]; intros acc src r Hacc; simpl;
    [discriminate|].
  destruct (parse src) as [[r'|]| |] eqn:Hr; try discriminate.
  - apply IH. apply Forall_app. split; [exact Hacc|].
    apply List.Forall_cons; [exact (Hp src r' Hr) | apply List.Forall_nil].
  - intros [= <-]. exact Hacc.
Qed.

Lemma Many_yields {T} (P : T -> Prop) (fuel : nat) (p : Parser T) :
  yields P p -> yields (Forall P) (Many fuel p).
Proof.
  intros Hp f [= <-] src r. destruct (Parse p) as [g|] eqn:Hg.
  - apply Many_loop_yields; [exact (Hp g Hg) | apply List.Forall_nil].
  - intros [= <-]. apply List.Forall_nil.
Qed.

Lemma Bind_yields {T U} (P : T -> Prop) (Q : U -> Prop) (p : Parser T)
    (callback : T -> Parser U) :
  yields P p -> (forall v, P v -> yields Q (callback v)) ->
  yields Q (Bind p callback).
Proof.
  intros Hp Hk f [= <-] src r. unfold invoke.
  destruct (Parse p) as [g|] eqn:Hg; [|discriminate].
  destruct (g src) as [[r'|]| |] eqn:Hr; try discriminate.
  destruct (Parse (callback (value r'))) as [h|] eqn:Hh; [|discriminate].
  intros Hr2. exact (Hk (value r') (Hp g Hg src r' Hr) h Hh _ r Hr2).
Qed.

Lemma And_yields {T U} (Q : U -> Prop) (p : Parser T) (q : Parser U) :
  yields Q q -> yields Q (And p q).
Proof.
  intros Hq. apply (Bind_yields (fun _ => True)); [apply yields_anything|].
  intros _ _. exact Hq.
Qed.

Lemma Map_yields {T U} (P : T -> Prop) (Q : U -> Prop) (p : Parser T)
    (callback : T -> U) :
  yields P p -> (forall v, P v -> Q (callback v)) -> yields Q (Map p callback).
Proof.
  intros Hp Hk. apply (Bind_yields P); [exact Hp|].
  intros v Hv. apply Constant_yields, Hk, Hv.
Qed.

Lemma Forall_plain (l : list AST) : Forall is_plain l -> forallb plain l = true.
Proof.
  intros Hl. apply forallb_forall. intros a Ha.
  exact (proj1 (List.Forall_forall is_plain l) Hl a Ha).
Qed.

Lemma apply_ops_plain (ops : list (AST -> AST)) :
  Forall plain_builder ops ->
  forall left, is_plain left -> is_plain (apply_ops left ops).
Proof.
  unfold apply_ops. induction 1 as [|op ops Hop _ IH]; intros left Hl; simpl.
  - exact Hl.
  - apply IH, Hop, Hl.
Qed.

Lemma binary_plain (l r : AST) :
  is_plain l -> is_plain r -> plain l && plain r = true.
Proof. unfold is_plain. intros -> ->. reflexivity. Qed.

Ltac plain_goal :=
  unfold is_plain in *; cbn [plain];
  repeat match goal with
         | H : plain _ = true |- _ => rewrite H
         end;
  try reflexivity.

Lemma infix_yields fuel operatOr termParser :
  yields plain_operator operatOr -> yields is_plain termParser ->
  yields is_plain (infix fuel operatOr termParser).
Proof.
  intros Ho Ht. unfold infix.
  apply (Bind_yields is_plain); [exact Ht | intros left Hl].
  apply (Bind_yields (Forall plain_builder)).
  - apply Many_yields.
    apply (Bind_yields plain_operator); [exact Ho | intros op Hop].
    apply (Bind_yields is_plain); [exact Ht | intros right Hr].
    apply Constant_yields. intros a Ha. exact (Hop a right Ha Hr).
  - intros ops Hops. apply Constant_yields.
    exact (apply_ops_plain ops Hops left Hl).
Qed.

Lemma operator_yields fuel pattern (op : AST -> AST -> AST) :
  plain_operator op ->
  yields plain_operator (Map (token fuel pattern) (fun _ => op)).
Proof.
  intros Hop. apply (Map_yields (fun _ => True)); [apply yields_anything|].
  intros _ _. exact Hop.
Qed.

Lemma call_node_yields fuel callee args :
  Forall is_plain args -> yields is_plain (call_node fuel callee args).
Proof.
  intros Hargs. unfold call_node. case_bool_decide.
  - destruct args as [|arg0 args]; [apply Error_yields|].
    apply And_yields, Constant_yields.
    inversion Hargs; subst. assumption.
  - apply And_yields, Constant_yields.
    unfold is_plain. cbn [plain]. exact (Forall_plain args Hargs).
Qed.

Lemma getComparisonParser_yields fuel expression :
  yields is_plain expression ->
  yields is_plain (getComparisonParser fuel expression).
Proof.
  intros He. unfold getComparisonParser.
  repeat (apply infix_yields);
    try solve
      [ apply Or_yields;
        repeat (apply List.Forall_cons); [.. | apply List.Forall_nil];
        unfold EQUAL, NOT_EQUAL, PLUS, MINUS, STAR, SLASH;
        apply operator_yields; intros a b Ha Hb; plain_goal ].
  apply (Bind_yields (fun _ => True)); [apply yields_anything | intros not _].
  apply (Map_yields is_plain); [|intros term Hterm; destruct not; exact Hterm].
  apply Or_yields.
  repeat (apply List.Forall_cons); [.. | apply List.Forall_nil].
  - (* call *)
    apply (Bind_yields (fun _ => True)); [apply yields_anything | intros callee _].
    apply And_yields.
    apply (Bind_yields (Forall is_plain)); [|intros args Hargs; apply call_node_yields, Hargs].
    apply Or_yields.
    repeat (apply List.Forall_cons); [.. | apply List.Forall_nil].
    + apply (Bind_yields is_plain); [exact He | intros arg Harg].
      apply (Bind_yields (Forall is_plain));
        [apply Many_yields, And_yields, He | intros args Hargs].
      apply Constant_yields. apply List.Forall_cons; assumption.
    + apply Constant_yields. apply List.Forall_nil.
  - (* idParser *)
    apply (Map_yields (fun _ => True)); [apply yields_anything|].
    intros x _. reflexivity.
  - (* NUMBER *)
    apply (Map_yields (fun _ => True)); [apply yields_anything|].
    intros digits _. reflexivity.
  - apply (Bind_yields is_plain); [apply And_yields, He | intros e Hexp].
    apply And_yields, Constant_yields, Hexp.
Qed.

Lemma function_node_plain name parameters block :
  is_plain block -> is_plain (function_node name parameters block).
Proof.
  intros Hb. unfold function_node. case_bool_decide; [|exact Hb].
  destruct block; exact Hb.
Qed.

Lemma getStatementParser_yields fuel expression statement :
  yields is_plain expression -> yields is_plain statement ->
  yields is_plain (getStatementParser fuel expression statement).
Proof.
  intros He Hs. unfold getStatementParser.
  assert (Hblock :
    yields is_plain
      (Bind (And (LEFT_BRACE fuel) (Many fuel statement)) (fun statements =>
         And (RIGHT_BRACE fuel) (Constant (Block statements))))).
  { apply (Bind_yields (Forall is_plain)); [apply And_yields, Many_yields, Hs|].
    intros statements Hall. apply And_yields, Constant_yields.
    unfold is_plain. cbn [plain]. exact (Forall_plain _ Hall). }
  apply Or_yields.
  repeat (apply List.Forall_cons); [.. | apply List.Forall_nil].
  - (* return *)
    apply (Bind_yields is_plain); [apply And_yields, He | intros term Ht].
    apply And_yields, Constant_yields. exact Ht.
  - (* function *)
    apply (Bind_yields (fun _ => True)); [apply yields_anything | intros name _].
    apply (Bind_yields (fun _ => True)); [apply yields_anything | intros ps _].
    apply (Bind_yields is_plain); [apply And_yields, Hblock | intros block Hb].
    apply Constant_yields, function_node_plain, Hb.
  - (* if *)
    apply (Bind_yields is_plain); [apply And_yields, He | intros c Hc].
    apply (Bind_yields is_plain); [apply And_yields, Hs | intros t Ht].
    apply (Bind_yields is_plain); [apply And_yields, Hs | intros e Hel].
    apply Constant_yields. plain_goal.
  - (* while *)
    apply (Bind_yields is_plain); [apply And_yields, He | intros c Hc].
    apply (Bind_yields is_plain); [apply And_yields, Hs | intros b Hb].
    apply Constant_yields. plain_goal.
  - (* var *)
    apply (Bind_yields (fun _ => True)); [apply yields_anything | intros name _].
    apply (Bind_yields is_plain); [apply And_yields, He | intros v Hv].
    apply And_yields, Constant_yields. exact Hv.
  - (* assignment *)
    apply (Bind_yields (fun _ => True)); [apply yields_anything | intros name _].
    apply (Bind_yields is_plain); [apply And_yields, He | intros v Hv].
    apply And_yields, Constant_yields. exact Hv.
  - exact Hblock.
  - (* expression statement *)
    apply (Bind_yields is_plain); [exact He | intros term Ht].
    apply And_yields, Constant_yields. exact Ht.
Qed.

Lemma expression_yields fuel : yields is_plain (expression fuel).
Proof.
  induction fuel as [|fuel IH]; intros f [= <-] src r; [discriminate|].
  pose proof (getComparisonParser_yields fuel _ IH) as Hc.
  unfold invoke. destruct (Parse _) as [g|] eqn:Hg; [|discriminate].
  exact (Hc g Hg src r).
Qed.

Lemma statement_yields fuel : yields is_plain (statement fuel).
Proof.
  induction fuel as [|fuel IH]; intros f [= <-] src r; [discriminate|].
  pose proof (getStatementParser_yields fuel _ _ (expression_yields fuel) IH) as Hc.
  unfold invoke. destruct (Parse _) as [g|] eqn:Hg; [|discriminate].
  exact (Hc g Hg src r).
Qed.

Lemma parser_yields fuel : yields is_plain (parser fuel).
Proof.
  unfold parser.
  apply (Map_yields (Forall is_plain));
    [apply And_yields, Many_yields, statement_yields|].
  intros statements Hall. unfold is_plain. cbn [plain].
  exact (Forall_plain _ Hall).
Qed.

(** ** How emitting a parsed tree can fail *)

Lemma seq_panics a b : panics_within a -> panics_within b -> panics_within (seq a b).
Proof.
  intros Ha Hb st st' msg. unfold seq.
  destruct (a st) as [[[]| |] st1] eqn:Hrun.
  - apply Hb.
  - intros [= <- <-]. exact (Ha _ _ _ Hrun).
  - discriminate.
Qed.

Lemma emit_panics line : panics_within (emit line).
Proof. intros st st' msg Hrun. discriminate Hrun. Qed.

Lemma skip_panics : panics_within skip.
Proof. intros st st' msg Hrun. discriminate Hrun. Qed.

Lemma declare_local_panics name : panics_within (declare_local name).
Proof. intros st st' msg Hrun. discriminate Hrun. Qed.

Lemma panic_panics msg : emit_panic msg -> panics_within (panic msg).
Proof. intros Hm st st' m [= <- _]. exact Hm. Qed.

Lemma lookup_local_panics name k :
  (forall offset, panics_within (k offset)) ->
  panics_within (lookup_local name k).
Proof.
  intros Hk st st' msg. unfold lookup_local.
  destruct (locals (env st) !! name); [apply Hk|].
  intros [= <- _]. right. right. exists name. reflexivity.
Qed.

Lemma NewLabel_panics k :
  (forall l, panics_within (k l)) -> panics_within (NewLabel k).
Proof. intros Hk st st' msg. unfold NewLabel. apply Hk. Qed.

Lemma with_environment_panics e body :
  panics_within body -> panics_within (with_environment e body).
Proof.
  intros Hb st st' msg. unfold with_environment.
  destruct (body _) as [r st1] eqn:Hrun. intros [= -> _].
  exact (Hb _ _ _ Hrun).
Qed.

Lemma for_each_panics (body : AST -> emitter) (l : list AST) :
  Forall (fun a => panics_within (body a)) l -> panics_within (for_each body l).
Proof.
  induction 1 as [|a l Ha _ IH]; simpl.
  - apply skip_panics.
  - apply seq_panics; assumption.
Qed.

Lemma for_each_argument_panics (body : AST -> emitter) (l : list AST) :
  Forall (fun a => panics_within (body a)) l ->
  forall i, panics_within (for_each_argument body i l).
Proof.
  induction 1 as [|a l Ha _ IH]; intros i; simpl.
  - apply skip_panics.
  - apply seq_panics; [exact Ha|].
    apply seq_panics; [apply emit_panics | apply IH].
Qed.

Lemma Forall_plain_panics (l : list AST) :
  Forall (fun a => plain a = true -> panics_within (Emit a)) l ->
  forallb plain l = true ->
  Forall (fun a => panics_within (Emit a)) l.
Proof.
  induction 1 as [|a l Ha _ IH]; intros Hl; [apply List.Forall_nil|].
  simpl in Hl. apply andb_prop in Hl as [H1 H2].
  apply List.Forall_cons; [exact (Ha H1) | exact (IH H2)].
Qed.

Ltac panics_step :=
  lazymatch goal with
  | |- panics_within (seq _ _) => apply seq_panics
  | |- panics_within (emit _) => apply emit_panics
  | |- panics_within (Emit _) => auto
  | |- panics_within (declare_local _) => apply declare_local_panics
  | |- panics_within (with_environment _ _) => apply with_environment_panics
  | |- panics_within (NewLabel _) => apply NewLabel_panics; intros ?
  | |- panics_within (lookup_local _ _) => apply lookup_local_panics; intros ?
  end.

Lemma Emit_panics (a : AST) : plain a = true -> panics_within (Emit a).
Proof.
  induction a using AST_nested_ind; cbn [Emit plain]; intros Hp;
    unfold binary, emitPrologue, emitEpilogue;
    repeat match goal with
           | H : _ && _ = true |- _ => apply andb_prop in H as [? ?]
           end;
    try discriminate.
  all: try solve [repeat panics_step].
  - (* Call *)
    pose proof (Forall_plain_panics args H Hp) as Hall.
    destruct args as [|arg0 [|arg1 rest]].
    + apply emit_panics.
    + cbn [length].
      rewrite bool_decide_eq_false_2 by discriminate.
      rewrite bool_decide_eq_true_2 by reflexivity.
      apply seq_panics; [inversion Hall; assumption | apply emit_panics].
    + remember (arg0 :: arg1 :: rest) as args eqn:Hargs.
      assert (Hlen : (2 <= length args)%nat) by (subst args; simpl; lia).
      clear Hargs.
      repeat case_bool_decide; cbn [andb]; try lia.
      * apply seq_panics; [apply emit_panics|].
        apply seq_panics; [apply for_each_argument_panics, Hall|].
        apply seq_panics; apply emit_panics.
      * apply panic_panics. left. reflexivity.
  - (* Block *) apply for_each_panics, Forall_plain_panics; assumption.
  - (* Function *)
    case_bool_decide; repeat panics_step.
    apply panic_panics. right. left. reflexivity.
  - (* Main *)
    repeat panics_step. apply for_each_panics, Forall_plain_panics; assumption.
Qed.

Lemma parsed_plain (fuel : nat) (text : string) (tree : AST) :
  ParseStringToCompletion (parser fuel) text = Done tree -> plain tree = true.
Proof.
  intros Hparse. unfold ParseStringToCompletion in Hparse.
  pose proof (parser_yields fuel) as Hy.
  destruct (Parse (parser fuel)) as [parse|] eqn:Hp; [|discriminate].
  destruct (parse (NewSource text 0)) as [[r|]| |] eqn:Hr; try discriminate.
  case_bool_decide; [case_bool_decide; discriminate|].
  injection Hparse as <-. exact (Hy parse Hp _ r Hr).
Qed.

(** X24.  What the grammar builds can always be emitted up to the three
    panics of the [Emit] methods.  A tree parsed to completion holds
    node structs only, no [nil] and no pointer, so comparing it with
    [Equals] to any parsed tree, itself included, answers [false];
    emitting it, from any state, never dereferences [nil] and never
    reads a missing argument: it returns, or it panics because a call
    has more than four arguments, a function more than four parameters,
    or a name is read or assigned that is not bound. *)
Theorem parsed_trees_emit_or_report :
  forall (fuel : nat) (text : string) (tree : AST),
    ParseStringToCompletion (parser fuel) text = Done tree ->
    plain tree = true
    /\ (forall fuel' text' other,
          ParseStringToCompletion (parser fuel') text' = Done other ->
          Equals tree other = Done false)
    /\ forall st st' msg,
         Emit tree st = (Panic msg, st') ->
         msg = "More than 4 arguments are not supported"
         \/ msg = "More than 4 params is not supported"
         \/ exists name, msg = "Undefined variable: " +:+ name.
Proof.
  intros fuel text tree Hparse.
  pose proof (parsed_plain fuel text tree Hparse) as Hplain.
  split; [exact Hplain|]. split.
  - intros fuel' text' other Hother.
    apply Equals_value_operand; [exact Hplain|].
    apply parsed_plain in Hother.
    destruct other; try reflexivity. discriminate Hother.
  - intros st st' msg Hrun. exact (Emit_panics tree Hplain st st' msg Hrun).
Qed.

Lemma parsed_trees_emit_or_report_witness :
  plain (Block [Function "f" ["a"] (Block [Return (Call "g" [Id "a"; Id "b"])])])
  = true
  /\ (forall fuel' text' other,
        ParseStringToCompletion (parser fuel') text' = Done other ->
        Equals (Block [Function "f" ["a"] (Block [Return (Call "g" [Id "a"; Id "b"])])])
          other = Done false)
  /\ forall st st' msg,
       Emit (Block [Function "f" ["a"] (Block [Return (Call "g" [Id "a"; Id "b"])])])
         st = (Panic msg, st') ->
       msg = "More than 4 arguments are not supported"
       \/ msg = "More than 4 params is not supported"
       \/ exists name, msg = "Undefined variable: " +:+ name.
Proof.
  apply (parsed_trees_emit_or_report 6 "function f(a) { return g(a, b); }").
  vm_compute. reflexivity.
Defined.

(** * A function named [__main] *)

(** ** Only [Var] binds a name *)

Lemma binds_only_weaken x d d' e :
  binds_only x d e -> (d = true -> d' = true) -> binds_only x d' e.
Proof. intros He Hd st Hx. destruct (He st Hx) as [H|H]; [left | right]; auto. Qed.

Lemma seq_binds_only x da db a b :
  binds_only x da a -> binds_only x db b -> binds_only x (da || db) (seq a b).
Proof.
  intros Ha Hb st. unfold seq.
  pose proof (Ha st) as Ha'. destruct (a st) as [[[]| |] st1]; simpl in *.
  - intros Hx. destruct (Hb st1 Hx) as [H1 | ->].
    + destruct (Ha' H1) as [H0 | ->]; [left; exact H0 | right; reflexivity].
    + right. apply orb_true_r.
  - intros Hx. destruct (Ha' Hx) as [H0 | ->]; [left; exact H0 | right; reflexivity].
  - intros Hx. destruct (Ha' Hx) as [H0 | ->]; [left; exact H0 | right; reflexivity].
Qed.

Lemma emit_binds_only x line : binds_only x false (emit line).
Proof. intros st Hx. left. exact Hx. Qed.

Lemma skip_binds_only x : binds_only x false skip.
Proof. intros st Hx. left. exact Hx. Qed.

Lemma panic_binds_only x msg : binds_only x false (panic msg).
Proof. intros st Hx. left. exact Hx. Qed.

Lemma declare_local_binds_only x name :
  binds_only x (String.eqb name x) (declare_local name).
Proof.
  intros st. unfold declare_local. simpl.
  destruct (String.eqb_spec name x) as [->|Hne]; [right; reflexivity|].
  rewrite lookup_insert_ne by exact Hne. intros Hx. left. exact Hx.
Qed.

Lemma lookup_local_binds_only x d name k :
  (forall offset, binds_only x d (k offset)) ->
  binds_only x d (lookup_local name k).
Proof.
  intros Hk st. unfold lookup_local.
  destruct (locals (env st) !! name); [apply Hk|].
  intros Hx. left. exact Hx.
Qed.

Lemma NewLabel_binds_only x d k :
  (forall l, binds_only x d (k l)) -> binds_only x d (NewLabel k).
Proof. intros Hk st. unfold NewLabel. intros Hx. exact (Hk _ _ Hx). Qed.

Lemma with_environment_binds_only x e body :
  binds_only x false (with_environment e body).
Proof.
  intros st. unfold with_environment. destruct (body _) as [r st1].
  intros Hx. left. exact Hx.
Qed.

Lemma for_each_binds_only x (body : AST -> emitter) (d : AST -> bool) (l : list AST) :
  Forall (fun a => binds_only x (d a) (body a)) l ->
  binds_only x (existsb d l) (for_each body l).
Proof.
  induction 1 as [|a l Ha _ IH]; simpl.
  - apply skip_binds_only.
  - apply seq_binds_only; assumption.
Qed.

Lemma for_each_argument_binds_only x (body : AST -> emitter) (d : AST -> bool)
    (l : list AST) :
  Forall (fun a => binds_only x (d a) (body a)) l ->
  forall i, binds_only x (existsb d l) (for_each_argument body i l).
Proof.
  induction 1 as [|a l Ha _ IH]; intros i; simpl.
  - apply skip_binds_only.
  - apply seq_binds_only; [exact Ha|].
    apply (binds_only_weaken x (false || existsb d l));
      [apply seq_binds_only; [apply emit_binds_only | apply IH] | auto].
Qed.

Ltac binds_step :=
  lazymatch goal with
  | |- binds_only _ _ (seq _ _) => eapply seq_binds_only
  | |- binds_only _ _ (emit _) => apply emit_binds_only
  | |- binds_only _ _ (Emit _) => eassumption
  | |- binds_only _ _ (declare_local _) => apply declare_local_binds_only
  | |- binds_only _ _ (with_environment _ _) => apply with_environment_binds_only
  | |- binds_only _ _ (NewLabel _) => eapply NewLabel_binds_only; intros ?
  | |- binds_only _ _ (lookup_local _ _) => eapply lookup_local_binds_only; intros ?
  | |- binds_only _ _ (panic _) => apply panic_binds_only
  end.

Ltac binds_auto :=
  eapply binds_only_weaken;
  [ repeat binds_step
  | cbn [orb]; intros Hd;
    repeat match goal with
           | H : _ || _ = true |- _ => apply orb_prop in H as [H|H]
           end;
    try discriminate;
    repeat match goal with
           | H : ?b = true |- _ => rewrite H
           end;
    rewrite ?orb_true_r; reflexivity ].

Lemma Emit_binds_only (x : string) (a : AST) : binds_only x (declares x a) (Emit a).
Proof.
  induction a using AST_nested_ind; cbn [Emit declares];
    unfold binary, emitPrologue, emitEpilogue.
  all: try solve [binds_auto].
  - (* Call *)
    destruct args as [|arg0 [|arg1 rest]].
    + apply emit_binds_only.
    + inversion H as [|? ? Harg _]; subst. cbn [length existsb].
      rewrite bool_decide_eq_false_2 by discriminate.
      rewrite bool_decide_eq_true_2 by reflexivity.
      binds_auto.
    + remember (arg0 :: arg1 :: rest) as args eqn:Hargs.
      assert (Hlen : (2 <= length args)%nat) by (subst args; simpl; lia).
      clear Hargs.
      repeat case_bool_decide; cbn [andb]; try lia.
      * eapply binds_only_weaken.
        -- eapply seq_binds_only; [apply emit_binds_only|].
           eapply seq_binds_only;
             [exact (for_each_argument_binds_only x Emit (declares x) _ H 0%nat)|].
           eapply seq_binds_only; apply emit_binds_only.
        -- cbn [orb]. rewrite orb_false_r. auto.
      * eapply binds_only_weaken; [apply panic_binds_only | discriminate].
  - (* Block *) exact (for_each_binds_only x Emit (declares x) _ H).
  - (* Function *)
    case_bool_decide; [apply panic_binds_only|]. binds_auto.
  - (* Main *)
    eapply binds_only_weaken.
    + eapply seq_binds_only; [apply emit_binds_only|].
      eapply seq_binds_only; [apply emit_binds_only|].
      eapply seq_binds_only; [apply emit_binds_only|].
      eapply seq_binds_only;
        [exact (for_each_binds_only x Emit (declares x) _ H)|].
      eapply seq_binds_only; apply emit_binds_only.
    + cbn [orb]. rewrite orb_false_r. auto.
Qed.

Lemma statements_bind_only (x : string) (l : list AST) (st : state) :
  is_Some (locals (env (snd (for_each Emit l st))) !! x) ->
  is_Some (locals (env st) !! x) \/ existsb (declares x) l = true.
Proof.
  apply (for_each_binds_only x Emit (declares x) l).
  apply List.Forall_forall. intros a _. apply Emit_binds_only.
Qed.

(** ** What [Main] emits *)

Lemma Main_unfold (statements : list AST) (st : state) :
  Emit (Main statements) st
  = seq (for_each Emit statements) main_footer (appended st main_header).
Proof.
  destruct st as [e lc o]. cbn [Emit]. unfold main_footer, main_header.
  unfold seq at 1 2 3, emit at 1 2 3, appended.
  cbn [env labelCounter output]. rewrite <- !app_assoc. reflexivity.
Qed.

Lemma Id_bound (x : string) (offset : Z) (st : state) :
  locals (env st) !! x = Some offset ->
  Emit (Id x) st
  = (Done tt, appended st ["  ldr r0, [fp, #" +:+ fmt_d offset +:+ "]"]).
Proof. intros Hx. cbn [Emit]. unfold lookup_local. rewrite Hx. reflexivity. Qed.

Lemma Assign_bound (x : string) (value : AST) (offset : Z) (st st1 : state) :
  Emit value st = (Done tt, st1) ->
  locals (env st1) !! x = Some offset ->
  Emit (Assign x value) st
  = (Done tt, appended st1 ["  str r0, [fp, #" +:+ fmt_d offset +:+ "]"]).
Proof.
  intros Hv Hx. cbn [Emit]. rewrite (seq_Done _ _ _ _ Hv).
  unfold lookup_local. rewrite Hx. reflexivity.
Qed.

(** C10 as stated fails: a [__main] declared inside a function is emitted
    against that function's environment, so a read of a name that the
    enclosing function has as a parameter is emitted as a load from the
    parameter's slot, not as an undefined-variable error, although the
    parameter of [__main] of the same name was discarded and no
    declaration is in sight. *)
Lemma main_reads_enclosing_parameter :
  ParseStringToCompletion (parser 5) "function f(a) { function __main(a) { a; } }"
  = Done (Block [Function "f" ["a"] (Block [Main [Id "a"]])])
  /\ compile 5 "function f(a) { function __main(a) { a; } }"
     = (Done tt,
        appended initial_state
          [EmptyString; ".global f"; "f:"; "  push {fp, lr}"; "  mov fp, sp";
           "  push {r0, r1, r2, r3}";
           ".global main"; "main:"; "  push {fp, lr}";
           "  ldr r0, [fp, #-16]";
           "  mov r0, #0"; "  pop {fp, pc}";
           "  mov sp, fp"; "  mov r0, #0"; "  pop {fp, pc}"]).
Proof. vm_compute. split; reflexivity. Qed.

(** C10, amended.  A function named [__main] becomes [Main] with the
    statements of its block whatever its parameter list is (the sample
    texts parse for every step bound from 5 on).  [Main] binds nothing
    itself: it emits its statements against the environment it is given.
    So a read or an assignment of a name in the body, the name of a
    discarded parameter included, panics with the undefined-variable
    message if the environment does not bind the name when the statement
    is reached, and is emitted as the load or the store at the bound
    offset if it does.  The name is bound there only if the environment
    given to [Main] binds it or a [Var] of that name comes earlier in the
    body.  At top level the environment is empty: the samples panic.
    Inside a function it is the environment of that function, whose
    parameters are therefore read at their own slots. *)
Theorem main_discards_parameters :
  (forall parameters statements,
     function_node "__main" parameters (Block statements) = Main statements)
  /\ (forall fuel, (5 <= fuel)%nat ->
        ParseStringToCompletion (parser fuel) "function __main(a, b) { a; }"
        = Done (Block [Main [Id "a"]])
        /\ fst (compile fuel "function __main(a, b) { a; }")
           = Panic "Undefined variable: a"
        /\ fst (compile fuel "function __main(a, b) { b = 1; }")
           = Panic "Undefined variable: b")
  /\ (forall statements st,
        Emit (Main statements) st
        = seq (for_each Emit statements) main_footer (appended st main_header))
  /\ (forall parameters before x rest st st1,
        for_each Emit before (appended st main_header) = (Done tt, st1) ->
        (locals (env st1) !! x = None ->
         Emit (function_node "__main" parameters (Block (before ++ Id x :: rest))) st
         = (Panic ("Undefined variable: " +:+ x), st1))
        /\ (forall offset,
              locals (env st1) !! x = Some offset ->
              Emit (function_node "__main" parameters
                      (Block (before ++ Id x :: rest))) st
              = seq (for_each Emit rest) main_footer
                  (appended st1 ["  ldr r0, [fp, #" +:+ fmt_d offset +:+ "]"])))
  /\ (forall parameters before x value rest st st1 st2,
        for_each Emit before (appended st main_header) = (Done tt, st1) ->
        Emit value st1 = (Done tt, st2) ->
        (locals (env st2) !! x = None ->
         Emit (function_node "__main" parameters
                 (Block (before ++ Assign x value :: rest))) st
         = (Panic ("Undefined variable: " +:+ x), st2))
        /\ (forall offset,
              locals (env st2) !! x = Some offset ->
              Emit (function_node "__main" parameters
                      (Block (before ++ Assign x value :: rest))) st
              = seq (for_each Emit rest) main_footer
                  (appended st2 ["  str r0, [fp, #" +:+ fmt_d offset +:+ "]"])))
  /\ (forall before x st st1,
        for_each Emit before (appended st main_header) = (Done tt, st1) ->
        is_Some (locals (env st1) !! x) ->
        is_Some (locals (env st) !! x) \/ existsb (declares x) before = true)
  /\ (forall name parameters discarded (i : nat) (p : string) st,
        (length parameters <= 4)%nat ->
        parameters !! i = Some p ->
        (forall k, (i < k)%nat -> parameters !! k <> Some p) ->
        Emit (Function name parameters
                (Block [function_node "__main" discarded (Block [Id p])])) st
        = (Done tt,
           appended st
             ([EmptyString; ".global " +:+ name; name +:+ ":";
               "  push {fp, lr}"; "  mov fp, sp"; "  push {r0, r1, r2, r3}"]
              ++ main_header
              ++ ["  ldr r0, [fp, #" +:+ fmt_d (4 * Z.of_nat i - 16) +:+ "]";
                  "  mov r0, #0"; "  pop {fp, pc}";
                  "  mov sp, fp"; "  mov r0, #0"; "  pop {fp, pc}"]))).
Proof.
  split; [reflexivity|]. split; [|split; [exact Main_unfold|]].
  { intros fuel Hfuel.
    assert (Ha : ParseStringToCompletion (parser 5) "function __main(a, b) { a; }"
                 = Done (Block [Main [Id "a"]])) by (vm_compute; reflexivity).
    assert (Hb : ParseStringToCompletion (parser 5) "function __main(a, b) { b = 1; }"
                 = Done (Block [Main [Assign "b" (Number 1)]]))
      by (vm_compute; reflexivity).
    split; [|split].
    + apply (parser_settled 5 fuel _ _ Ha); [discriminate | assumption].
    + rewrite (compile_settled 5 fuel _ _ eq_refl); [vm_compute; reflexivity | | assumption].
      rewrite Ha. discriminate.
    + rewrite (compile_settled 5 fuel _ _ eq_refl); [vm_compute; reflexivity | | assumption].
      rewrite Hb. discriminate. }
  split; [|split; [|split]].
  - intros parameters before x rest st st1 Hbefore.
    change (function_node "__main" parameters (Block (before ++ Id x :: rest)))
      with (Main (before ++ Id x :: rest)).
    rewrite Main_unfold. split.
    + intros Hx. apply seq_Panic. rewrite for_each_app.
      rewrite (seq_Done _ _ _ _ Hbefore). cbn [for_each].
      apply seq_Panic, Id_unbound, Hx.
    + intros offset Hx. unfold seq at 1. rewrite for_each_app.
      rewrite (seq_Done _ _ _ _ Hbefore). cbn [for_each].
      rewrite (seq_Done _ _ _ _ (Id_bound x offset st1 Hx)). reflexivity.
  - intros parameters before x value rest st st1 st2 Hbefore Hv.
    change (function_node "__main" parameters
              (Block (before ++ Assign x value :: rest)))
      with (Main (before ++ Assign x value :: rest)).
    rewrite Main_unfold. split.
    + intros Hx. apply seq_Panic. rewrite for_each_app.
      rewrite (seq_Done _ _ _ _ Hbefore). cbn [for_each].
      apply seq_Panic, Assign_unbound; assumption.
    + intros offset Hx. unfold seq at 1. rewrite for_each_app.
      rewrite (seq_Done _ _ _ _ Hbefore). cbn [for_each].
      rewrite (seq_Done _ _ _ _ (Assign_bound x value offset st1 st2 Hv Hx)).
      reflexivity.
  - intros before x st st1 Hbefore Hx.
    pose proof (statements_bind_only x before (appended st main_header)) as Hb.
    rewrite Hbefore in Hb. exact (Hb Hx).
  - intros name parameters discarded i p st Hlen Hi Hlast.
    change (function_node "__main" discarded (Block [Id p])) with (Main [Id p]).
    assert (Hp : locals (setUpEnvironment parameters) !! p
                 = Some (4 * Z.of_nat i - 16)).
    { unfold setUpEnvironment. cbn [locals].
      exact (bind_parameters_last p parameters i 0 _ Hi Hlast). }
    assert (Hbody : forall st0,
      env st0 = setUpEnvironment parameters ->
      Emit (Block [Main [Id p]]) st0
      = (Done tt,
         appended st0
           (main_header
            ++ ["  ldr r0, [fp, #" +:+ fmt_d (4 * Z.of_nat i - 16) +:+ "]";
                "  mov r0, #0"; "  pop {fp, pc}"]))).
    { intros st0 He.
      change (Emit (Block [Main [Id p]]) st0)
        with (seq (Emit (Main [Id p])) skip st0).
      rewrite seq_skip_r, Main_unfold.
      change (for_each Emit [Id p]) with (seq (Emit (Id p)) skip).
      assert (Hid : seq (Emit (Id p)) skip (appended st0 main_header)
                    = (Done tt,
                       appended (appended st0 main_header)
                         ["  ldr r0, [fp, #" +:+ fmt_d (4 * Z.of_nat i - 16) +:+ "]"])).
      { rewrite seq_skip_r. apply Id_bound. cbn [appended env]. rewrite He. exact Hp. }
      rewrite (seq_Done _ _ _ _ Hid).
      unfold main_footer, seq, emit, appended. cbn [env labelCounter output].
      rewrite <- !app_assoc. reflexivity. }
    rewrite (Function_unfold name parameters _ st Hlen). cbv zeta.
    rewrite Hbody by reflexivity.
    unfold appended, frame_header, frame_footer, main_header.
    cbn [fst snd env labelCounter output]. rewrite <- !app_assoc. reflexivity.
Qed.

Lemma main_discards_parameters_witness :
  Emit (function_node "__main" ["a"; "b"] (Block ([] ++ Id "a" :: []))) initial_state
  = (Panic "Undefined variable: a", appended initial_state main_header)
  /\ Emit (function_node "__main" ["a"; "b"]
             (Block ([Var "b" (Number 7)] ++ Assign "b" (Number 1) :: [])))
       initial_state
     = seq (for_each Emit []) main_footer
         (appended
            (snd (Emit (Number 1)
                    (snd (for_each Emit [Var "b" (Number 7)]
                            (appended initial_state main_header)))))
            ["  str r0, [fp, #" +:+ fmt_d (-4) +:+ "]"])
  /\ fst (compile 7 "function __main(a, b) { a; }") = Panic "Undefined variable: a"
  /\ (is_Some (locals (env initial_state) !! "b")
      \/ existsb (declares "b") [Var "b" (Number 7)] = true).
Proof.
  split; [|split; [|split]].
  - apply (proj1 (proj2 (proj2 (proj2 main_discards_parameters)))
             ["a"; "b"] [] "a" [] initial_state
             (appended initial_state main_header)).
    + reflexivity.
    + reflexivity.
  - apply (proj1 (proj2 (proj2 (proj2 (proj2 main_discards_parameters))))
             ["a"; "b"] [Var "b" (Number 7)] "b" (Number 1) [] initial_state
             (snd (for_each Emit [Var "b" (Number 7)]
                     (appended initial_state main_header)))).
    + vm_compute. reflexivity.
    + vm_compute. reflexivity.
    + vm_compute. reflexivity.
  - apply (proj1 (proj2 main_discards_parameters) 7%nat). lia.
  - apply (proj1 (proj2 (proj2 (proj2 (proj2 (proj2 main_discards_parameters)))))
             [Var "b" (Number 7)] "b" initial_state
             (snd (for_each Emit [Var "b" (Number 7)]
                     (appended initial_state main_header)))).
    + vm_compute. reflexivity.
    + vm_compute. eexists. reflexivity.
Defined.

(** * Precedence and association *)

(** ** [infix] folds to the left *)

Section Infix.
Variable operator : Parser (AST -> AST -> AST).
Variable operand : Parser AST.

Lemma pair_fails (src : Source) :
  invoke (pair operator operand) src = Done None -> no_pair operator operand src.
Proof.
  unfold pair. unfold invoke at 1. unfold Bind at 1. cbn [Parse parserOf].
  destruct (invoke operator src) as [[r1|]| |] eqn:Ho; try discriminate.
  - cbn [Bind Parse parserOf].
    destruct (invoke operand (source r1)) as [[r2|]| |] eqn:Hr; try discriminate.
    intros _. right. exists (value r1), (source r1). split; [|exact Hr].
    unfold reads. rewrite Ho. destruct r1; reflexivity.
  - intros _. left. exact Ho.
Qed.

Lemma pair_reads (src : Source) (r : ParseResult (AST -> AST)) :
  invoke (pair operator operand) src = Done (Some r) ->
  exists op mid right,
    reads operator src op mid
    /\ reads operand mid right (source r)
    /\ value r = (fun current => op current right).
Proof.
  unfold pair. unfold invoke at 1. unfold Bind at 1. cbn [Parse parserOf].
  destruct (invoke operator src) as [[r1|]| |] eqn:Ho; try discriminate.
  cbn [Bind Parse parserOf].
  destruct (invoke operand (source r1)) as [[r2|]| |] eqn:Hr; try discriminate.
  cbn [Constant Parse parserOf]. intros [= <-]. cbn [value source].
  exists (value r1), (source r1), (value r2). split; [|split; [|reflexivity]].
  - unfold reads. rewrite Ho. destruct r1; reflexivity.
  - unfold reads. rewrite Hr. destruct r2; reflexivity.
Qed.

Lemma pair_of_reads (src : Source) op mid right next :
  reads operator src op mid -> reads operand mid right next ->
  invoke (pair operator operand) src = Done (Some (mkResult (fun current => op current right) next)).
Proof.
  unfold reads. intros Ho Hr.
  unfold pair. unfold invoke at 1. unfold Bind at 1. cbn [Parse parserOf].
  rewrite Ho. cbn [Bind Parse parserOf value source]. rewrite Hr. reflexivity.
Qed.

Lemma pair_of_no_pair (src : Source) :
  no_pair operator operand src -> invoke (pair operator operand) src = Done None.
Proof.
  unfold pair. unfold invoke at 1. unfold Bind at 1. cbn [Parse parserOf].
  intros [Ho | (op & mid & Ho & Hr)].
  - rewrite Ho. reflexivity.
  - unfold reads in Ho. rewrite Ho. cbn [Bind Parse parserOf value source].
    rewrite Hr. reflexivity.
Qed.

Lemma Many_loop_folds (fuel : nat) :
  forall acc src ops src',
    Many_loop fuel (invoke (pair operator operand)) acc src = Done (Some (mkResult ops src')) ->
    exists n more,
      ops = (acc ++ more)%list
      /\ (n < fuel)%nat
      /\ forall tree,
           folds_left operator operand n tree src (apply_ops tree more) src'.
Proof.
  induction fuel as [|fuel IH]; intros acc src ops src'; cbn [Many_loop];
    [discriminate|].
  destruct (invoke (pair operator operand) src) as [[r|]| |] eqn:Hp; try discriminate.
  - intros Hloop. destruct (IH _ _ _ _ Hloop) as (n & more & -> & Hn & Hfold).
    destruct (pair_reads src r Hp) as (op & mid & right & Ho & Hr & Hv).
    exists (S n), (value r :: more). split; [rewrite <- app_assoc; reflexivity|].
    split; [lia|]. intros tree.
    apply (folds_more operator operand n tree src op mid right (source r));
      [exact Ho | exact Hr |].
    replace (apply_ops tree (value r :: more))
      with (apply_ops (op tree right) more); [apply Hfold|].
    unfold apply_ops. cbn [fold_left]. rewrite Hv. reflexivity.
  - intros [= <- <-]. exists O, []. split; [rewrite app_nil_r; reflexivity|].
    split; [lia|]. intros tree. apply folds_done, pair_fails, Hp.
Qed.

Lemma folds_Many_loop n tree src result src' :
  folds_left operator operand n tree src result src' ->
  exists more,
    result = apply_ops tree more
    /\ forall fuel acc, (n < fuel)%nat ->
         Many_loop fuel (invoke (pair operator operand)) acc src
         = Done (Some (mkResult (acc ++ more)%list src')).
Proof.
  induction 1 as [tree src Hstop
                 |n tree src op mid right next result src' Ho Hr _ IH].
  - exists []. split; [reflexivity|]. intros fuel acc Hfuel.
    destruct fuel as [|fuel]; [lia|]. cbn [Many_loop].
    rewrite (pair_of_no_pair src Hstop), app_nil_r. reflexivity.
  - destruct IH as (more & -> & Hloop).
    exists ((fun current => op current right) :: more). split; [reflexivity|].
    intros fuel acc Hfuel. destruct fuel as [|fuel]; [lia|]. cbn [Many_loop].
    rewrite (pair_of_reads src op mid right next Ho Hr). cbn [value source].
    rewrite (Hloop fuel _ ltac:(lia)), <- app_assoc. reflexivity.
Qed.

Lemma infix_unfold (fuel : nat) (src : Source) :
  invoke (infix fuel operator operand) src
  = match invoke operand src with
    | Done (Some first) =>
        match Many_loop fuel (invoke (pair operator operand)) [] (source first) with
        | Done (Some ops) =>
            Done (Some (mkResult (apply_ops (value first) (value ops)) (source ops)))
        | Done None => Done None
        | Panic msg => Panic msg
        | Diverge => Diverge
        end
    | Done None => Done None
    | Panic msg => Panic msg
    | Diverge => Diverge
    end.
Proof.
  unfold infix. unfold invoke at 1. unfold Bind at 1. cbn [Parse parserOf].
  destruct (invoke operand src) as [[first|]| |]; reflexivity.
Qed.

Lemma infix_level (fuel : nat) (src : Source) (result : AST) (src' : Source) :
  reads (infix fuel operator operand) src result src'
  <-> level fuel operator operand src result src'.
Proof.
  unfold reads, level. rewrite infix_unfold. split.
  - destruct (invoke operand src) as [[first|]| |] eqn:Hfirst; try discriminate.
    destruct (Many_loop fuel (invoke (pair operator operand)) [] (source first)) as [[[ops src2]|]| |]
      eqn:Hloop; try discriminate.
    cbn [value source]. intros [= <- <-].
    destruct (Many_loop_folds fuel _ _ _ _ Hloop) as (n & more & Hops & Hn & Hfold).
    cbn [app] in Hops. subst ops.
    exists n, (value first), (source first). split; [exact Hn|].
    split; [unfold reads; rewrite Hfirst; destruct first; reflexivity | apply Hfold].
  - intros (n & first & mid & Hn & Hfirst & Hfold). unfold reads in Hfirst.
    rewrite Hfirst.
    cbn [value source].
    destruct (folds_Many_loop _ _ _ _ _ Hfold) as (more & -> & Hloop).
    rewrite (Hloop fuel [] Hn). reflexivity.
Qed.
End Infix.

(** ** The operators of each level *)

Lemma literal_match (k : string) :
  forall (prev : option ascii) (s : string),
    RE2.match_items (literal k) prev s
    = if String.prefix k s then Some (String.length k) else None.
Proof.
  induction k as [|a k IH]; intros prev s.
  - destruct s; reflexivity.
  - unfold literal in *. cbn [list_ascii_of_string map RE2.match_items].
    unfold RE2.one. destruct s as [|b s]; [reflexivity|].
    cbn [RE2.atom_matches String.prefix String.length].
    destruct (Ascii.eqb_spec a b) as [->|Hne].
    + destruct (ascii_dec b b) as [_|Hn]; [|contradiction].
      rewrite IH. destruct (String.prefix k s); reflexivity.
    + destruct (ascii_dec a b) as [He|_]; [contradiction | reflexivity].
Qed.

Lemma symbol_at_prefix (k : string) (src : Source) :
  symbol_at k src
  <-> String.prefix k (string_drop (Z.to_nat (index src)) (str src)) = true.
Proof.
  unfold symbol_at. rewrite <- substring_drop. symmetry. apply prefix_correct.
Qed.

Lemma Match_literal (pattern k : string) (src : Source) :
  Compile ("^" +:+ TrimPrefix pattern "^") = Some (RE2.BeginText :: literal k) ->
  k <> EmptyString ->
  in_bounds src ->
  Match src pattern
  = if String.prefix k (string_drop (Z.to_nat (index src)) (str src))
    then Done (Some (mkResult k
                 (NewSource (str src) (index src + Z.of_nat (String.length k)))))
    else Done None.
Proof.
  intros Hc Hk Hb. unfold Match. unfold in_bounds in Hb.
  case_bool_decide as Hend.
  - assert (Hdrop : string_drop (Z.to_nat (index src)) (str src) = EmptyString).
    { pose proof (string_drop_length (Z.to_nat (index src)) (str src)) as Hl.
      destruct (string_drop _ _); [reflexivity | simpl in Hl; lia]. }
    rewrite Hdrop. destruct k; [contradiction | reflexivity].
  - rewrite Hc. rewrite bool_decide_eq_false_2 by lia.
    match goal with
    | |- context [@FindStringIndex re2 ?re ?t] =>
        change (@FindStringIndex re2 re t) with (RE2.find_from re None t 0)
    end.
    pose proof (string_drop_length (Z.to_nat (index src)) (str src)) as Hl.
    destruct (string_drop (Z.to_nat (index src)) (str src)) as [|c rest] eqn:Hdrop;
      [simpl in Hl; lia|].
    rewrite find_from_anchored_cons, literal_match.
    destruct (String.prefix k (String c rest)) eqn:Hp; [|reflexivity].
    cbn [Nat.add]. rewrite Nat.sub_0_r.
    rewrite (proj1 (prefix_correct k (String c rest)) Hp). reflexivity.
Qed.

Lemma Map_invoke {T U} (p : Parser T) (g : T -> U) (src : Source) :
  invoke (Map p g) src
  = match invoke p src with
    | Done (Some r) => Done (Some (mkResult (g (value r)) (source r)))
    | Done None => Done None
    | Panic msg => Panic msg
    | Diverge => Diverge
    end.
Proof.
  unfold Map. unfold invoke at 1. unfold Bind at 1. cbn [Parse parserOf].
  destruct (invoke p src) as [[r|]| |]; reflexivity.
Qed.

Lemma token_reads (fuel : nat) (pattern : string) (src : Source)
    (r : ParseResult string) :
  invoke (token fuel pattern) src = Done (Some r) ->
  exists m vs,
    Match src pattern = Done (Some m)
    /\ value r = value m
    /\ reads (ignored fuel) (source m) vs (source r).
Proof.
  unfold token, And. unfold invoke at 1. unfold Bind at 1.
  cbn [Parse parserOf]. unfold invoke at 1. cbn [Regexp Parse parserOf].
  destruct (Match src pattern) as [[m|]| |]; try discriminate.
  cbn [Bind Parse parserOf].
  destruct (invoke (ignored fuel) (source m)) as [[[vs src2]|]| |] eqn:Hi;
    try discriminate.
  cbn [Constant Parse parserOf value source]. intros [= <-].
  exists m, vs. split; [reflexivity | split; [reflexivity | exact Hi]].
Qed.

Section Operator.
Variable fuel : nat.
Variables (pattern k : string) (op : AST -> AST -> AST).
Hypothesis compiled :
  Compile ("^" +:+ TrimPrefix pattern "^") = Some (RE2.BeginText :: literal k).
Hypothesis not_empty : k <> EmptyString.

Lemma operator_reads (src : Source) (f : AST -> AST -> AST) (mid : Source) :
  in_bounds src ->
  reads (Map (token fuel pattern) (fun _ => op)) src f mid ->
  symbol_at k src /\ f = op /\ str mid = str src
  /\ index src + Z.of_nat (String.length k) <= index mid.
Proof using compiled not_empty.
  intros Hb. unfold reads. rewrite Map_invoke.
  destruct (invoke (token fuel pattern) src) as [[r|]| |] eqn:Ht; try discriminate.
  intros [= <- <-].
  destruct (token_reads fuel pattern src r Ht) as (m & vs & Hm & _ & Hi).
  rewrite (Match_literal pattern k src compiled not_empty Hb) in Hm.
  destruct (String.prefix k _) eqn:Hp; [|discriminate].
  injection Hm as <-. cbn [source] in Hi.
  split; [apply symbol_at_prefix; exact Hp|]. split; [reflexivity|].
  assert (Hb' : in_bounds (NewSource (str src) (index src + Z.of_nat (String.length k)))).
  { apply symbol_at_prefix in Hp. unfold symbol_at in Hp.
    pose proof (substring_length_le (Z.to_nat (index src)) (String.length k) (str src))
      as [_ Hl].
    rewrite Hp in Hl. unfold in_bounds in *. cbn [str index]. lia. }
  destruct (ignored_monotone fuel) with (f := fun s => invoke (ignored fuel) s)
    (src := NewSource (str src) (index src + Z.of_nat (String.length k)))
    (r := mkResult vs (source r)) as [Hs Hi'];
    [reflexivity | exact Hb' | exact Hi |].
  cbn [source str index] in Hs, Hi'. split; [exact Hs | lia].
Qed.

Lemma operator_fails (src : Source) :
  in_bounds src -> ~ symbol_at k src -> invoke (Map (token fuel pattern) (fun _ => op)) src = Done None.
Proof using compiled not_empty.
  intros Hb Hno. rewrite Map_invoke.
  rewrite (token_failure pattern src fuel); [reflexivity|].
  rewrite (Match_literal pattern k src compiled not_empty Hb).
  destruct (String.prefix k _) eqn:Hp; [|reflexivity].
  exfalso. apply Hno, symbol_at_prefix, Hp.
Qed.

Lemma operator_succeeds (src : Source) :
  in_bounds src -> symbol_at k src -> (remaining_bytes src < fuel)%nat ->
  exists mid, reads (Map (token fuel pattern) (fun _ => op)) src op mid.
Proof using compiled not_empty.
  intros Hb Hsym Hfuel.
  pose proof (Match_literal pattern k src compiled not_empty Hb) as Hm.
  rewrite (proj1 (symbol_at_prefix k src) Hsym) in Hm.
  destruct (token_success pattern src _ Hb Hm) as (mid & Hrun & _).
  exists mid. unfold reads. rewrite Map_invoke.
  cbn [value source] in Hrun. rewrite Hrun; [reflexivity|].
  unfold remaining_bytes in *. cbn [str index]. lia.
Qed.
End Operator.

Lemma Or_two {T} (a b : Parser T) (src : Source) :
  Parse a <> None -> Parse b <> None ->
  invoke (Or [a; b]) src
  = match invoke a src with
    | Done None => invoke b src
    | r => r
    end.
Proof.
  intros Ha Hb. unfold invoke. cbn [Or Parse parserOf Or_loop].
  destruct (Parse a) as [f|]; [|contradiction].
  destruct (Parse b) as [g|]; [|contradiction].
  destruct (f src) as [[r|]| |]; try reflexivity.
  destruct (g src) as [[r|]| |]; reflexivity.
Qed.

Section TwoOperators.
Variable fuel : nat.
Variables (pa ka : string) (opa : AST -> AST -> AST).
Variables (pb kb : string) (opb : AST -> AST -> AST).
Hypothesis compiled_a :
  Compile ("^" +:+ TrimPrefix pa "^") = Some (RE2.BeginText :: literal ka).
Hypothesis compiled_b :
  Compile ("^" +:+ TrimPrefix pb "^") = Some (RE2.BeginText :: literal kb).
Hypothesis not_empty_a : ka <> EmptyString.
Hypothesis not_empty_b : kb <> EmptyString.
Hypothesis apart :
  forall s, String.prefix ka s = true -> String.prefix kb s = true -> False.

Lemma two_operators (src : Source) :
  in_bounds src ->
  (forall f mid,
     reads (Or [Map (token fuel pa) (fun _ => opa); Map (token fuel pb) (fun _ => opb)]) src f mid ->
     exists sym,
       In (sym, f) [(ka, opa); (kb, opb)] /\ symbol_at sym src /\ str mid = str src
       /\ index src + Z.of_nat (String.length sym) <= index mid)
  /\ ((forall sym f, In (sym, f) [(ka, opa); (kb, opb)] -> ~ symbol_at sym src) ->
      invoke (Or [Map (token fuel pa) (fun _ => opa); Map (token fuel pb) (fun _ => opb)]) src = Done None)
  /\ (forall sym f,
        In (sym, f) [(ka, opa); (kb, opb)] -> symbol_at sym src ->
        (remaining_bytes src < fuel)%nat ->
        exists mid, reads (Or [Map (token fuel pa) (fun _ => opa); Map (token fuel pb) (fun _ => opb)]) src f mid).
Proof using compiled_a compiled_b not_empty_a not_empty_b apart.
  intros Hb.
  assert (Hor : forall s,
    invoke (Or [Map (token fuel pa) (fun _ => opa); Map (token fuel pb) (fun _ => opb)]) s
    = match invoke (Map (token fuel pa) (fun _ => opa)) s with
      | Done None => invoke (Map (token fuel pb) (fun _ => opb)) s
      | r => r
      end) by (intros s; apply Or_two; discriminate).
  split; [|split].
  - intros f mid. unfold reads. rewrite Hor.
    destruct (invoke (Map (token fuel pa) (fun _ => opa)) src) as [[r|]| |] eqn:Ha;
      try discriminate.
    + intros [= ->].
      destruct (operator_reads fuel pa ka opa compiled_a not_empty_a src f mid Hb Ha)
        as (Hs & -> & Hrest).
      exists ka. split; [left; reflexivity | split; [exact Hs | exact Hrest]].
    + intros Hbr.
      destruct (operator_reads fuel pb kb opb compiled_b not_empty_b src f mid Hb Hbr)
        as (Hs & -> & Hrest).
      exists kb. split; [right; left; reflexivity | split; [exact Hs | exact Hrest]].
  - intros Hnone. rewrite Hor.
    rewrite (operator_fails fuel pa ka opa compiled_a not_empty_a src Hb)
      by (apply (Hnone ka opa); left; reflexivity).
    apply (operator_fails fuel pb kb opb compiled_b not_empty_b src Hb).
    apply (Hnone kb opb). right. left. reflexivity.
  - intros sym f Hin Hsym Hfuel. unfold reads. rewrite Hor.
    destruct Hin as [[= <- <-] | [[= <- <-] | []]].
    + destruct (operator_succeeds fuel pa ka opa compiled_a not_empty_a src
                  Hb Hsym Hfuel) as (mid & Hmid).
      exists mid. unfold reads in Hmid. rewrite Hmid. reflexivity.
    + rewrite (operator_fails fuel pa ka opa compiled_a not_empty_a src Hb).
      * exact (operator_succeeds fuel pb kb opb compiled_b not_empty_b src
                 Hb Hsym Hfuel).
      * intros Ha. apply symbol_at_prefix in Ha, Hsym. exact (apart _ Ha Hsym).
Qed.
End TwoOperators.

Lemma symbols_apart (a b : ascii) (ka kb s : string) :
  a <> b ->
  String.prefix (String a ka) s = true -> String.prefix (String b kb) s = true ->
  False.
Proof.
  intros Hne. destruct s as [|c s]; simpl; [discriminate|].
  destruct (ascii_dec a c) as [->|]; [|discriminate].
  destruct (ascii_dec b c) as [->|]; [contradiction | discriminate].
Qed.

Lemma ladder_operators (fuel : nat) (operators : Parser (AST -> AST -> AST))
    (table : list (string * (AST -> AST -> AST))) (src : Source) :
  In (operators, table) (ladder fuel) ->
  in_bounds src ->
  (forall f mid,
     reads operators src f mid ->
     exists sym,
       In (sym, f) table /\ symbol_at sym src /\ str mid = str src
       /\ index src + Z.of_nat (String.length sym) <= index mid)
  /\ ((forall sym f, In (sym, f) table -> ~ symbol_at sym src) ->
      invoke operators src = Done None)
  /\ (forall sym f,
        In (sym, f) table -> symbol_at sym src ->
        (remaining_bytes src < fuel)%nat ->
        exists mid, reads operators src f mid).
Proof.
  intros Hin Hb.
  destruct Hin as [[= <- <-] | [[= <- <-] | [[= <- <-] | []]]].
  - apply (two_operators fuel "==" "==" Equal "!=" "!=" NotEqual);
      [reflexivity | reflexivity | discriminate | discriminate | | exact Hb].
    intros s. apply symbols_apart. discriminate.
  - apply (two_operators fuel "\+" "+" Add "-" "-" Subtract);
      [reflexivity | reflexivity | discriminate | discriminate | | exact Hb].
    intros s. apply symbols_apart. discriminate.
  - apply (two_operators fuel "\*" "*" Multiply "/" "/" Divide);
      [reflexivity | reflexivity | discriminate | discriminate | | exact Hb].
    intros s. apply symbols_apart. discriminate.
Qed.

Lemma comparison_is_the_top_level (fuel : nat) (e : Parser AST) :
  getComparisonParser fuel e
  = infix fuel (Or [EQUAL fuel; NOT_EQUAL fuel]) (sum_level fuel e).
Proof. reflexivity. Qed.

Lemma expression_step (fuel : nat) (src : Source) :
  invoke (expression (S fuel)) src
  = invoke (getComparisonParser fuel (expression fuel)) src.
Proof. reflexivity. Qed.

(** C1.  The expression grammar reads binary operators at three levels,
    comparison below sum below product, and every level folds to the
    left.  [infix] succeeds exactly when an operand can be read and,
    after it, some number of operators each followed by an operand, up
    to a cursor where no further pair can be read; its value combines
    each operator with everything to its left as soon as its right
    operand is read.  [expression] is such a fold of [==] and [!=] over
    operands that are folds of [+] and [-] over operands that are folds
    of [*] and [/] over unary terms.  At each level the operator parser
    succeeds exactly where the text at the cursor starts with one of the
    two symbols of the level, and yields the node of that symbol.  So the
    inputs of the specification, and inputs that mix the levels, parse to
    completion to the left-leaning trees with the tighter operators
    below (for every step bound from 4 on). *)
Theorem precedence_and_left_association :
  (forall fuel, (4 <= fuel)%nat ->
     ParseStringToCompletion (expression fuel) "1 + 2 * 3"
     = Done (Add (Number 1) (Multiply (Number 2) (Number 3)))
     /\ ParseStringToCompletion (expression fuel) "1 * 2 + 3"
        = Done (Add (Multiply (Number 1) (Number 2)) (Number 3))
     /\ ParseStringToCompletion (expression fuel) "1 - 2 - 3"
        = Done (Subtract (Subtract (Number 1) (Number 2)) (Number 3))
     /\ ParseStringToCompletion (expression fuel) "1 == 2 == 3"
        = Done (Equal (Equal (Number 1) (Number 2)) (Number 3))
     /\ ParseStringToCompletion (expression fuel) "1 + 2 == 3"
        = Done (Equal (Add (Number 1) (Number 2)) (Number 3))
     /\ ParseStringToCompletion (expression fuel) "1 != 2 - 3"
        = Done (NotEqual (Number 1) (Subtract (Number 2) (Number 3)))
     /\ ParseStringToCompletion (expression fuel) "8 / 4 / 2"
        = Done (Divide (Divide (Number 8) (Number 4)) (Number 2))
     /\ ParseStringToCompletion (expression fuel) "1 == 2 + 3 * 4 != 5 - 6 / 7"
        = Done (NotEqual
                  (Equal (Number 1)
                     (Add (Number 2) (Multiply (Number 3) (Number 4))))
                  (Subtract (Number 5) (Divide (Number 6) (Number 7)))))
  /\ (forall fuel operator operand src result src',
        reads (infix fuel operator operand) src result src'
        <-> level fuel operator operand src result src')
  /\ (forall fuel e src result src',
        (reads (expression (S fuel)) src result src'
         <-> reads (getComparisonParser fuel (expression fuel)) src result src')
        /\ (reads (getComparisonParser fuel e) src result src'
            <-> level fuel (Or [EQUAL fuel; NOT_EQUAL fuel]) (sum_level fuel e)
                  src result src')
        /\ (reads (sum_level fuel e) src result src'
            <-> level fuel (Or [PLUS fuel; MINUS fuel]) (product_level fuel e)
                  src result src')
        /\ (reads (product_level fuel e) src result src'
            <-> level fuel (Or [STAR fuel; SLASH fuel]) (unary_level fuel e)
                  src result src'))
  /\ (forall fuel operators table src,
        In (operators, table) (ladder fuel) ->
        in_bounds src ->
        (forall f mid,
           reads operators src f mid ->
           exists sym,
             In (sym, f) table /\ symbol_at sym src /\ str mid = str src
             /\ index src + Z.of_nat (String.length sym) <= index mid)
        /\ ((forall sym f, In (sym, f) table -> ~ symbol_at sym src) ->
            invoke operators src = Done None)
        /\ (forall sym f,
              In (sym, f) table -> symbol_at sym src ->
              (remaining_bytes src < fuel)%nat ->
              exists mid, reads operators src f mid)).
Proof.
  split; [|split; [|split]].
  - intros fuel Hfuel.
    repeat split; apply (expression_settled 4 fuel); try assumption;
      vm_compute; reflexivity.
  - intros fuel operator operand src result src'. apply infix_level.
  - intros fuel e src result src'. split; [|split; [|split]].
    + unfold reads. rewrite expression_step. reflexivity.
    + rewrite comparison_is_the_top_level. apply infix_level.
    + unfold sum_level. apply infix_level.
    + unfold product_level. apply infix_level.
  - intros fuel operators table src. apply ladder_operators.
Qed.

Lemma precedence_and_left_association_witness :
  ParseStringToCompletion (expression 6) "1 + 2 == 3"
  = Done (Equal (Add (Number 1) (Number 2)) (Number 3))
  /\ exists mid, reads (Or [STAR 9; SLASH 9]) (NewSource "8 / 4" 2) Divide mid.
Proof.
  split.
  - apply (proj1 precedence_and_left_association 6%nat). lia.
  - apply (proj2 (proj2 (proj2 precedence_and_left_association)) 9%nat
             (Or [STAR 9; SLASH 9]) [("*", Multiply); ("/", Divide)]
             (NewSource "8 / 4" 2)) with (sym := "/").
    + right. right. left. reflexivity.
    + unfold in_bounds. simpl. lia.
    + right. left. reflexivity.
    + reflexivity.
    + vm_compute. lia.
Defined.
